(** * write-wise: the rich-text editor core

    A shallow embedding of the editor toolbar ([Toolbar.tsx]: mark, block
    and alignment toggles, the active-state queries and the DOCX
    serializer), of the page ([page.tsx]: hydration and persistence of
    the document, the renderers [Leaf] and [Element], the resize
    handlers of the sidebar) and of the plain text that the chat panel
    reads off the document ([Chat.tsx]), with the properties of the
    specification stated and settled against them, and further
    properties of the code.

    The toolbar functions are thin compositions of calls into the Slate
    editing library, which is a dependency and not part of the
    repository.  Its primitives ([Editor.nodes], [Editor.unhangRange],
    [Editor.marks], [Editor.addMark], [Transforms.setNodes],
    [Transforms.unwrapNodes], [Transforms.wrapNodes]) are modelled in
    the modules [Path], [Point], [Range], [Editor] and [Transforms]
    below; the scope of each model is stated where it is defined. *)

From Stdlib Require Import List String Ascii Bool Arith PeanoNat ZArith Lia
  Sorted.
Import ListNotations.
Open Scope string_scope.
Open Scope list_scope.

(* ================================================================== *)
(** * Data model *)
(* ================================================================== *)

(** [type CustomText]: the text and five optional boolean marks.  An
    absent key is [None]; [Some false] is a key that is present and
    false. *)
Record CustomText := mkText {
  text : string;
  bold : option bool;
  italic : option bool;
  underline : option bool;
  strike : option bool;
  code : option bool
}.

(** [keyof Omit<CustomText, 'text'>]: the mark names. *)
Inductive Format := fmt_bold | fmt_italic | fmt_underline | fmt_strike | fmt_code.

(** [Omit<CustomText, 'text'>]: what [const { text, ...rest } = node]
    leaves in [rest]. *)
Record Marks := mkMarks {
  mk_bold : option bool;
  mk_italic : option bool;
  mk_underline : option bool;
  mk_strike : option bool;
  mk_code : option bool
}.

(** A node of the document tree.  [type] and [align] are strings, as
    [page.tsx] declares them, so that block types outside the eight
    known ones can be expressed. *)
Unset Elimination Schemes.
Inductive Descendant :=
| TextNode (t : CustomText)
| ElementNode (type : string) (align : option string) (children : list Descendant).
Set Elimination Schemes.

(** The plain leaf [{ text: s }]. *)
Definition plain (s : string) : CustomText := mkText s None None None None None.

(** JavaScript truthiness of an optional boolean and of an optional
    string. *)
Definition truthy_bool (b : option bool) : bool :=
  match b with Some true => true | _ => false end.

Definition truthy_string (s : option string) : bool :=
  match s with Some s' => negb (s' =? "") | None => false end.

(** [page.tsx], [defaultValue]. *)
Definition defaultValue : list Descendant :=
  [ElementNode "paragraph" None [TextNode (plain "")]].

(* ================================================================== *)
(** * Export records (the [docx] constructors the serializer calls) *)
(* ================================================================== *)

Inductive AlignmentType := LEFT | CENTER | RIGHT | JUSTIFIED.
Inductive HeadingLevel := HEADING_1 | HEADING_2 | HEADING_3.

(** Options of [new TextRun({...})]. *)
Record IRunOptions := mkRun {
  r_text : string;
  r_bold : option bool;
  r_italics : option bool;
  r_strike : option bool;
  r_underline : option string   (* [{ type: 'single' }] or undefined *)
}.

(** Options of [new Paragraph({...})], over the type of its children. *)
Record IParagraphOptions (C : Type) := mkParagraph {
  p_children : list C;
  p_heading : option HeadingLevel;
  p_bullet : option nat;                  (* [{ level }] *)
  p_numbering : option (string * nat);    (* [{ reference, level }] *)
  p_alignment : option AlignmentType
}.
Arguments mkParagraph {C}.
Arguments p_children {C}.
Arguments p_heading {C}.
Arguments p_bullet {C}.
Arguments p_numbering {C}.
Arguments p_alignment {C}.

Unset Elimination Schemes.
Inductive DocxNode :=
| TextRun (o : IRunOptions)
| Paragraph (o : IParagraphOptions DocxNode).
Set Elimination Schemes.

(* ================================================================== *)
(** * The serializer *)
(* ================================================================== *)

(** The constant [alignmentMap]; a key outside the table reads as
    undefined. *)
Definition alignmentMap (k : string) : option AlignmentType :=
  if k =? "left" then Some LEFT
  else if k =? "center" then Some CENTER
  else if k =? "right" then Some RIGHT
  else if k =? "justify" then Some JUSTIFIED
  else None.

(** [const alignment = node.align ? alignmentMap[node.align] :
    AlignmentType.LEFT]. *)
Definition alignmentOf (align : option string) : option AlignmentType :=
  if truthy_string align
  then match align with Some a => alignmentMap a | None => None end
  else Some LEFT.

(** The body of the callback of [nodes.map(...)] in [serializeToDocx]:
    the value it returns for one node, an array in the two list cases
    and a single object otherwise, as the list that [.flat()] splices
    into the result. *)
Fixpoint serializeNode (node : Descendant) : list DocxNode :=
  match node with
  | TextNode t =>
      [TextRun {| r_text := text t;
                  r_bold := bold t;
                  r_italics := italic t;
                  r_strike := strike t;
                  r_underline := if truthy_bool (underline t)
                                 then Some "single" else None |}]
  | ElementNode type align ch =>
      let children := flat_map serializeNode ch in
      let alignment := alignmentOf align in
      if type =? "heading-one" then
        [Paragraph (mkParagraph children (Some HEADING_1) None None alignment)]
      else if type =? "heading-two" then
        [Paragraph (mkParagraph children (Some HEADING_2) None None alignment)]
      else if type =? "heading-three" then
        [Paragraph (mkParagraph children (Some HEADING_3) None None alignment)]
      else if type =? "bulleted-list" then
        map (fun child =>
               Paragraph (mkParagraph [child] None (Some 0) None alignment))
            children
      else if type =? "numbered-list" then
        map (fun child =>
               Paragraph (mkParagraph [child] None None
                            (Some ("default-numbering", 0)) alignment))
            children
      else
        [Paragraph (mkParagraph children None None None alignment)]
  end.

(** [serializeToDocx(nodes)]: [nodes.map(...).flat()]. *)
Definition serializeToDocx (nodes : list Descendant) : list DocxNode :=
  flat_map serializeNode nodes.


(* ================================================================== *)
(** * Slate: locations *)
(* ================================================================== *)

(** A path is the list of child indexes from the root of the document
    to a node. *)
Abbreviation Path := (list nat) (only parsing).

Module Path.

(** [Path.compare]: the paths are compared over their common prefix
    only, so an ancestor and its descendants compare equal. *)
Fixpoint compare (p another : Path) : comparison :=
  match p, another with
  | i :: p', j :: another' =>
      match Nat.compare i j with
      | Eq => compare p' another'
      | c => c
      end
  | _, _ => Eq
  end.

Definition isBefore (p another : Path) : bool :=
  match compare p another with Lt => true | _ => false end.

Definition isAfter (p another : Path) : bool :=
  match compare p another with Gt => true | _ => false end.

Definition equals (p another : Path) : bool :=
  if list_eq_dec Nat.eq_dec p another then true else false.

(** [Path.hasPrevious]: the last index is positive. *)
Definition hasPrevious (p : Path) : bool :=
  match rev p with
  | i :: _ => (0 <? i)%nat
  | [] => false
  end.

Definition parent (p : Path) : Path := removelast p.

(** [Path.next]: the path of the next sibling. *)
Definition next (p : Path) : Path :=
  match rev p with
  | i :: r => rev r ++ [S i]
  | [] => []
  end.

(** The path with its index number [i] raised by one. *)
Fixpoint bump (i : nat) (p : Path) : Path :=
  match i, p with
  | O, j :: r => S j :: r
  | S i', j :: r => j :: bump i' r
  | _, [] => []
  end.

(** [Path.endsBefore(p, another)]: [another] is, or lies below, a later
    sibling of [p]. *)
Definition endsBefore (p another : Path) : bool :=
  let i := List.length p - 1 in
  match nth_error p i, nth_error another i with
  | Some av, Some bv =>
      (if list_eq_dec Nat.eq_dec (firstn i p) (firstn i another)
       then true else false)
      && (av <? bv)%nat
  | _, _ => false
  end.

(** [Path.isAncestor(p, another)]: [p] is a proper prefix. *)
Definition isAncestor (p another : Path) : bool :=
  (List.length p <? List.length another)%nat
  && match compare p another with Eq => true | _ => false end.

End Path.

Record Point := mkPoint { path : Path; offset : nat }.

Module Point.

Definition compare (p another : Point) : comparison :=
  match Path.compare (path p) (path another) with
  | Eq => Nat.compare (offset p) (offset another)
  | c => c
  end.

Definition isAfter (p another : Point) : bool :=
  match compare p another with Gt => true | _ => false end.

Definition equals (p another : Point) : bool :=
  (offset p =? offset another)%nat && Path.equals (path p) (path another).

End Point.

Record Range := mkRange { anchor : Point; focus : Point }.

Module Range.

Definition isBackward (r : Range) : bool :=
  Point.isAfter (anchor r) (focus r).

(** [Range.edges]: the start and the end point, in document order. *)
Definition edges (r : Range) : Point * Point :=
  if isBackward r then (focus r, anchor r) else (anchor r, focus r).

Definition isCollapsed (r : Range) : bool :=
  Point.equals (anchor r) (focus r).

Definition isExpanded (r : Range) : bool := negb (isCollapsed r).

Definition equals (r another : Range) : bool :=
  Point.equals (anchor r) (anchor another)
  && Point.equals (focus r) (focus another).

End Range.

(** The editor object, as far as the toolbar reads and writes it: the
    document, the selection and the pending marks. *)
Record BaseEditor := mkEditor {
  children : list Descendant;
  selection : option Range;
  marks : option Marks
}.

Abbreviation NodeEntry := (Descendant * Path)%type (only parsing).

(* ================================================================== *)
(** * Slate: node predicates and traversal *)
(* ================================================================== *)

Module Text.

Definition isText (n : Descendant) : bool :=
  match n with TextNode _ => true | ElementNode _ _ _ => false end.

End Text.

Module SlateElement.

Definition isElement (n : Descendant) : bool :=
  match n with TextNode _ => false | ElementNode _ _ _ => true end.

End SlateElement.

(** [n.type] and [n.align] of a node; both are undefined on a text. *)
Definition type_of (n : Descendant) : option string :=
  match n with TextNode _ => None | ElementNode t _ _ => Some t end.

Definition align_of (n : Descendant) : option string :=
  match n with TextNode _ => None | ElementNode _ a _ => a end.

Definition children_of (n : Descendant) : list Descendant :=
  match n with TextNode _ => [] | ElementNode _ _ ch => ch end.

Definition option_string_eqb (a b : option string) : bool :=
  match a, b with
  | Some x, Some y => x =? y
  | None, None => true
  | _, _ => false
  end.

Module Node.

(** All the entries of a subtree in document order (a node before its
    children), each with its path. *)
Fixpoint entries_node (p : Path) (n : Descendant) : list NodeEntry :=
  (n, p) ::
  match n with
  | TextNode _ => []
  | ElementNode _ _ ch =>
      (fix go (i : nat) (l : list Descendant) : list NodeEntry :=
         match l with
         | [] => []
         | c :: l' => entries_node (p ++ [i]) c ++ go (S i) l'
         end) 0 ch
  end.

(** The entries of the children [l] of the node at [p], the first of
    which has index [i]. *)
Fixpoint entries_list (p : Path) (i : nat) (l : list Descendant)
  : list NodeEntry :=
  match l with
  | [] => []
  | c :: l' => entries_node (p ++ [i]) c ++ entries_list p (S i) l'
  end.

(** [Node.nodes(root)] without the root itself: the editor object is
    excluded by every match function of the toolbar. *)
Definition nodes (root : list Descendant) : list NodeEntry :=
  entries_list [] 0 root.

(** [Node.get]: the descendant at a path, if the path resolves. *)
Fixpoint get (root : list Descendant) (p : Path) : option Descendant :=
  match p with
  | [] => None
  | [i] => nth_error root i
  | i :: p' =>
      match nth_error root i with
      | Some (ElementNode _ _ ch) => get ch p'
      | _ => None
      end
  end.

(** The texts of the document in document order. *)
Definition texts (root : list Descendant) : list NodeEntry :=
  filter (fun e => Text.isText (fst e)) (nodes root).

End Node.

(** How [Editor.nodes] narrows its matches. *)
Inductive Mode := All | Lowest.

Module Editor.

(** The paths that [Node.nodes(editor, { from, to })] visits: it walks
    down to [from], then forward in document order until it passes
    [to]; these are the paths that are neither before [from] nor
    after [to]. *)
Definition in_span (from to p : Path) : bool :=
  negb (Path.isBefore p from) && negb (Path.isAfter p to).

(** The catch-up loop of mode ['lowest']: a match is emitted once the
    next match is not below it. *)
Fixpoint lowest_from (hit : NodeEntry) (l : list NodeEntry)
  : list NodeEntry :=
  match l with
  | [] => [hit]
  | e :: l' =>
      match Path.compare (snd e) (snd hit) with
      | Eq => lowest_from e l'
      | _ => hit :: lowest_from e l'
      end
  end.

Definition lowest (l : list NodeEntry) : list NodeEntry :=
  match l with
  | [] => []
  | e :: l' => lowest_from e l'
  end.

(** [Editor.nodes(editor, { at, match, mode })] for a range [at];
    nothing is visited when [at] is null. *)
Definition nodes (editor : BaseEditor) (at_ : option Range)
    (match_ : Descendant -> bool) (mode : Mode) : list NodeEntry :=
  match at_ with
  | None => []
  | Some r =>
      let (start, end_) := Range.edges r in
      let matches :=
        filter (fun e => match_ (fst e))
          (filter (fun e => in_span (path start) (path end_) (snd e))
             (Node.nodes (children editor))) in
      match mode with
      | All => matches
      | Lowest => lowest matches
      end
  end.

(** The text of the leaf at a path (empty when the path does not
    resolve to a text). *)
Definition leaf_text (editor : BaseEditor) (p : Path) : string :=
  match Node.get (children editor) p with
  | Some (TextNode t) => text t
  | _ => ""
  end.

(** [Editor.above(editor, { at: point, match: block })]: the path of
    the lowest element above a point, [[]] when its text hangs
    directly below the editor. *)
Definition block_above (p : Path) : Path :=
  match p with
  | _ :: _ :: _ => Path.parent p
  | _ => []
  end.

(** [Editor.unhangRange]: a range that starts at offset 0 and ends at
    offset 0 of the first text of a block does not count that block;
    its end moves back to the end of the nearest earlier text of the
    range that is not empty or lies before the end block.  Any other
    range is returned as it is. *)
Definition unhangRange (editor : BaseEditor) (range : Range) : Range :=
  let (start, end_) := Range.edges range in
  if negb (offset start =? 0)%nat || negb (offset end_ =? 0)%nat
     || Range.isCollapsed range || Path.hasPrevious (path end_)
  then range
  else
    let blockPath := block_above (path end_) in
    let before :=
      rev (filter (fun e => in_span (path start) (path end_) (snd e))
             (Node.texts (children editor))) in
    let found :=
      find (fun e =>
              match fst e with
              | TextNode t =>
                  negb (text t =? "") || Path.isBefore (snd e) blockPath
              | _ => false
              end)
           (tl before) in
    match found with
    | Some (TextNode t, p) =>
        mkRange start (mkPoint p (String.length (text t)))
    | _ => mkRange start end_
    end.

(** [Editor.isEnd(editor, point, point.path)]: the point is at the
    end of its text. *)
Definition isEnd (editor : BaseEditor) (pt : Point) : bool :=
  (offset pt =? String.length (leaf_text editor (path pt)))%nat.

(** The first text after, and the last text before, the node at a
    path. *)
Definition next_text (editor : BaseEditor) (p : Path) : option NodeEntry :=
  find (fun e => Path.isAfter (snd e) p) (Node.texts (children editor)).

Definition previous_text (editor : BaseEditor) (p : Path)
  : option NodeEntry :=
  find (fun e => Path.isBefore (snd e) p)
       (rev (Node.texts (children editor))).

Definition rest (t : CustomText) : Marks :=
  mkMarks (bold t) (italic t) (underline t) (strike t) (code t).

Definition no_marks : Marks := mkMarks None None None None None.

(** [Editor.marks(editor)].  Without a selection there are none; the
    pending marks of the editor win; over an expanded selection they
    are those of the first text of the range, taken from the point
    after the start when the start is at the end of its text (that
    point is the start of the next text); at a collapsed selection
    they are those of the leaf under the cursor, or of the text just
    before it when the cursor is at offset 0 and that text is in the
    same block. *)
Definition marks (editor : BaseEditor) : option Marks :=
  match selection editor with
  | None => None
  | Some sel =>
      match marks editor with
      | Some m => Some m
      | None =>
          if Range.isExpanded sel then
            let (start, end_) := Range.edges sel in
            let anchor' :=
              if isEnd editor start then
                match next_text editor (path start) with
                | Some (_, q) => mkPoint q 0
                | None => start
                end
              else start in
            match nodes editor (Some (mkRange anchor' end_))
                    Text.isText All with
            | (TextNode t, _) :: _ => Some (rest t)
            | _ => Some no_marks
            end
          else
            let p := path (anchor sel) in
            let node :=
              match Node.get (children editor) p with
              | Some (TextNode t) => t
              | _ => plain ""
              end in
            let node' :=
              if (offset (anchor sel) =? 0)%nat then
                match previous_text editor p, p with
                | Some (TextNode prevNode, prevPath), _ :: _ :: _ =>
                    if Path.isAncestor (Path.parent p) prevPath
                    then prevNode else node
                | _, _ => node
                end
              else node in
            Some (rest node')
      end
  end.

End Editor.

(* ================================================================== *)
(** * Slate: setting properties *)
(* ================================================================== *)

(** The property objects the toolbar passes to [Transforms.setNodes]:
    [{ type }], [{ align }] (undefined clears the key) and
    [{ [format]: value }]. *)
Inductive Props :=
| PType (v : string)
| PAlign (v : option string)
| PMark (k : Format) (v : bool).

Definition set_mark (k : Format) (v : option bool) (t : CustomText)
  : CustomText :=
  match k with
  | fmt_bold => mkText (text t) v (italic t) (underline t) (strike t) (code t)
  | fmt_italic => mkText (text t) (bold t) v (underline t) (strike t) (code t)
  | fmt_underline => mkText (text t) (bold t) (italic t) v (strike t) (code t)
  | fmt_strike => mkText (text t) (bold t) (italic t) (underline t) v (code t)
  | fmt_code => mkText (text t) (bold t) (italic t) (underline t) (strike t) v
  end.

Definition get_mark (k : Format) (t : CustomText) : option bool :=
  match k with
  | fmt_bold => bold t
  | fmt_italic => italic t
  | fmt_underline => underline t
  | fmt_strike => strike t
  | fmt_code => code t
  end.

(** The operation [set_node]: the keys of the property object replace
    those of the node.  The toolbar sets [type] and [align] on elements
    and marks on texts only. *)
Definition set_node (props : Props) (n : Descendant) : Descendant :=
  match props, n with
  | PType v, ElementNode _ a ch => ElementNode v a ch
  | PAlign v, ElementNode t _ ch => ElementNode t v ch
  | PMark k v, TextNode t => TextNode (set_mark k (Some v) t)
  | _, _ => n
  end.

Definition path_in (p : Path) (l : list Path) : bool :=
  existsb (Path.equals p) l.

(** Apply [f] to the nodes at the paths [targets] of the subtree [n]
    that sits at path [p]. *)
Fixpoint update_node (targets : list Path) (f : Descendant -> Descendant)
    (p : Path) (n : Descendant) : Descendant :=
  let n' :=
    match n with
    | TextNode _ => n
    | ElementNode t a ch =>
        ElementNode t a
          ((fix go (i : nat) (l : list Descendant) : list Descendant :=
              match l with
              | [] => []
              | c :: l' => update_node targets f (p ++ [i]) c :: go (S i) l'
              end) 0 ch)
    end in
  if path_in p targets then f n' else n'.

Fixpoint update_list (targets : list Path) (f : Descendant -> Descendant)
    (p : Path) (i : nat) (l : list Descendant) : list Descendant :=
  match l with
  | [] => []
  | c :: l' =>
      update_node targets f (p ++ [i]) c :: update_list targets f p (S i) l'
  end.

Module Transforms.

(** Rewrite the list of children of the node at a path ([[]] is the
    editor itself). *)
Fixpoint update_children_at (p : Path)
    (f : list Descendant -> list Descendant) (l : list Descendant)
  : list Descendant :=
  match p with
  | [] => f l
  | i :: p' =>
      firstn i l ++
      match skipn i l with
      | ElementNode t a ch :: l' =>
          ElementNode t a (update_children_at p' f ch) :: l'
      | l' => l'
      end
  end.

(** [text.slice(0, n)] and [text.slice(n)]. *)
Fixpoint str_take (n : nat) (s : string) : string :=
  match n, s with
  | S n', String c s' => String c (str_take n' s')
  | _, _ => ""
  end.

Fixpoint str_drop (n : nat) (s : string) : string :=
  match n, s with
  | S n', String _ s' => str_drop n' s'
  | _, _ => s
  end.

(** A leaf with another text and the same marks. *)
Definition with_text (s : string) (t : CustomText) : CustomText :=
  mkText s (bold t) (italic t) (underline t) (strike t) (code t).

(** The operation [split_node] on the text number [i] of a list of
    children, at [position]: the text up to the position stays, the
    rest follows it in a new leaf with the same marks. *)
Definition split_child (i position : nat) (ch : list Descendant)
  : list Descendant :=
  match nth_error ch i with
  | Some (TextNode t) =>
      firstn i ch
      ++ [TextNode (with_text (str_take position (text t)) t);
          TextNode (with_text (str_drop position (text t)) t)]
      ++ skipn (S i) ch
  | _ => ch
  end.

(** [Transforms.splitNodes(editor, { at: point, match, always })] for a
    match on texts: the text under the point is split at the offset of
    the point, unless the point is at an edge of the text and [always]
    is off.  The result is the new document, if there was a split. *)
Definition split_text (ch : list Descendant) (pt : Point) (always : bool)
  : option (list Descendant) :=
  match Node.get ch (path pt) with
  | Some (TextNode t) =>
      let isEdge :=
        (offset pt =? 0)%nat || (offset pt =? String.length (text t))%nat in
      if always || negb isEdge then
        Some (update_children_at (Path.parent (path pt))
                (split_child (last (path pt) 0) (offset pt)) ch)
      else None
  | _ => None
  end.

(** [Point.transform(point, op, { affinity })] for the [split_node] of
    the text at [q]: a point of that text after the position (at the
    position, with the affinity forward) moves into the new leaf; the
    texts after it in the block are shifted by one. *)
Definition split_point (q : Path) (position : nat) (forward : bool)
    (pt : Point) : Point :=
  if Path.equals q (path pt) then
    if (position <? offset pt)%nat
       || ((position =? offset pt)%nat && forward)
    then mkPoint (Path.next q) (offset pt - position)
    else pt
  else if Path.endsBefore q (path pt)
  then mkPoint (Path.bump (List.length q - 1) (path pt)) (offset pt)
  else pt.

(** [Range.transform] with the affinity [inward], that of the range
    reference that [setNodes] keeps while it splits: the start of the
    range moves forward and its end backward, so that the range ends up
    covering whole leaves. *)
Definition split_range (q : Path) (position : nat) (r : Range) : Range :=
  let forward := negb (Range.isBackward r) in
  let affinityAnchor := forward in
  let affinityFocus :=
    if Range.isCollapsed r then affinityAnchor else negb forward in
  mkRange (split_point q position affinityAnchor (anchor r))
          (split_point q position affinityFocus (focus r)).

(** The selection of the editor under the same operation: both points
    with the default affinity, forward. *)
Definition split_selection (q : Path) (position : nat) (r : Range) : Range :=
  mkRange (split_point q position true (anchor r))
          (split_point q position true (focus r)).

(** [Text.equals(t, another, { loose: true })]: the same marks. *)
Definition option_bool_eqb (a b : option bool) : bool :=
  match a, b with
  | Some x, Some y => Bool.eqb x y
  | None, None => true
  | _, _ => false
  end.

Definition marks_eqb (t another : CustomText) : bool :=
  option_bool_eqb (bold t) (bold another)
  && option_bool_eqb (italic t) (italic another)
  && option_bool_eqb (underline t) (underline another)
  && option_bool_eqb (strike t) (strike another)
  && option_bool_eqb (code t) (code another).

Definition text_length (n : option Descendant) : nat :=
  match n with
  | Some (TextNode t) => String.length (text t)
  | _ => 0
  end.

(** One step of the loop of [normalizeNode] over the children of a
    block: [done] are the children as the steps before have left them,
    [c] is the next child, and [(j, off)] is a point of the block,
    given by the index of its text among the current children and its
    offset.  A text that matches the text before it is merged into it
    (the operation [merge_node]; [mergeNodes] removes the text before
    instead when that is empty and not the first child); otherwise an
    empty text before it is removed, otherwise the text itself when it
    is empty.  A point of a merged text moves into the text before,
    and a point of a removed text to the end of the text before it, or
    to the start of the text after it when it was the first child. *)
Definition norm_step (st : list Descendant * (nat * nat)) (c : Descendant)
  : list Descendant * (nat * nat) :=
  let '(done, (j, off)) := st in
  let n := List.length done in
  let after_removal_of_previous :=
    if (j =? n - 1)%nat then
      if (n - 1 =? 0)%nat then (0, 0)
      else (n - 2, text_length (nth_error done (n - 2)))
    else if (n - 1 <? j)%nat then (j - 1, off)
    else (j, off) in
  match c, nth_error done (n - 1) with
  | TextNode tc, Some (TextNode tp) =>
      if (0 <? n)%nat then
        if marks_eqb tc tp then
          if (text tp =? "") && negb (n - 1 =? 0)%nat then
            (removelast done ++ [c], after_removal_of_previous)
          else
            (removelast done
             ++ [TextNode (with_text (text tp ++ text tc) tp)],
             if (j =? n)%nat then (n - 1, off + String.length (text tp))
             else if (n <? j)%nat then (j - 1, off)
             else (j, off))
        else if text tp =? "" then
          (removelast done ++ [c], after_removal_of_previous)
        else if text tc =? "" then
          (done,
           if (j =? n)%nat then (n - 1, String.length (text tp))
           else if (n <? j)%nat then (j - 1, off)
           else (j, off))
        else (done ++ [c], (j, off))
      else (done ++ [c], (j, off))
  | _, _ => (done ++ [c], (j, off))
  end.

(** The children of a block after the loop, and where the loop leaves
    a point of the block. *)
Definition normalize_children (ch : list Descendant) : list Descendant :=
  fst (fold_left norm_step ch ([], (0, 0))).

Definition normalize_index (ch : list Descendant) (pt : nat * nat)
  : nat * nat :=
  snd (fold_left norm_step ch ([], pt)).

Definition normalize_point (block : Path) (ch : list Descendant)
    (pt : Point) : Point :=
  match rev (path pt) with
  | j :: _ =>
      if Path.equals (Path.parent (path pt)) block then
        let (j', off') := normalize_index ch (j, offset pt) in
        mkPoint (block ++ [j']) off'
      else pt
  | [] => pt
  end.

(** One pass of [normalizeNode] over the element at a path, a block of
    texts. *)
Definition normalize_block (editor : BaseEditor) (block : Path)
  : BaseEditor :=
  match Node.get (children editor) block with
  | Some (ElementNode _ _ ch) =>
      mkEditor
        (update_children_at block normalize_children (children editor))
        (match selection editor with
         | Some r =>
             Some (mkRange (normalize_point block ch (anchor r))
                           (normalize_point block ch (focus r)))
         | None => None
         end)
        (marks editor)
  | _ => editor
  end.

(** [Editor.normalize]: a block that an operation has touched is
    normalised until a pass changes nothing.  A pass that changes the
    block takes a child away, so one pass for each child is enough. *)
Definition normalize (editor : BaseEditor) (dirty : list Path)
  : BaseEditor :=
  fold_left
    (fun e block =>
       Nat.iter
         (match Node.get (children e) block with
          | Some n => List.length (children_of n)
          | None => 0
          end)
         (fun e' => normalize_block e' block) e)
    (nodup (list_eq_dec Nat.eq_dec) dirty) editor.

(** Whether the properties differ from those of the node: [setNodes]
    applies the operation [set_node] only where they do. *)
Definition changes (props : Props) (n : Descendant) : bool :=
  match props, n with
  | PType v, ElementNode t _ _ => negb (t =? v)
  | PAlign v, ElementNode _ a _ => negb (option_string_eqb a v)
  | PMark k v, TextNode t => negb (option_bool_eqb (get_mark k t) (Some v))
  | _, _ => false
  end.

(** [Transforms.setNodes(editor, props, { match, split: true })] for a
    match on texts, after the range [at_] has been unhung.  Nothing
    happens when the range is collapsed in a text that is not empty.
    Otherwise the text under the end of the range is split there,
    unless the end is at the end of its text, then the text under the
    start, unless the start is at the start of its text; the range,
    which now covers whole leaves, is selected, and a changed
    selection drops the pending marks; every text of the range
    receives the properties; at last the blocks of the texts that were
    split or changed are normalised, which merges neighbouring leaves
    with the same marks and removes empty leaves, and moves the
    selection along.  The blocks are those of the documents of this
    editor: their children are texts only. *)
Definition set_split (editor : BaseEditor) (props : Props)
    (match_ : Descendant -> bool) (sel at_ : Range) : BaseEditor :=
  if Range.isCollapsed at_
     && negb (Editor.leaf_text editor (path (anchor at_)) =? "")
  then editor
  else
    let (start, end_) := Range.edges at_ in
    let endAtEndOfNode := Editor.isEnd editor end_ in
    let '(ch1, at1, sel1, dirty1) :=
      match split_text (children editor) end_ (negb endAtEndOfNode) with
      | Some ch =>
          (ch, split_range (path end_) (offset end_) at_,
           split_selection (path end_) (offset end_) sel,
           [Path.parent (path end_)])
      | None => (children editor, at_, sel, [])
      end in
    let startAtStartOfNode := (offset start =? 0)%nat in
    let '(ch2, at2, sel2, dirty2) :=
      match split_text ch1 start (negb startAtStartOfNode) with
      | Some ch =>
          (ch, split_range (path start) (offset start) at1,
           split_selection (path start) (offset start) sel1,
           Path.parent (path start) :: dirty1)
      | None => (ch1, at1, sel1, dirty1)
      end in
    let marks' := if Range.equals at2 sel2 then marks editor else None in
    let targets :=
      Editor.nodes (mkEditor ch2 (Some at2) marks') (Some at2)
        match_ Lowest in
    let changed := filter (fun x => changes props (fst x)) targets in
    let ch3 := update_list (map snd targets) (set_node props) [] 0 ch2 in
    normalize (mkEditor ch3 (Some at2) marks')
      (dirty2 ++ map (fun x => Path.parent (snd x)) changed).

(** [Transforms.setNodes(editor, props, { match, split })] at the
    selection.  Nothing happens without a selection.  The range is
    unhung first; the default match is the blocks (every element, the
    editor declares no inline elements).  Without [split] each lowest
    match in the range receives the properties, and the selection and
    the pending marks stay; with [split], see [set_split]. *)
Definition setNodes (editor : BaseEditor) (props : Props)
    (match_ : option (Descendant -> bool)) (split : bool) : BaseEditor :=
  match selection editor with
  | None => editor
  | Some sel =>
      let match' :=
        match match_ with
        | Some m => m
        | None => SlateElement.isElement
        end in
      let at_ := Editor.unhangRange editor sel in
      if split then set_split editor props match' sel at_
      else
        let targets :=
          map snd (Editor.nodes editor (Some at_) match' Lowest) in
        mkEditor
          (update_list targets (set_node props) [] 0 (children editor))
          (selection editor) (marks editor)
  end.

(** The lift of the children of one list container that lie in the
    span: the children before the span, those in it and those after
    it. *)
Fixpoint lift_split (from to p : Path) (i : nat) (ch : list Descendant)
  : list Descendant * list Descendant * list Descendant :=
  match ch with
  | [] => ([], [], [])
  | c :: ch' =>
      let '(pre, mid, post) := lift_split from to p (S i) ch' in
      if Path.isBefore (p ++ [i]) from then (c :: pre, mid, post)
      else if Path.isAfter (p ++ [i]) to then (pre, mid, c :: post)
      else (pre, c :: mid, post)
  end.

(** What is left of a split container on one side of the lifted
    children: nothing when it has no child there. *)
Definition remainder (t : string) (a : option string)
    (ch : list Descendant) : list Descendant :=
  match ch with
  | [] => []
  | _ :: _ => [ElementNode t a ch]
  end.

(** Replace each container at one of the paths [targets] by its
    children.  With [split] only the children in the span leave the
    container, which is split around them and keeps the others. *)
Fixpoint unwrap_node (targets : list Path) (split : bool)
    (from to : Path) (p : Path) (n : Descendant) : list Descendant :=
  match n with
  | TextNode _ => [n]
  | ElementNode t a ch =>
      if path_in p targets then
        if split then
          let '(pre, mid, post) := lift_split from to p 0 ch in
          match mid with
          | [] => [n]
          | _ :: _ => remainder t a pre ++ mid ++ remainder t a post
          end
        else
          match ch with
          | [] => [n]
          | _ :: _ => ch
          end
      else
        [ElementNode t a
           ((fix go (i : nat) (l : list Descendant) : list Descendant :=
               match l with
               | [] => []
               | c :: l' =>
                   unwrap_node targets split from to (p ++ [i]) c
                   ++ go (S i) l'
               end) 0 ch)]
  end.

Fixpoint unwrap_list (targets : list Path) (split : bool)
    (from to : Path) (p : Path) (i : nat) (l : list Descendant)
  : list Descendant :=
  match l with
  | [] => []
  | c :: l' =>
      unwrap_node targets split from to (p ++ [i]) c
      ++ unwrap_list targets split from to p (S i) l'
  end.

(** The position of the text at a path among the texts of a
    document, and the path of the text at a position. *)
Fixpoint index_of (p : Path) (l : list Path) : option nat :=
  match l with
  | [] => None
  | q :: l' =>
      if Path.equals p q then Some 0
      else option_map S (index_of p l')
  end.

(** Slate rewrites the points of the selection as nodes are moved,
    inserted or split.  Wrapping and unwrapping keep every text and
    the order of the texts, so a point stays in its text, at its
    offset, and only the path of that text changes. *)
Definition follow_point (old new : list Descendant) (pt : Point) : Point :=
  match index_of (path pt) (map snd (Node.texts old)) with
  | Some k =>
      match nth_error (map snd (Node.texts new)) k with
      | Some q => mkPoint q (offset pt)
      | None => pt
      end
  | None => pt
  end.

Definition follow_range (old new : list Descendant) (r : Range) : Range :=
  mkRange (follow_point old new (anchor r)) (follow_point old new (focus r)).

(** [Transforms.unwrapNodes(editor, { match, split })] at the
    selection: every lowest match in the range is replaced by its
    children (by those in the range, with [split]). *)
Definition unwrapNodes (editor : BaseEditor)
    (match_ : Descendant -> bool) (split : bool) : BaseEditor :=
  match selection editor with
  | None => editor
  | Some sel =>
      let (start, end_) := Range.edges sel in
      let targets :=
        map snd (Editor.nodes editor (Some sel) match_ Lowest) in
      let children' :=
        unwrap_list targets split (path start) (path end_) [] 0
          (children editor) in
      mkEditor children'
        (Some (follow_range (children editor) children' sel))
        (marks editor)
  end.

(** [Path.common]: the longest common prefix. *)
Fixpoint common (p another : Path) : Path :=
  match p, another with
  | i :: p', j :: another' =>
      if (i =? j)%nat then i :: common p' another' else []
  | _, _ => []
  end.

(** [Transforms.wrapNodes(editor, { type, children: [] })] at the
    selection: the lowest blocks of the range are found; below their
    common ancestor, the children from the one holding the first
    block to the one holding the last become the children of a new
    element of the given type, which takes their place. *)
Definition wrapNodes (editor : BaseEditor) (type : string) : BaseEditor :=
  match selection editor with
  | None => editor
  | Some sel =>
      match Editor.nodes editor (Some sel) SlateElement.isElement Lowest with
      | [] => editor
      | (first :: _) as matches =>
          let firstPath := snd first in
          let lastPath := snd (last matches first) in
          let commonPath :=
            if Path.equals firstPath lastPath then Path.parent firstPath
            else common firstPath lastPath in
          let depth := List.length commonPath in
          let k := nth depth firstPath 0 in
          let l := nth depth lastPath 0 in
          let children' :=
            update_children_at commonPath
              (fun ch =>
                 firstn k ch
                 ++ [ElementNode type None (firstn (S l - k) (skipn k ch))]
                 ++ skipn (S l) ch)
              (children editor) in
          mkEditor children'
            (Some (follow_range (children editor) children' sel))
            (marks editor)
      end
  end.

End Transforms.

(* ================================================================== *)
(** * The toolbar: queries and alignment *)
(* ================================================================== *)

(** [isBlockActive(editor, format)]. *)
Definition isBlockActive (editor : BaseEditor) (format : string) : bool :=
  match selection editor with
  | None => false
  | Some sel =>
      match Editor.nodes editor (Some (Editor.unhangRange editor sel))
              (fun n => SlateElement.isElement n
                        && option_string_eqb (type_of n) (Some format))
              All with
      | [] => false
      | _match :: _ => true
      end
  end.

(** [getCurrentHeading()]. *)
Definition getCurrentHeading (editor : BaseEditor) : string :=
  if isBlockActive editor "heading-one" then "H1"
  else if isBlockActive editor "heading-two" then "H2"
  else if isBlockActive editor "heading-three" then "H3"
  else "Normal".

(** [isAlignActive(alignment)]: [Editor.nodes] without [at] visits the
    selection as it is. *)
Definition isAlignActive (editor : BaseEditor) (alignment : string) : bool :=
  match Editor.nodes editor (selection editor)
          (fun n => SlateElement.isElement n
                    && option_string_eqb (align_of n) (Some alignment))
          All with
  | [] => false
  | _ :: _ => true
  end.

(** [toggleAlign(alignment)]. *)
Definition toggleAlign (editor : BaseEditor) (alignment : string)
  : BaseEditor :=
  Transforms.setNodes editor
    (PAlign (if isAlignActive editor alignment then None else Some alignment))
    None false.


(* ================================================================== *)
(** * The toolbar: marks and block types *)
(* ================================================================== *)

Definition marks_get (m : Marks) (k : Format) : option bool :=
  match k with
  | fmt_bold => mk_bold m
  | fmt_italic => mk_italic m
  | fmt_underline => mk_underline m
  | fmt_strike => mk_strike m
  | fmt_code => mk_code m
  end.

Definition marks_set (m : Marks) (k : Format) (v : option bool) : Marks :=
  match k with
  | fmt_bold => mkMarks v (mk_italic m) (mk_underline m) (mk_strike m) (mk_code m)
  | fmt_italic => mkMarks (mk_bold m) v (mk_underline m) (mk_strike m) (mk_code m)
  | fmt_underline => mkMarks (mk_bold m) (mk_italic m) v (mk_strike m) (mk_code m)
  | fmt_strike => mkMarks (mk_bold m) (mk_italic m) (mk_underline m) v (mk_code m)
  | fmt_code => mkMarks (mk_bold m) (mk_italic m) (mk_underline m) (mk_strike m) v
  end.

(** [Editor.addMark(editor, key, value)], which forwards to the
    editor's own [addMark]: over an expanded selection the mark is set
    on the texts of the range, splitting at its edges; at a collapsed
    selection it only joins the pending marks of the editor. *)
Definition editor_addMark (editor : BaseEditor) (key : Format) (value : bool)
  : BaseEditor :=
  match selection editor with
  | None => editor
  | Some sel =>
      if Range.isExpanded sel then
        Transforms.setNodes editor (PMark key value) (Some Text.isText) true
      else
        let marks' :=
          match Editor.marks editor with
          | Some m => m
          | None => Editor.no_marks
          end in
        mkEditor (children editor) (selection editor)
          (Some (marks_set marks' key (Some value)))
  end.

(** [isFormatActive(editor, format)]. *)
Definition isFormatActive (editor : BaseEditor) (format : Format) : bool :=
  match Editor.marks editor with
  | Some m => truthy_bool (marks_get m format)
  | None => false
  end.

(** [toggleFormat(format)]. *)
Definition toggleFormat (editor : BaseEditor) (format : Format)
  : BaseEditor :=
  let isActive := isFormatActive editor format in
  editor_addMark editor format (negb isActive).

(** [['bulleted-list', 'numbered-list'].includes(t)]. *)
Definition isListType (t : string) : bool :=
  (t =? "bulleted-list") || (t =? "numbered-list").

(** [toggleBlock(format)]. *)
Definition toggleBlock (editor : BaseEditor) (format : string)
  : BaseEditor :=
  let isActive := isBlockActive editor format in
  let isList := isListType format in
  let editor1 :=
    Transforms.unwrapNodes editor
      (fun n => SlateElement.isElement n
                && match type_of n with
                   | Some t => isListType t
                   | None => false
                   end)
      true in
  let newProperties :=
    PType (if isActive then "paragraph"
           else if isList then "list-item" else format) in
  let editor2 := Transforms.setNodes editor1 newProperties None false in
  if negb isActive && isList
  then Transforms.wrapNodes editor2 format
  else editor2.


(* ================================================================== *)
(** * Hydration of the persisted document ([page.tsx]) *)
(* ================================================================== *)

(** The values [JSON.parse] produces.  A number keeps its lexeme. *)
Unset Elimination Schemes.
Inductive JSValue :=
| JNull
| JBool (b : bool)
| JNumber (lexeme : string)
| JString (s : string)
| JArray (items : list JSValue)
| JObject (members : list (string * JSValue)).
Set Elimination Schemes.

(** The outcome of a statement that may throw. *)
Inductive Completion (A : Type) :=
| Return (v : A)
| Throw (error : string).
Arguments Return {A}.
Arguments Throw {A}.

(** The built-in [JSON.parse], over the JSON grammar: white space,
    the three literals, numbers, strings with their escapes, arrays and
    objects.  [\uXXXX] is kept as the UTF-8 bytes of the code unit. *)
Module JSON.

Definition is_ws (c : ascii) : bool :=
  let n := nat_of_ascii c in
  (n =? 32)%nat || (n =? 9)%nat || (n =? 10)%nat || (n =? 13)%nat.

Fixpoint skip_ws (cs : list ascii) : list ascii :=
  match cs with
  | c :: cs' => if is_ws c then skip_ws cs' else cs
  | [] => []
  end.

Definition is_digit (c : ascii) : bool :=
  let n := nat_of_ascii c in (48 <=? n)%nat && (n <=? 57)%nat.

Fixpoint digits (cs : list ascii) : list ascii * list ascii :=
  match cs with
  | c :: cs' =>
      if is_digit c
      then let (d, r) := digits cs' in (c :: d, r)
      else ([], cs)
  | [] => ([], [])
  end.

Definition hex_value (c : ascii) : option nat :=
  let n := nat_of_ascii c in
  if (48 <=? n)%nat && (n <=? 57)%nat then Some (n - 48)
  else if (65 <=? n)%nat && (n <=? 70)%nat then Some (n - 55)
  else if (97 <=? n)%nat && (n <=? 102)%nat then Some (n - 87)
  else None.

Definition utf8 (u : nat) : list ascii :=
  if (u <? 128)%nat then [ascii_of_nat u]
  else if (u <? 2048)%nat then
    [ascii_of_nat (192 + u / 64); ascii_of_nat (128 + u mod 64)]
  else
    [ascii_of_nat (224 + u / 4096);
     ascii_of_nat (128 + (u / 64) mod 64);
     ascii_of_nat (128 + u mod 64)].

(** The quote and the backslash. *)
Definition quote : ascii := ascii_of_nat 34.
Definition backslash : ascii := ascii_of_nat 92.

(** The character an escape letter stands for. *)
Definition unescape (e : ascii) : option ascii :=
  if Ascii.eqb e quote then Some quote
  else if Ascii.eqb e backslash then Some backslash
  else match e with
       | "/"%char => Some "/"%char
       | "b"%char => Some (ascii_of_nat 8)
       | "f"%char => Some (ascii_of_nat 12)
       | "n"%char => Some (ascii_of_nat 10)
       | "r"%char => Some (ascii_of_nat 13)
       | "t"%char => Some (ascii_of_nat 9)
       | _ => None
       end.

(** The characters of a string after its opening quote, up to the
    closing one. *)
Fixpoint string_body (cs : list ascii) : option (list ascii * list ascii) :=
  match cs with
  | [] => None
  | c :: r =>
      if Ascii.eqb c quote then Some ([], r)
      else if Ascii.eqb c backslash then
        match r with
        | "u"%char :: a :: b :: c :: d :: r' =>
            match hex_value a, hex_value b, hex_value c, hex_value d,
                  string_body r' with
            | Some x, Some y, Some z, Some w, Some (s, r'') =>
                Some (utf8 (x * 4096 + y * 256 + z * 16 + w) ++ s, r'')
            | _, _, _, _, _ => None
            end
        | e :: r' =>
            match unescape e, string_body r' with
            | Some c', Some (s, r'') => Some (c' :: s, r'')
            | _, _ => None
            end
        | [] => None
        end
      else if (nat_of_ascii c <? 32)%nat then None
      else
        match string_body r with
        | Some (s, r') => Some (c :: s, r')
        | None => None
        end
  end.

(** A number: [-]? int frac? exp?. *)
Definition number (cs : list ascii) : option (list ascii * list ascii) :=
  let (sign, r0) :=
    match cs with
    | "-"%char :: r => (["-"%char], r)
    | _ => ([], cs)
    end in
  let (int, r1) := digits r0 in
  match int with
  | [] => None
  | d :: ds =>
      if (nat_of_ascii d =? 48)%nat && negb (List.length ds =? 0)%nat
      then None
      else
        let frac :=
          match r1 with
          | "."%char :: r =>
              let (f, r') := digits r in
              match f with
              | [] => None
              | _ :: _ => Some ("."%char :: f, r')
              end
          | _ => Some ([], r1)
          end in
        match frac with
        | None => None
        | Some (f, r2) =>
            let exp :=
              match r2 with
              | e :: r =>
                  if ((nat_of_ascii e =? 101) || (nat_of_ascii e =? 69))%nat
                  then
                    let (sg, r') :=
                      match r with
                      | "+"%char :: r' => (["+"%char], r')
                      | "-"%char :: r' => (["-"%char], r')
                      | _ => ([], r)
                      end in
                    let (x, r'') := digits r' in
                    match x with
                    | [] => None
                    | _ :: _ => Some (e :: sg ++ x, r'')
                    end
                  else Some ([], r2)
              | [] => Some ([], r2)
              end in
            match exp with
            | None => None
            | Some (x, r3) => Some (sign ++ int ++ f ++ x, r3)
            end
        end
  end.

Fixpoint value (fuel : nat) (cs : list ascii)
  : option (JSValue * list ascii) :=
  match fuel with
  | O => None
  | S fuel' =>
      match skip_ws cs with
      | "n"%char :: "u"%char :: "l"%char :: "l"%char :: r =>
          Some (JNull, r)
      | "t"%char :: "r"%char :: "u"%char :: "e"%char :: r =>
          Some (JBool true, r)
      | "f"%char :: "a"%char :: "l"%char :: "s"%char :: "e"%char :: r =>
          Some (JBool false, r)
      | "["%char :: r =>
          match skip_ws r with
          | "]"%char :: r' => Some (JArray [], r')
          | _ =>
              match elements fuel' r with
              | Some (l, r') => Some (JArray l, r')
              | None => None
              end
          end
      | "{"%char :: r =>
          match skip_ws r with
          | "}"%char :: r' => Some (JObject [], r')
          | _ =>
              match members fuel' r with
              | Some (l, r') => Some (JObject l, r')
              | None => None
              end
          end
      | c :: r =>
          if Ascii.eqb c quote then
            match string_body r with
            | Some (s, r') => Some (JString (string_of_list_ascii s), r')
            | None => None
            end
          else
            match number (c :: r) with
            | Some (n, r') => Some (JNumber (string_of_list_ascii n), r')
            | None => None
            end
      | [] => None
      end
  end
with elements (fuel : nat) (cs : list ascii)
  : option (list JSValue * list ascii) :=
  match fuel with
  | O => None
  | S fuel' =>
      match value fuel' cs with
      | Some (v, r) =>
          match skip_ws r with
          | ","%char :: r' =>
              match elements fuel' r' with
              | Some (l, r'') => Some (v :: l, r'')
              | None => None
              end
          | "]"%char :: r' => Some ([v], r')
          | _ => None
          end
      | None => None
      end
  end
with members (fuel : nat) (cs : list ascii)
  : option (list (string * JSValue) * list ascii) :=
  match fuel with
  | O => None
  | S fuel' =>
      match skip_ws cs with
      | c :: r =>
          if Ascii.eqb c quote then
            match string_body r with
            | Some (k, r1) =>
                match skip_ws r1 with
                | ":"%char :: r2 =>
                    match value fuel' r2 with
                    | Some (v, r3) =>
                        match skip_ws r3 with
                        | ","%char :: r4 =>
                            match members fuel' r4 with
                            | Some (l, r5) =>
                                Some ((string_of_list_ascii k, v) :: l, r5)
                            | None => None
                            end
                        | "}"%char :: r4 =>
                            Some ([(string_of_list_ascii k, v)], r4)
                        | _ => None
                        end
                    | None => None
                    end
                | _ => None
                end
            | None => None
            end
          else None
      | [] => None
      end
  end.

(** [JSON.parse(text)]: one value, white space around it, nothing
    else; anything else is a [SyntaxError].  Every call into the
    grammar consumes a character within two steps, so twice the
    length of the text is fuel enough. *)
Definition parse (text : string) : Completion JSValue :=
  let cs := list_ascii_of_string text in
  match value (2 * List.length cs + 2) cs with
  | Some (v, r) =>
      match skip_ws r with
      | [] => Return v
      | _ :: _ => Throw "SyntaxError"
      end
  | None => Throw "SyntaxError"
  end.

End JSON.

(** The JSON form of a document, as [JSON.stringify] writes it and
    [JSON.parse] reads it back. *)
Definition mark_member (k : string) (v : option bool)
  : list (string * JSValue) :=
  match v with
  | Some b => [(k, JBool b)]
  | None => []
  end.

Fixpoint toJSON (n : Descendant) : JSValue :=
  match n with
  | TextNode t =>
      JObject ([("text", JString (text t))]
               ++ mark_member "bold" (bold t)
               ++ mark_member "italic" (italic t)
               ++ mark_member "underline" (underline t)
               ++ mark_member "strike" (strike t)
               ++ mark_member "code" (code t))
  | ElementNode type align ch =>
      JObject ([("type", JString type)]
               ++ match align with
                  | Some a => [("align", JString a)]
                  | None => []
                  end
               ++ [("children", JArray (map toJSON ch))])
  end.

Definition documentJSON (d : list Descendant) : JSValue :=
  JArray (map toJSON d).

(** [localStorage]: [getItem] gives the stored text of a key or null. *)
Definition Storage := string -> option string.

(** The state of [Home] the effect writes: [value], which
    [useState(defaultValue)] initialises. *)
Definition initialValue : JSValue := documentJSON defaultValue.

(** The hydration effect of [Home]:
    [const savedContent = localStorage.getItem('journal-content');
     if (savedContent) { setValue(JSON.parse(savedContent)); }].
    The result is [value] after the effect, or the exception that
    leaves it. *)
Definition hydrate (localStorage : Storage) (value : JSValue)
  : Completion JSValue :=
  let savedContent := localStorage "journal-content" in
  if truthy_string savedContent then
    match savedContent with
    | Some s =>
        match JSON.parse s with
        | Return parsed => Return parsed
        | Throw e => Throw e
        end
    | None => Return value
    end
  else Return value.

(* ================================================================== *)
(** * Persisting the document ([page.tsx], [handleChange]) *)
(* ================================================================== *)

(** The built-in [JSON.stringify] on the values of a document: no white
    space is written; in a string the quote, the backslash and the
    control characters are escaped, the others are written as they are.
    A number is written as its lexeme (a document holds none). *)
Definition hex_digit (n : nat) : ascii :=
  ascii_of_nat (if (n <? 10)%nat then 48 + n else 87 + n).

Definition quote_char (c : ascii) : list ascii :=
  let n := nat_of_ascii c in
  if Ascii.eqb c JSON.quote then [JSON.backslash; JSON.quote]
  else if Ascii.eqb c JSON.backslash then [JSON.backslash; JSON.backslash]
  else if (n =? 8)%nat then [JSON.backslash; "b"%char]
  else if (n =? 9)%nat then [JSON.backslash; "t"%char]
  else if (n =? 10)%nat then [JSON.backslash; "n"%char]
  else if (n =? 12)%nat then [JSON.backslash; "f"%char]
  else if (n =? 13)%nat then [JSON.backslash; "r"%char]
  else if (n <? 32)%nat then
    [JSON.backslash; "u"%char; "0"%char; "0"%char;
     hex_digit (n / 16); hex_digit (n mod 16)]
  else [c].

Definition quoteJSONString (s : string) : list ascii :=
  JSON.quote :: flat_map quote_char (list_ascii_of_string s) ++ [JSON.quote].

(** The items of an array or the members of an object, with commas
    between them. *)
Fixpoint commas (l : list (list ascii)) : list ascii :=
  match l with
  | [] => []
  | [x] => x
  | x :: l' => x ++ ","%char :: commas l'
  end.

Fixpoint stringify_value (j : JSValue) : list ascii :=
  match j with
  | JNull => list_ascii_of_string "null"
  | JBool true => list_ascii_of_string "true"
  | JBool false => list_ascii_of_string "false"
  | JNumber lexeme => list_ascii_of_string lexeme
  | JString s => quoteJSONString s
  | JArray items =>
      "["%char :: commas (map stringify_value items) ++ ["]"%char]
  | JObject members =>
      "{"%char ::
      commas (map (fun kv =>
                     let '(k, v) := kv in
                     quoteJSONString k ++ ":"%char :: stringify_value v)
                members)
      ++ ["}"%char]
  end.

Definition JSON_stringify (j : JSValue) : string :=
  string_of_list_ascii (stringify_value j).

(** [localStorage.setItem(key, text)]. *)
Definition setItem (localStorage : Storage) (key text : string) : Storage :=
  fun k => if k =? key then Some text else localStorage k.

(** [handleChange(newValue)]:
    [setValue(newValue);
     localStorage.setItem('journal-content', JSON.stringify(newValue))].
    The result is the new [value] and the new storage. *)
Definition handleChange (newValue : JSValue) (localStorage : Storage)
  : JSValue * Storage :=
  (newValue,
   setItem localStorage "journal-content" (JSON_stringify newValue)).

(* ================================================================== *)
(** * The chat panel: the plain text of the document ([Chat.tsx]) *)
(* ================================================================== *)

(** The callback of [nodes.map(...)] in [getPlainText]: a node with
    [children] gives the plain text of its children, any other node its
    [text]. *)
Fixpoint plainTextOf (node : Descendant) : string :=
  match node with
  | ElementNode _ _ ch => String.concat "" (map plainTextOf ch)
  | TextNode t => text t
  end.

(** [getPlainText(nodes)]: [nodes.map(...).join('')]. *)
Definition getPlainText (nodes : list Descendant) : string :=
  String.concat "" (map plainTextOf nodes).

(* ================================================================== *)
(** * Rendering ([page.tsx]: [Leaf] and [Element]) *)
(* ================================================================== *)

(** The attributes that slate-react hands to a renderer, to be spread
    into the element it returns. *)
Definition Attributes := list (string * string).

(** What a renderer returns: the [children] it was given, or an element
    with its tag, the attributes spread into it, its class name and its
    child. *)
Inductive ReactNode :=
| Given (k : nat)
| Jsx (tag : string) (attributes : option Attributes)
      (className : option string) (child : ReactNode).

(** [Leaf({ attributes, children, leaf })]. *)
Definition Leaf (attributes : Attributes) (children : ReactNode)
    (leaf : CustomText) : ReactNode :=
  let children :=
    if truthy_bool (bold leaf) then Jsx "strong" None None children
    else children in
  let children :=
    if truthy_bool (italic leaf) then Jsx "em" None None children
    else children in
  let children :=
    if truthy_bool (underline leaf) then Jsx "u" None None children
    else children in
  let children :=
    if truthy_bool (strike leaf) then Jsx "s" None None children
    else children in
  let children :=
    if truthy_bool (code leaf)
    then Jsx "code" None (Some "bg-gray-100 rounded px-1") children
    else children in
  Jsx "span" (Some attributes) None children.

(** [getAlignClass(align)]. *)
Definition getAlignClass (align : option string) : string :=
  match align with
  | Some a =>
      if a =? "left" then "text-left"
      else if a =? "center" then "text-center"
      else if a =? "right" then "text-right"
      else if a =? "justify" then "text-justify"
      else ""
  | None => ""
  end.

(** [Element({ attributes, children, element })]; [element.type] and
    [element.align] are read from the node. *)
Definition Element (attributes : Attributes) (children : ReactNode)
    (element : Descendant) : ReactNode :=
  let alignClass := getAlignClass (align_of element) in
  match type_of element with
  | Some type =>
      if type =? "heading-one" then
        Jsx "h1" (Some attributes)
          (Some ("text-3xl font-bold my-4 " ++ alignClass)%string) children
      else if type =? "heading-two" then
        Jsx "h2" (Some attributes)
          (Some ("text-2xl font-bold my-3 " ++ alignClass)%string) children
      else if type =? "heading-three" then
        Jsx "h3" (Some attributes)
          (Some ("text-xl font-bold my-2 " ++ alignClass)%string) children
      else if type =? "bulleted-list" then
        Jsx "ul" (Some attributes)
          (Some ("list-disc ml-4 " ++ alignClass)%string) children
      else if type =? "numbered-list" then
        Jsx "ol" (Some attributes)
          (Some ("list-decimal ml-4 " ++ alignClass)%string) children
      else if type =? "list-item" then
        Jsx "li" (Some attributes) None children
      else if type =? "code-block" then
        Jsx "pre" (Some attributes)
          (Some ("bg-gray-100 p-2 rounded my-2 " ++ alignClass)%string)
          (Jsx "code" None None children)
      else
        Jsx "p" (Some attributes) (Some ("my-2 " ++ alignClass)%string) children
  | None =>
      Jsx "p" (Some attributes) (Some ("my-2 " ++ alignClass)%string) children
  end.

(* ================================================================== *)
(** * The width of the chat sidebar ([page.tsx]) *)
(* ================================================================== *)

(** The state of [Home] that the resize handlers read and write. *)
Record ResizeState := mkResize {
  sidebarWidth : Z;
  isResizing : bool
}.

(** [useState(384)] and [useState(false)]. *)
Definition initialResize : ResizeState := mkResize 384 false.

(** [startResizing] and [stopResizing]. *)
Definition startResizing (s : ResizeState) : ResizeState :=
  mkResize (sidebarWidth s) true.

Definition stopResizing (s : ResizeState) : ResizeState :=
  mkResize (sidebarWidth s) false.

(** [resize(mouseMoveEvent)], with [document.body.clientWidth] and the
    [clientX] of the event.  [handleWindowMouseMove] has the same body. *)
Definition resize (clientWidth clientX : Z) (s : ResizeState)
  : ResizeState :=
  if isResizing s then
    let width := (clientWidth - clientX)%Z in
    mkResize (Z.min (Z.max width 280) 800) (isResizing s)
  else s.

Definition handleWindowMouseMove (clientWidth clientX : Z)
    (s : ResizeState) : ResizeState :=
  if isResizing s then
    let width := (clientWidth - clientX)%Z in
    mkResize (Z.min (Z.max width 280) 800) (isResizing s)
  else s.

(** The events the handlers are registered for: a mouse down on the
    handle, a mouse up anywhere in the window, and a mouse move, which
    reaches [resize] when the pointer is over the page and then the
    window listener [handleWindowMouseMove]. *)
Inductive MouseEvent :=
| mousedown
| mouseup
| mousemove (overPage : bool) (clientWidth clientX : Z).

Definition handleMouse (s : ResizeState) (ev : MouseEvent) : ResizeState :=
  match ev with
  | mousedown => startResizing s
  | mouseup => stopResizing s
  | mousemove overPage w x =>
      handleWindowMouseMove w x (if overPage then resize w x s else s)
  end.

(* ================================================================== *)
(** * Notions used by the statements *)
(* ================================================================== *)

(** What [set_node] makes of the type and the alignment of an element. *)
Definition new_type (pr : Props) (t : string) : string :=
  match pr with PType v => v | _ => t end.

Definition new_align (pr : Props) (a : option string) : option string :=
  match pr with PAlign v => v | _ => a end.

(** The order of two entries of a traversal: by their paths. *)
Definition before (x y : NodeEntry) : Prop :=
  Path.compare (snd x) (snd y) = Lt.

(** The block types of [CustomElement]. *)
Definition recognized (t : string) : bool :=
  existsb (String.eqb t)
    ["paragraph"; "heading-one"; "heading-two"; "heading-three";
     "bulleted-list"; "numbered-list"; "list-item"; "code-block"].

(** The storage that holds the text [s] under the key of the journal. *)
Definition stored (s : string) : Storage :=
  fun k => if k =? "journal-content" then Some s else None.

(** An element of type [t] lies in the unhung range of the selection. *)
Definition inUnhungRange (e : BaseEditor) (t : string) : Prop :=
  exists sel n p,
    selection e = Some sel
    /\ In (n, p) (Editor.nodes e (Some (Editor.unhangRange e sel))
                    SlateElement.isElement All)
    /\ type_of n = Some t.

(** The label the specification describes: that of the nearest block
    above the anchor of the selection. *)
Definition spec_currentBlockLabel (e : BaseEditor) : string :=
  match selection e with
  | None => "Normal"
  | Some sel =>
      match Node.get (children e) (Path.parent (path (anchor sel))) with
      | Some (ElementNode t _ _) =>
          if t =? "heading-one" then "H1"
          else if t =? "heading-two" then "H2"
          else if t =? "heading-three" then "H3"
          else "Normal"
      | _ => "Normal"
      end
  end.

(** The letters of a node, without the mark [k]: a text gives one
    leaf for each of its characters, with the other marks of the text;
    an element gives itself, with the letters of its children for
    children.  Two lists of nodes with the same letters differ only in
    the mark [k] and in where one leaf ends and the next begins. *)
Fixpoint letters (k : Format) (n : Descendant) : list Descendant :=
  match n with
  | TextNode t =>
      map (fun c =>
             TextNode (set_mark k None (Transforms.with_text (String c "") t)))
          (list_ascii_of_string (text t))
  | ElementNode t a ch => [ElementNode t a (flat_map (letters k) ch)]
  end.

Definition explode_doc (k : Format) (l : list Descendant)
  : list Descendant :=
  flat_map (letters k) l.

(** The selection that runs between the offsets [i] and [j] of the text
    at [q], forward (from [i] to [j]) or backward. *)
Definition between (forward : bool) (q : Path) (i j : nat) : Range :=
  if forward then mkRange (mkPoint q i) (mkPoint q j)
  else mkRange (mkPoint q j) (mkPoint q i).

(** The document with a block of texts [ts] between the top-level
    nodes [pre] and [post]. *)
Definition in_block (pre post : list Descendant) (ty : string)
    (al : option string) (ts : list CustomText) : list Descendant :=
  pre ++ ElementNode ty al (map TextNode ts) :: post.

(** The leaves that are left of the text [u] when its characters from
    [i] to [j] have received the value [v] of the mark [k]: the part
    before [i], if there is one, the part from [i] to [j] with the
    mark, and the part after [j], if there is one. *)
Definition pieces (k : Format) (v : bool) (i j : nat) (u : CustomText)
  : list CustomText :=
  (if (i =? 0)%nat then []
   else [Transforms.with_text (Transforms.str_take i (text u)) u])
  ++ [set_mark k (Some v)
        (Transforms.with_text
           (Transforms.str_drop i (Transforms.str_take j (text u))) u)]
  ++ (if (j =? String.length (text u))%nat then []
      else [Transforms.with_text (Transforms.str_drop j (text u)) u]).

(** Leaves that normalisation leaves alone: none is empty, and no two
    neighbours carry the same marks. *)
Definition normalLeaves (ts : list CustomText) : Prop :=
  Forall (fun t => text t <> "") ts
  /\ forall ds a b rest,
       ts = ds ++ a :: b :: rest -> Transforms.marks_eqb b a = false.

(** A paragraph above a bulleted list of two items, and a selection
    that covers the paragraph and hangs into the list: it starts at the
    start of the paragraph and ends at offset 0 of the first item, as a
    triple click on the paragraph leaves it. *)
Definition hangingIntoList : BaseEditor :=
  mkEditor
    [ElementNode "paragraph" None [TextNode (plain "a")];
     ElementNode "bulleted-list" None
       [ElementNode "list-item" None [TextNode (plain "x")];
        ElementNode "list-item" None [TextNode (plain "y")]]]
    (Some (mkRange (mkPoint [0; 0] 0) (mkPoint [1; 0; 0] 0))) None.

(** The documents of this editor: elements at the top level, and below
    every element either texts only or elements only. *)
Fixpoint uniform (n : Descendant) : bool :=
  match n with
  | TextNode _ => true
  | ElementNode _ _ ch =>
      (forallb Text.isText ch || forallb SlateElement.isElement ch)
      && forallb uniform ch
  end.

Definition wellFormed (l : list Descendant) : bool :=
  forallb SlateElement.isElement l && forallb uniform l.

(** An element whose children are texts, at least one (Slate keeps an
    empty text in an element that would have no child). *)
Definition leafy (n : Descendant) : Prop :=
  exists t a ts, ts <> [] /\ n = ElementNode t a (map TextNode ts).

(** The entries of the children [l] themselves, the first at index [i]
    below [p]. *)
Fixpoint block_entries (p : Path) (i : nat) (l : list Descendant)
  : list NodeEntry :=
  match l with
  | [] => []
  | c :: l' => (c, p ++ [i]) :: block_entries p (S i) l'
  end.

(** The guard of [Editor.unhangRange]: the range can hang. *)
Definition hanging (sel : Range) : bool :=
  (offset (fst (Range.edges sel)) =? 0)%nat
  && (offset (snd (Range.edges sel)) =? 0)%nat
  && negb (Range.isCollapsed sel)
  && negb (Path.hasPrevious (path (snd (Range.edges sel)))).

(** The selection starts in a text of the first and ends in a text of
    the last of the blocks [mid], which are leafy and are the children
    number [length pre] and following of the node at [p]. *)
Definition selectsBlocks (p : Path) (pre mid : list Descendant)
    (sel : Range) : Prop :=
  Forall leafy mid
  /\ exists x y tS tE,
       path (fst (Range.edges sel)) = p ++ [List.length pre; x]
       /\ path (snd (Range.edges sel))
          = p ++ [List.length pre + List.length mid - 1; y]
       /\ Node.get mid [0; x] = Some (TextNode tS)
       /\ Node.get mid [List.length mid - 1; y] = Some (TextNode tE).

(** The number of blocks the unhung selection covers. *)
Definition unhungCount (sel : Range) (n : nat) : nat :=
  if hanging sel then n - 1 else n.

(** Whether a node has the type [t]. *)
Definition has_type (t : string) (n : Descendant) : bool :=
  option_string_eqb (type_of n) (Some t).

(** The match function of [toggleBlock] for the list containers. *)
Definition isListNode (n : Descendant) : bool :=
  SlateElement.isElement n
  && match type_of n with
     | Some t => isListType t
     | None => false
     end.

(** The coordinates (block index, leaf index) of the texts of a list of
    leafy blocks whose first block has index [i]. *)
Fixpoint coords (i : nat) (l : list Descendant) : list (nat * nat) :=
  match l with
  | [] => []
  | c :: l' =>
      map (fun z => (i, z)) (seq 0 (List.length (children_of c)))
      ++ coords (S i) l'
  end.

(** A point or a range with its paths rewritten. *)
Definition move_point (f : Path -> Path) (pt : Point) : Point :=
  mkPoint (f (path pt)) (offset pt).

Definition move_range (f : Path -> Path) (r : Range) : Range :=
  mkRange (move_point f (anchor r)) (move_point f (focus r)).

(** The paths of the texts below the children [l] of [p]. *)
Definition text_paths (p : Path) (i : nat) (l : list Descendant)
  : list Path :=
  map snd (filter (fun x => Text.isText (fst x)) (Node.entries_list p i l)).

(** The path of a text of the block number [i] after blocks [a] and
    following have become the children of one element at [a]. *)
Definition wrap_path (a : nat) (q : Path) : Path :=
  match q with
  | i :: r => a :: (i - a) :: r
  | [] => []
  end.

(** The path of a text of the child number [j] of the container at
    [a] after the children [k] and following have left it for the
    indexes [a'] and following. *)
Definition unwrap_path (a' k : nat) (q : Path) : Path :=
  match q with
  | _ :: j :: r => (a' + (j - k)) :: r
  | _ => q
  end.

(** The first [u] blocks with the type [t], the others as they are. *)
Definition retype (t : string) (u : nat) (l : list Descendant)
  : list Descendant :=
  map (set_node (PType t)) (firstn u l) ++ skipn u l.

(** Two nodes of the same kind with the same children. *)
Definition sameContent (c c' : Descendant) : Prop :=
  children_of c = children_of c'
  /\ SlateElement.isElement c = SlateElement.isElement c'.

(** No [list-item] element outside a list container: [inList] tells
    whether the parent of [n] is a list container. *)
Fixpoint noOrphanItem (inList : bool) (n : Descendant) : bool :=
  match n with
  | TextNode _ => true
  | ElementNode t _ ch =>
      (inList || negb (t =? "list-item"))
      && forallb (noOrphanItem (isListType t)) ch
  end.

Definition noOrphanItems (doc : list Descendant) : bool :=
  forallb (noOrphanItem false) doc.

(** The text of an exported node: that of a run, or the texts of the
    children of a paragraph, in order. *)
Fixpoint docxText (d : DocxNode) : string :=
  match d with
  | TextRun o => r_text o
  | Paragraph (mkParagraph ch _ _ _ _) => String.concat "" (map docxText ch)
  end.

(** A document with [f] applied to every text. *)
Fixpoint map_texts (f : CustomText -> CustomText) (n : Descendant)
  : Descendant :=
  match n with
  | TextNode t => TextNode (f t)
  | ElementNode ty a ch => ElementNode ty a (map (map_texts f) ch)
  end.

(** Two leaves agree on which marks are truthy. *)
Definition sameTruthiness (t t' : CustomText) : Prop :=
  forall k, truthy_bool (get_mark k t) = truthy_bool (get_mark k t').

(** The number of elements around the given children. *)
Fixpoint wrappers (r : ReactNode) : nat :=
  match r with
  | Given _ => 0
  | Jsx _ _ _ c => S (wrappers c)
  end.

(** What the export reads of a leaf: two leaves with the same text, the
    same [bold], [italic] and [strike] and an [underline] that is truthy
    in both or in neither. *)
Definition sameForExport (t t' : CustomText) : Prop :=
  text t' = text t /\ bold t' = bold t /\ italic t' = italic t
  /\ strike t' = strike t
  /\ truthy_bool (underline t') = truthy_bool (underline t).

(** The width stays between the two bounds of the handlers. *)
Definition widthInBounds (s : ResizeState) : Prop :=
  (280 <= sidebarWidth s <= 800)%Z.

(** A value without numbers: strings, booleans, null, arrays and
    objects of such values, as the documents are. *)
Fixpoint numberless (j : JSValue) : bool :=
  match j with
  | JNumber _ => false
  | JArray items => forallb numberless items
  | JObject members =>
      forallb (fun kv => let '(_, v) := kv in numberless v) members
  | _ => true
  end.

(** The number of values in a value, each item and member counted
    with the step that reaches it. *)
Fixpoint size (j : JSValue) : nat :=
  match j with
  | JArray items => S (list_sum (map (fun v => S (size v)) items))
  | JObject members =>
      S (list_sum (map (fun kv => let '(_, v) := kv in S (size v)) members))
  | _ => 1
  end.

(** The first character of a written value opens a literal, a string,
    an array or an object. *)
Definition opens (cs : list ascii) : Prop :=
  exists c tl,
    cs = c :: tl
    /\ (c = "n"%char \/ c = "t"%char \/ c = "f"%char \/ c = JSON.quote
        \/ c = "["%char \/ c = "{"%char).

(** Whether a node has the alignment [a]. *)
Definition has_align (a : string) (n : Descendant) : bool :=
  option_string_eqb (align_of n) (Some a).

(** The first [u] blocks with the properties [pr], the others as they
    are. *)
Definition restyle (pr : Props) (u : nat) (l : list Descendant)
  : list Descendant :=
  map (set_node pr) (firstn u l) ++ skipn u l.

(** The two shapes of a selection over blocks: both edges in top-level
    blocks whose children are texts, none of them a list container; or
    both edges in such blocks inside one top-level list container. *)
Inductive blockSelection : BaseEditor -> Prop :=
| topLevelBlocks pre mid post sel m :
    selectsBlocks [] pre mid sel ->
    (forall c, In c mid -> isListNode c = false) ->
    blockSelection (mkEditor (pre ++ mid ++ post) (Some sel) m)
| listItems PRE I1 I2 I3 POST wt wa sel m :
    selectsBlocks [List.length PRE] I1 I2 sel ->
    isListType wt = true ->
    (forall c, In c I2 -> isListNode c = false) ->
    blockSelection
      (mkEditor (PRE ++ [ElementNode wt wa (I1 ++ I2 ++ I3)] ++ POST)
         (Some sel) m).

(** The label of the heading menu for a block type. *)
Definition headingLabel (t : string) : string :=
  if t =? "heading-one" then "H1"
  else if t =? "heading-two" then "H2"
  else if t =? "heading-three" then "H3"
  else "Normal".

(** Two editors for the examples: a heading, two selected paragraphs
    and a paragraph; and a bulleted list of three items, the second
    selected. *)
Definition exampleBlocks : BaseEditor :=
  mkEditor
    ([ElementNode "heading-one" None [TextNode (plain "a")]]
     ++ [ElementNode "paragraph" None [TextNode (plain "b")];
         ElementNode "paragraph" (Some "center") [TextNode (plain "c")]]
     ++ [ElementNode "paragraph" None [TextNode (plain "d")]])
    (Some (mkRange (mkPoint [1; 0] 0) (mkPoint [2; 0] 1))) None.

Definition exampleItems : BaseEditor :=
  mkEditor
    ([ElementNode "paragraph" None [TextNode (plain "p")]]
     ++ [ElementNode "bulleted-list" None
           ([ElementNode "list-item" None [TextNode (plain "a")]]
            ++ [ElementNode "list-item" None [TextNode (plain "b")]]
            ++ [ElementNode "list-item" None [TextNode (plain "c")]])]
     ++ [])
    (Some (mkRange (mkPoint [1; 1; 0] 0) (mkPoint [1; 1; 0] 1))) None.

(* ================================================================== *)
(** * Properties *)
(* ================================================================== *)


(** ** Paths *)

Lemma compare_refl p : Path.compare p p = Eq.
Proof.
  induction p as [|i p IH]; simpl; [reflexivity|].
  rewrite Nat.compare_refl. exact IH.
Qed.

Lemma compare_antisym p q : Path.compare q p = CompOpp (Path.compare p q).
Proof.
  revert q. induction p as [|i p IH]; intros [|j q]; simpl; try reflexivity.
  rewrite (Nat.compare_antisym i j).
  destruct (Nat.compare i j); simpl; auto.
Qed.

Lemma compare_app p x y : Path.compare (p ++ x) (p ++ y) = Path.compare x y.
Proof.
  induction p as [|i p IH]; simpl; [reflexivity|].
  rewrite Nat.compare_refl. exact IH.
Qed.

Lemma compare_nil_r p : Path.compare p [] = Eq.
Proof. destruct p; reflexivity. Qed.

Lemma compare_cons_lt i j x y : i < j -> Path.compare (i :: x) (j :: y) = Lt.
Proof. intros H. simpl. apply Nat.compare_lt_iff in H. rewrite H. reflexivity. Qed.

Lemma compare_cons_gt i j x y : j < i -> Path.compare (i :: x) (j :: y) = Gt.
Proof. intros H. simpl. apply Nat.compare_gt_iff in H. rewrite H. reflexivity. Qed.

Lemma compare_cons_eq i x y :
  Path.compare (i :: x) (i :: y) = Path.compare x y.
Proof. simpl. rewrite Nat.compare_refl. reflexivity. Qed.

Lemma equals_iff p q : Path.equals p q = true <-> p = q.
Proof.
  unfold Path.equals. destruct (list_eq_dec Nat.eq_dec p q); split;
    intros; congruence.
Qed.

Lemma equals_refl p : Path.equals p p = true.
Proof. apply equals_iff. reflexivity. Qed.

Lemma path_in_iff p l : path_in p l = true <-> In p l.
Proof.
  unfold path_in. rewrite existsb_exists. split.
  - intros [q [Hq E]]. apply equals_iff in E. subst. exact Hq.
  - intros H. exists p. split; [exact H | apply equals_refl].
Qed.

(** ** Induction over the document tree *)

Lemma Descendant_ind (P : Descendant -> Prop) :
  (forall t, P (TextNode t)) ->
  (forall t a ch, Forall P ch -> P (ElementNode t a ch)) ->
  forall n, P n.
Proof.
  intros Ht He.
  fix IH 1. intros [t | t a ch].
  - apply Ht.
  - apply He. induction ch as [|c ch IHch]; constructor.
    + apply IH.
    + exact IHch.
Qed.

(** ** The traversal *)

Lemma entries_node_element p t a ch :
  Node.entries_node p (ElementNode t a ch)
  = (ElementNode t a ch, p) :: Node.entries_list p 0 ch.
Proof.
  simpl. f_equal. generalize 0. induction ch as [|c ch IH]; intros i.
  - reflexivity.
  - simpl. f_equal. apply IH.
Qed.

Lemma entries_node_text p t :
  Node.entries_node p (TextNode t) = [(TextNode t, p)].
Proof. reflexivity. Qed.

Lemma entries_list_app p i l1 l2 :
  Node.entries_list p i (l1 ++ l2)
  = Node.entries_list p i l1
    ++ Node.entries_list p (i + List.length l1) l2.
Proof.
  revert i. induction l1 as [|c l1 IH]; intros i; simpl.
  - rewrite Nat.add_0_r. reflexivity.
  - rewrite IH, <- app_assoc. do 3 f_equal. lia.
Qed.

(** Every entry below the node at [p] has a path that extends [p]. *)
Lemma entries_paths :
  forall n p e, In e (Node.entries_node p n) -> exists r, snd e = p ++ r.
Proof.
  induction n as [t | t a ch IH] using Descendant_ind; intros p e H.
  - destruct H as [<- | []]. exists []. simpl. symmetry. apply app_nil_r.
  - rewrite entries_node_element in H. destruct H as [<- | H].
    + exists []. simpl. symmetry. apply app_nil_r.
    + revert H. generalize 0. induction IH as [|c ch Hc _ IHch]; intros i H.
      * destruct H.
      * simpl in H. apply in_app_or in H. destruct H as [H | H].
        -- apply Hc in H. destruct H as [r Hr]. exists (i :: r).
           rewrite Hr, <- app_assoc. reflexivity.
        -- apply (IHch (S i)). exact H.
Qed.

Lemma entries_list_paths l :
  forall p i e, In e (Node.entries_list p i l) ->
    exists j r, snd e = p ++ j :: r /\ i <= j < i + List.length l.
Proof.
  induction l as [|c l IH]; intros p i e H.
  - destruct H.
  - simpl in H. apply in_app_or in H. destruct H as [H | H].
    + apply entries_paths in H. destruct H as [r Hr]. exists i, r.
      rewrite Hr, <- app_assoc. simpl. split; [reflexivity | lia].
    + apply IH in H. destruct H as [j [r [Hr Hj]]]. exists j, r.
      simpl. split; [exact Hr | lia].
Qed.

(** ** Setting properties along the tree *)

Lemma update_node_element T f p t a ch :
  update_node T f p (ElementNode t a ch)
  = if path_in p T then f (ElementNode t a (update_list T f p 0 ch))
    else ElementNode t a (update_list T f p 0 ch).
Proof.
  simpl.
  assert (E : forall i,
    (fix go (i : nat) (l : list Descendant) : list Descendant :=
       match l with
       | [] => []
       | c :: l' => update_node T f (p ++ [i]) c :: go (S i) l'
       end) i ch = update_list T f p i ch).
  { induction ch as [|c ch IH]; intros i; simpl; [reflexivity|].
    f_equal. apply IH. }
  rewrite E. reflexivity.
Qed.

Lemma update_node_text T f p t :
  update_node T f p (TextNode t)
  = if path_in p T then f (TextNode t) else TextNode t.
Proof. reflexivity. Qed.

Lemma set_node_element pr t a ch :
  set_node pr (ElementNode t a ch)
  = ElementNode (new_type pr t) (new_align pr a) ch.
Proof. destruct pr; reflexivity. Qed.

Lemma set_node_text pr t :
  exists t', set_node pr (TextNode t) = TextNode t' /\ text t' = text t.
Proof.
  destruct pr; simpl; try (exists t; split; reflexivity).
  eexists. split; [reflexivity|]. destruct k; reflexivity.
Qed.

Lemma update_set_element T pr p t a ch :
  update_node T (set_node pr) p (ElementNode t a ch)
  = ElementNode (if path_in p T then new_type pr t else t)
      (if path_in p T then new_align pr a else a)
      (update_list T (set_node pr) p 0 ch).
Proof.
  rewrite update_node_element. destruct (path_in p T); [|reflexivity].
  apply set_node_element.
Qed.

Lemma nth_error_update_list T f p l :
  forall i j,
    nth_error (update_list T f p i l) j
    = option_map (update_node T f (p ++ [i + j])) (nth_error l j).
Proof.
  induction l as [|c l IH]; intros i [|j]; simpl; try reflexivity.
  - rewrite Nat.add_0_r. reflexivity.
  - rewrite IH. replace (S i + j) with (i + S j) by lia. reflexivity.
Qed.

Lemma length_update_list T f p l :
  forall i, List.length (update_list T f p i l) = List.length l.
Proof. induction l; intros i; simpl; auto. Qed.

(** A path resolves in the updated document to the update of the node it
    resolved to before. *)
Lemma get_update_list T pr :
  forall q l p,
    Node.get (update_list T (set_node pr) p 0 l) q
    = option_map (update_node T (set_node pr) (p ++ q)) (Node.get l q).
Proof.
  induction q as [|i q IH]; intros l p; [reflexivity|].
  destruct q as [|j q].
  - cbn [Node.get]. rewrite nth_error_update_list, Nat.add_0_l. reflexivity.
  - change (Node.get (update_list T (set_node pr) p 0 l) (i :: j :: q))
      with (match nth_error (update_list T (set_node pr) p 0 l) i with
            | Some (ElementNode _ _ ch) => Node.get ch (j :: q)
            | _ => None
            end).
    change (Node.get l (i :: j :: q))
      with (match nth_error l i with
            | Some (ElementNode _ _ ch) => Node.get ch (j :: q)
            | _ => None
            end).
    rewrite nth_error_update_list, Nat.add_0_l.
    destruct (nth_error l i) as [[t | t a ch] |]; cbn [option_map];
      try reflexivity.
    + rewrite update_node_text. destruct (path_in (p ++ [i]) T); [|reflexivity].
      destruct (set_node_text pr t) as [t' [-> _]]. reflexivity.
    + rewrite update_set_element, IH, <- app_assoc. reflexivity.
Qed.

Lemma nodes_all e r m :
  Editor.nodes e (Some r) m All
  = filter (fun x => m (fst x))
      (filter (fun x => Editor.in_span (path (fst (Range.edges r)))
                          (path (snd (Range.edges r))) (snd x))
         (Node.nodes (children e))).
Proof. unfold Editor.nodes. destruct (Range.edges r). reflexivity. Qed.

Lemma nodes_lowest e r m :
  Editor.nodes e (Some r) m Lowest
  = Editor.lowest (Editor.nodes e (Some r) m All).
Proof. unfold Editor.nodes. destruct (Range.edges r). reflexivity. Qed.

Lemma update_list_nil_targets f l :
  forall p i, update_list [] f p i l = l.
Proof.
  induction l as [|c l IH]; intros p i; [reflexivity|].
  simpl. rewrite IH. f_equal.
  clear IH l. revert p i.
  induction c as [t | t a ch IHc] using Descendant_ind; intros p i.
  - reflexivity.
  - rewrite update_node_element. simpl. f_equal.
    generalize (p ++ [i]). generalize 0.
    induction IHc as [|c ch Hc _ IHch]; intros j q; [reflexivity|].
    simpl. rewrite IHch. f_equal. apply Hc.
Qed.

(** The traversal of the updated document visits the same paths and
    finds the updated nodes. *)
Lemma entries_update T pr :
  forall n p,
    Node.entries_node p (update_node T (set_node pr) p n)
    = map (fun x => (update_node T (set_node pr) (snd x) (fst x), snd x))
        (Node.entries_node p n).
Proof.
  induction n as [t | t a ch IH] using Descendant_ind; intros p.
  - rewrite update_node_text. simpl.
    destruct (path_in p T); [|reflexivity].
    destruct (set_node_text pr t) as [t' [-> _]]. reflexivity.
  - rewrite entries_node_element. cbn [map fst snd].
    rewrite update_set_element at 1. rewrite entries_node_element.
    rewrite <- update_set_element. f_equal.
    generalize 0. induction IH as [|c ch Hc _ IHch]; intros i.
    + reflexivity.
    + simpl. rewrite map_app, Hc, IHch. reflexivity.
Qed.

Lemma entries_list_update T pr l :
  forall p i,
    Node.entries_list p i (update_list T (set_node pr) p i l)
    = map (fun x => (update_node T (set_node pr) (snd x) (fst x), snd x))
        (Node.entries_list p i l).
Proof.
  induction l as [|c l IH]; intros p i; [reflexivity|].
  simpl. rewrite map_app, entries_update, IH. reflexivity.
Qed.

Lemma update_keeps_kind T pr p n :
  Text.isText (update_node T (set_node pr) p n) = Text.isText n.
Proof.
  destruct n as [t | t a ch].
  - rewrite update_node_text. destruct (path_in p T); [|reflexivity].
    destruct (set_node_text pr t) as [t' [-> _]]. reflexivity.
  - rewrite update_set_element. reflexivity.
Qed.

Lemma filter_map_entries (g : Descendant -> Path -> Descendant)
    (f : NodeEntry -> bool) (l : list NodeEntry) :
  (forall x, f (g (fst x) (snd x), snd x) = f x) ->
  filter f (map (fun x => (g (fst x) (snd x), snd x)) l)
  = map (fun x => (g (fst x) (snd x), snd x)) (filter f l).
Proof.
  intros H. induction l as [|x l IH]; [reflexivity|].
  simpl. rewrite H. destruct (f x); simpl; rewrite IH; reflexivity.
Qed.

(** The texts an updated document shows to [Editor.nodes]. *)
Lemma nodes_texts_update e T pr sel m r :
  Editor.nodes
    (mkEditor (update_list T (set_node pr) [] 0 (children e)) sel m)
    (Some r) Text.isText All
  = map (fun x => (update_node T (set_node pr) (snd x) (fst x), snd x))
      (Editor.nodes e (Some r) Text.isText All).
Proof.
  rewrite !nodes_all. cbn [children]. unfold Node.nodes.
  rewrite entries_list_update.
  set (g := fun (n : Descendant) (q : Path) =>
              update_node T (set_node pr) q n).
  change (fun x : NodeEntry =>
            (update_node T (set_node pr) (snd x) (fst x), snd x))
    with (fun x : NodeEntry => (g (fst x) (snd x), snd x)).
  rewrite (filter_map_entries g) by reflexivity.
  rewrite (filter_map_entries g); [reflexivity|].
  intros x. cbn [fst]. apply update_keeps_kind.
Qed.

(** ** The order of the texts *)

Lemma sorted_app (A : Type) (R : A -> A -> Prop) (l1 l2 : list A) :
  StronglySorted R l1 -> StronglySorted R l2 ->
  (forall x y, In x l1 -> In y l2 -> R x y) ->
  StronglySorted R (l1 ++ l2).
Proof.
  intros H1 H2 H. induction H1 as [|x l1 Hs IH Hx]; [exact H2|].
  simpl. constructor.
  - apply IH. intros a b Ha Hb. apply H; [right|]; assumption.
  - apply Forall_app. split; [exact Hx|].
    apply Forall_forall. intros y Hy. apply H; [left; reflexivity | exact Hy].
Qed.

Lemma sorted_filter (A : Type) (R : A -> A -> Prop) (f : A -> bool) l :
  StronglySorted R l -> StronglySorted R (filter f l).
Proof.
  intros H. induction H as [|x l Hs IH Hx]; [constructor|].
  simpl. destruct (f x); [|exact IH]. constructor; [exact IH|].
  apply Forall_forall. intros y Hy. apply filter_In in Hy.
  rewrite Forall_forall in Hx. apply Hx. apply Hy.
Qed.

(** In document order every text comes strictly before the next one:
    a text has no descendants. *)
Lemma texts_sorted_node :
  forall n p,
    StronglySorted before
      (filter (fun x => Text.isText (fst x)) (Node.entries_node p n)).
Proof.
  induction n as [t | t a ch IH] using Descendant_ind; intros p.
  - simpl. repeat constructor.
  - rewrite entries_node_element. simpl. generalize 0.
    induction IH as [|c ch Hc Hch IHch]; intros i; [constructor|].
    simpl. rewrite filter_app. apply sorted_app.
    + apply Hc.
    + apply IHch.
    + intros x y Hx Hy. apply filter_In in Hx. apply filter_In in Hy.
      destruct Hx as [Hx _]. destruct Hy as [Hy _].
      apply entries_paths in Hx. destruct Hx as [r Hr].
      apply entries_list_paths in Hy. destruct Hy as [j [r' [Hr' Hj]]].
      unfold before. rewrite Hr, Hr', <- app_assoc, compare_app.
      apply compare_cons_lt. lia.
Qed.

Lemma texts_sorted_list l :
  forall p i,
    StronglySorted before
      (filter (fun x => Text.isText (fst x)) (Node.entries_list p i l)).
Proof.
  induction l as [|c l IH]; intros p i; [constructor|].
  simpl. rewrite filter_app. apply sorted_app.
  - apply texts_sorted_node.
  - apply IH.
  - intros x y Hx Hy. apply filter_In in Hx. apply filter_In in Hy.
    destruct Hx as [Hx _]. destruct Hy as [Hy _].
    apply entries_paths in Hx. destruct Hx as [r Hr].
    apply entries_list_paths in Hy. destruct Hy as [j [r' [Hr' Hj]]].
    unfold before. rewrite Hr, Hr', <- app_assoc, compare_app.
    apply compare_cons_lt. lia.
Qed.

Lemma filter_comm (A : Type) (f g : A -> bool) l :
  filter f (filter g l) = filter g (filter f l).
Proof.
  induction l as [|x l IH]; [reflexivity|]. simpl.
  destruct (f x) eqn:F, (g x) eqn:G; simpl; rewrite ?F, ?G, IH; reflexivity.
Qed.

Lemma lowest_from_sorted l :
  forall hit, StronglySorted before (hit :: l) ->
    Editor.lowest_from hit l = hit :: l.
Proof.
  induction l as [|x l IH]; intros hit H; [reflexivity|].
  simpl. inversion H as [|? ? Hs Hf]; subst.
  inversion Hf as [|? ? Hx _]; subst. unfold before in Hx.
  rewrite compare_antisym, Hx. simpl. f_equal. apply IH. exact Hs.
Qed.

Lemma lowest_sorted l : StronglySorted before l -> Editor.lowest l = l.
Proof.
  destruct l as [|x l]; [reflexivity|]. intros H. simpl.
  apply lowest_from_sorted. exact H.
Qed.

(** Among texts the mode ['lowest'] keeps every match. *)
Lemma nodes_texts_lowest e r :
  Editor.nodes e (Some r) Text.isText Lowest
  = Editor.nodes e (Some r) Text.isText All.
Proof.
  rewrite nodes_lowest. apply lowest_sorted.
  rewrite nodes_all, filter_comm. apply sorted_filter.
  apply texts_sorted_list.
Qed.

(** ** Points and ranges *)

Lemma point_compare_antisym a b :
  Point.compare b a = CompOpp (Point.compare a b).
Proof.
  unfold Point.compare. rewrite (compare_antisym (path a) (path b)).
  destruct (Path.compare (path a) (path b)); simpl; try reflexivity.
  apply Nat.compare_antisym.
Qed.

Lemma edges_cases r S E :
  Range.edges r = (S, E) ->
  (r = mkRange S E /\ Point.isAfter S E = false)
  \/ (r = mkRange E S /\ Point.isAfter E S = true).
Proof.
  unfold Range.edges, Range.isBackward. destruct r as [a f]. simpl.
  destruct (Point.isAfter a f) eqn:B; intros H; injection H as <- <-.
  - right. split; [reflexivity | exact B].
  - left. split; [reflexivity | exact B].
Qed.

Lemma edges_forward r S E :
  Range.edges r = (S, E) -> Range.edges (mkRange S E) = (S, E).
Proof.
  intros H. apply edges_cases in H.
  unfold Range.edges, Range.isBackward. simpl.
  destruct H as [[_ H] | [_ H]].
  - rewrite H. reflexivity.
  - unfold Point.isAfter in *. rewrite point_compare_antisym.
    destruct (Point.compare E S); try discriminate. reflexivity.
Qed.

Lemma nodes_edges e r r' m mode :
  Range.edges r = Range.edges r' ->
  Editor.nodes e (Some r) m mode = Editor.nodes e (Some r') m mode.
Proof. intros H. unfold Editor.nodes. rewrite H. reflexivity. Qed.

(** ** Paths of entries resolve to their nodes *)

Lemma get_cons c l j r : Node.get (c :: l) (S j :: r) = Node.get l (j :: r).
Proof. destruct r; reflexivity. Qed.

Lemma get_nil p : Node.get [] p = None.
Proof. destruct p as [|[|i] [|j p]]; reflexivity. Qed.

Lemma get_head_element t a ch l i r :
  Node.get (ElementNode t a ch :: l) (0 :: i :: r) = Node.get ch (i :: r).
Proof. reflexivity. Qed.

Lemma entries_get_node :
  forall n p x, In x (Node.entries_node p n) ->
    x = (n, p)
    \/ exists j r, snd x = p ++ j :: r
                   /\ Node.get (children_of n) (j :: r) = Some (fst x).
Proof.
  induction n as [t | t a ch IH] using Descendant_ind; intros p x H.
  - destruct H as [<- | []]. left. reflexivity.
  - rewrite entries_node_element in H. destruct H as [<- | H].
    { left. reflexivity. }
    right. cbn [children_of].
    assert (G : forall i, In x (Node.entries_list p i ch) ->
              exists j r, snd x = p ++ (i + j) :: r
                          /\ Node.get ch (j :: r) = Some (fst x)).
    { clear H. induction IH as [|c ch Hc _ IHch]; intros i H.
      - destruct H.
      - simpl in H. apply in_app_or in H. destruct H as [H | H].
        + apply Hc in H. destruct H as [-> | [j [r [Hp Hg]]]].
          * exists 0, []. rewrite Nat.add_0_r. split; reflexivity.
          * exists 0, (j :: r). rewrite Nat.add_0_r, Hp, <- app_assoc.
            split; [reflexivity|].
            destruct c as [t' | t' a' ch'].
            -- cbn [children_of] in Hg. rewrite get_nil in Hg. discriminate.
            -- rewrite get_head_element. exact Hg.
        + apply IHch in H. destruct H as [j [r [Hp Hg]]].
          exists (S j), r. rewrite get_cons. split; [|exact Hg].
          rewrite Hp. do 2 f_equal. lia. }
    apply (G 0). exact H.
Qed.

Lemma entries_get l :
  forall x, In x (Node.nodes l) -> Node.get l (snd x) = Some (fst x).
Proof.
  intros x H.
  assert (G : In x (Node.entries_node [] (ElementNode "" None l))).
  { rewrite entries_node_element. right. exact H. }
  apply entries_get_node in G. destruct G as [-> | [j [r [Hp Hg]]]].
  - exfalso. unfold Node.nodes in H. apply entries_list_paths in H.
    destruct H as [j [r [Hr _]]]. discriminate.
  - simpl in Hp. rewrite Hp. exact Hg.
Qed.

(** ** Updates that change nothing, and updates in a row *)

Lemma update_node_id T f :
  forall n p,
    (forall x, In x (Node.entries_node p n) ->
       path_in (snd x) T = true -> f (fst x) = fst x) ->
    update_node T f p n = n.
Proof.
  induction n as [t | t a ch IH] using Descendant_ind; intros p H.
  - rewrite update_node_text. destruct (path_in p T) eqn:E; [|reflexivity].
    apply (H (TextNode t, p)); [left; reflexivity | exact E].
  - rewrite update_node_element.
    assert (G : update_list T f p 0 ch = ch).
    { assert (H' : forall x, In x (Node.entries_list p 0 ch) ->
                path_in (snd x) T = true -> f (fst x) = fst x).
      { intros x Hx. apply H. rewrite entries_node_element. right. exact Hx. }
      clear H. revert H'. generalize 0.
      induction IH as [|c ch Hc _ IHch]; intros i H'; [reflexivity|].
      simpl. f_equal.
      - apply Hc. intros x Hx. apply H'. simpl. apply in_or_app. left.
        exact Hx.
      - apply IHch. intros x Hx. apply H'. simpl. apply in_or_app. right.
        exact Hx. }
    rewrite G. destruct (path_in p T) eqn:E; [|reflexivity].
    apply (H (ElementNode t a ch, p)); [|exact E].
    rewrite entries_node_element. left. reflexivity.
Qed.

Lemma update_list_id T f l :
  forall p i,
    (forall x, In x (Node.entries_list p i l) ->
       path_in (snd x) T = true -> f (fst x) = fst x) ->
    update_list T f p i l = l.
Proof.
  induction l as [|c l IH]; intros p i H; [reflexivity|].
  simpl. f_equal.
  - apply update_node_id. intros x Hx. apply H. simpl. apply in_or_app.
    left. exact Hx.
  - apply IH. intros x Hx. apply H. simpl. apply in_or_app. right. exact Hx.
Qed.

Lemma update_update T a b :
  forall n p,
    update_node T (set_node b) p (update_node T (set_node a) p n)
    = update_node T (fun m => set_node b (set_node a m)) p n.
Proof.
  induction n as [t | t al ch IH] using Descendant_ind; intros p.
  - rewrite !update_node_text. destruct (path_in p T) eqn:E.
    + destruct (set_node_text a t) as [t' [Ht _]]. rewrite Ht.
      rewrite update_node_text, E. reflexivity.
    + rewrite update_node_text, E. reflexivity.
  - rewrite update_set_element, update_set_element, update_node_element.
    assert (G : update_list T (set_node b) p 0
                  (update_list T (set_node a) p 0 ch)
                = update_list T (fun m => set_node b (set_node a m)) p 0 ch).
    { generalize 0. induction IH as [|c ch Hc _ IHch]; intros i.
      - reflexivity.
      - simpl. rewrite Hc, IHch. reflexivity. }
    rewrite G. destruct (path_in p T); [|reflexivity].
    rewrite !set_node_element. reflexivity.
Qed.

Lemma update_list_update T a b l :
  forall p i,
    update_list T (set_node b) p i (update_list T (set_node a) p i l)
    = update_list T (fun m => set_node b (set_node a m)) p i l.
Proof.
  induction l as [|c l IH]; intros p i; [reflexivity|].
  simpl. rewrite update_update, IH. reflexivity.
Qed.

(** ** The serializer *)

(** C7: a paragraph with the single leaf [{text: "Hello", bold: true}]
    and no alignment serializes to exactly one export paragraph,
    aligned left, with exactly one run [{text: "Hello", bold: true}]. *)
Theorem serialize_hello_paragraph :
  serializeToDocx
    [ElementNode "paragraph" None
       [TextNode (mkText "Hello" (Some true) None None None None)]]
  = [Paragraph (mkParagraph
       [TextRun (mkRun "Hello" (Some true) None None None)]
       None None None (Some LEFT))].
Proof. reflexivity. Qed.

Lemma serializeToDocx_singleton n : serializeToDocx [n] = serializeNode n.
Proof. unfold serializeToDocx. simpl. apply app_nil_r. Qed.

Lemma serializeNode_default t a ch :
  (t =? "heading-one") = false ->
  (t =? "heading-two") = false ->
  (t =? "heading-three") = false ->
  (t =? "bulleted-list") = false ->
  (t =? "numbered-list") = false ->
  serializeNode (ElementNode t a ch)
  = [Paragraph (mkParagraph (serializeToDocx ch) None None None
                  (alignmentOf a))].
Proof.
  intros H1 H2 H3 H4 H5. simpl. rewrite H1, H2, H3, H4, H5. reflexivity.
Qed.

(** C9: a code block, and a block of a type outside the known ones,
    serializes to the one export paragraph that a paragraph with the
    same children and alignment serializes to; the serializer is a
    total function, so no type makes it abort. *)
Theorem serialize_falls_back_to_paragraph t a ch :
  t = "code-block" \/ recognized t = false ->
  serializeToDocx [ElementNode t a ch]
  = serializeToDocx [ElementNode "paragraph" a ch]
  /\ serializeToDocx [ElementNode t a ch]
     = [Paragraph (mkParagraph (serializeToDocx ch) None None None
                     (alignmentOf a))].
Proof.
  intros H. rewrite !serializeToDocx_singleton.
  assert (Hp : serializeNode (ElementNode "paragraph" a ch)
               = [Paragraph (mkParagraph (serializeToDocx ch) None None None
                               (alignmentOf a))])
    by (apply serializeNode_default; reflexivity).
  rewrite Hp.
  assert (Ht : serializeNode (ElementNode t a ch)
               = [Paragraph (mkParagraph (serializeToDocx ch) None None None
                               (alignmentOf a))]).
  { destruct H as [-> | H].
    - apply serializeNode_default; reflexivity.
    - unfold recognized in H. simpl in H.
      repeat (apply orb_false_elim in H; destruct H as [? H]).
      apply serializeNode_default; assumption. }
  rewrite Ht. split; reflexivity.
Qed.

Lemma serialize_falls_back_witness :
  serializeToDocx [ElementNode "callout" (Some "center") [TextNode (plain "x")]]
  = serializeToDocx
      [ElementNode "paragraph" (Some "center") [TextNode (plain "x")]].
Proof.
  apply (serialize_falls_back_to_paragraph "callout" (Some "center")
           [TextNode (plain "x")]).
  right. reflexivity.
Defined.

(** C5 (the code departs from it): of a bulleted list with three list
    items the serializer makes three bullet paragraphs at level 0, in
    order, but the only child of each is the whole export paragraph of
    its item, not the runs of the item: the runs sit one paragraph
    deeper. *)
Theorem serialize_bulleted_list_nests_paragraphs al a1 c1 a2 c2 a3 c3 :
  serializeToDocx
    [ElementNode "bulleted-list" al
       [ElementNode "list-item" a1 c1;
        ElementNode "list-item" a2 c2;
        ElementNode "list-item" a3 c3]]
  = [Paragraph (mkParagraph
       [Paragraph (mkParagraph (serializeToDocx c1) None None None
                     (alignmentOf a1))]
       None (Some 0) None (alignmentOf al));
     Paragraph (mkParagraph
       [Paragraph (mkParagraph (serializeToDocx c2) None None None
                     (alignmentOf a2))]
       None (Some 0) None (alignmentOf al));
     Paragraph (mkParagraph
       [Paragraph (mkParagraph (serializeToDocx c3) None None None
                     (alignmentOf a3))]
       None (Some 0) None (alignmentOf al))].
Proof.
  rewrite serializeToDocx_singleton.
  rewrite <- (serializeNode_default "list-item" a1 c1) by reflexivity.
  rewrite <- (serializeNode_default "list-item" a2 c2) by reflexivity.
  rewrite <- (serializeNode_default "list-item" a3 c3) by reflexivity.
  reflexivity.
Qed.

(** ** Hydration *)

(** C2 as stated fails: a stored object is not an array, yet it becomes
    the document as it is; and a stored text that is no JSON makes the
    effect throw. *)
Lemma hydrate_malformed_counterexample :
  JSON.parse "{}" = Return (JObject [])
  /\ hydrate (stored "{}") initialValue = Return (JObject [])
  /\ JObject [] <> initialValue
  /\ hydrate (stored "oops") initialValue = Throw "SyntaxError".
Proof.
  repeat split; try reflexivity. discriminate.
Qed.

(** C2, amended: hydration leaves the default document in place, and
    raises nothing, when no text or the empty text is stored; any other
    stored text is parsed, and what the parser returns becomes the
    document unchecked, while what it throws reaches the caller. *)
Theorem hydrate_installs_what_parses (localStorage : Storage) :
  (localStorage "journal-content" = None
   \/ localStorage "journal-content" = Some "" ->
   hydrate localStorage initialValue = Return initialValue)
  /\ (forall s, localStorage "journal-content" = Some s -> s <> "" ->
      hydrate localStorage initialValue = JSON.parse s).
Proof.
  unfold hydrate. split.
  - intros [-> | ->]; reflexivity.
  - intros s -> Hs. unfold truthy_string.
    destruct (s =? "") eqn:E.
    + apply String.eqb_eq in E. contradiction.
    + simpl. destruct (JSON.parse s); reflexivity.
Qed.

Lemma hydrate_installs_witness :
  hydrate (stored "[1,2]") initialValue
  = Return (JArray [JNumber "1"; JNumber "2"]).
Proof.
  rewrite (proj2 (hydrate_installs_what_parses (stored "[1,2]")) "[1,2]").
  - reflexivity.
  - reflexivity.
  - discriminate.
Defined.

(** ** Queries *)

(** C10: without a selection no block type is active, whatever the
    document, and the heading label is [Normal]; both are plain
    values, nothing is thrown. *)
Theorem no_selection_nothing_active (e : BaseEditor) :
  selection e = None ->
  (forall format, isBlockActive e format = false)
  /\ getCurrentHeading e = "Normal".
Proof.
  intros H. assert (A : forall format, isBlockActive e format = false).
  { intros format. unfold isBlockActive. rewrite H. reflexivity. }
  split; [exact A|]. unfold getCurrentHeading. rewrite !A. reflexivity.
Qed.

Lemma no_selection_witness :
  isBlockActive (mkEditor defaultValue None None) "paragraph" = false
  /\ getCurrentHeading (mkEditor defaultValue None None) = "Normal".
Proof.
  split.
  - apply (no_selection_nothing_active (mkEditor defaultValue None None)).
    reflexivity.
  - apply (no_selection_nothing_active (mkEditor defaultValue None None)).
    reflexivity.
Defined.

Lemma some_match_iff (A : Type) (f : A -> bool) (l : list A) :
  match filter f l with [] => false | _ :: _ => true end = true
  <-> exists x, In x l /\ f x = true.
Proof.
  split.
  - destruct (filter f l) as [|x l'] eqn:E; [discriminate|]. intros _.
    exists x. apply filter_In. rewrite E. left. reflexivity.
  - intros [x Hx]. apply filter_In in Hx.
    destruct (filter f l); [destruct Hx | reflexivity].
Qed.

Lemma isBlockActive_iff e t : isBlockActive e t = true <-> inUnhungRange e t.
Proof.
  unfold isBlockActive, inUnhungRange.
  destruct (selection e) as [sel|].
  2:{ split; [discriminate|]. intros [? [? [? [H _]]]]. discriminate. }
  rewrite nodes_all, some_match_iff. split.
  - intros [[n p] [I M]].
    cbn [fst] in *. apply andb_prop in M. destruct M as [M1 M2].
    exists sel, n, p. split; [reflexivity|]. split.
    + rewrite nodes_all. apply filter_In. split; assumption.
    + destruct (type_of n) as [t'|]; [|discriminate]. simpl in M2.
      apply String.eqb_eq in M2. subst. reflexivity.
  - intros [sel' [n [p [S [I T]]]]]. injection S as <-. exists (n, p).
    rewrite nodes_all in I.
    apply filter_In in I. destruct I as [I M].
    split; [exact I|]. cbn [fst] in *. rewrite M, T. simpl.
    apply String.eqb_refl.
Qed.

Lemma isBlockActive_false_iff e t :
  isBlockActive e t = false <-> ~ inUnhungRange e t.
Proof.
  rewrite <- isBlockActive_iff.
  destruct (isBlockActive e t); split; intros H; congruence.
Qed.

(** C8 as stated fails: with the anchor in a paragraph and the focus in
    a first-level heading below it, the label is [H1], while the block
    above the anchor is a plain paragraph. *)
Lemma getCurrentHeading_counterexample :
  getCurrentHeading
    (mkEditor
       [ElementNode "paragraph" None [TextNode (plain "a")];
        ElementNode "heading-one" None [TextNode (plain "b")]]
       (Some (mkRange (mkPoint [0; 0] 0) (mkPoint [1; 0] 1))) None)
  = "H1"
  /\ spec_currentBlockLabel
       (mkEditor
          [ElementNode "paragraph" None [TextNode (plain "a")];
           ElementNode "heading-one" None [TextNode (plain "b")]]
          (Some (mkRange (mkPoint [0; 0] 0) (mkPoint [1; 0] 1))) None)
     = "Normal".
Proof. split; reflexivity. Qed.

(** C8, amended: the label is one of [Normal], [H1], [H2], [H3],
    checked in the order H1, H2, H3, Normal, each against all the
    blocks of the unhung selection range: [H1] when some block of the
    range is a first-level heading, else [H2] when some block is a
    second-level heading, else [H3] when some block is a third-level
    heading, else [Normal]. *)
Theorem getCurrentHeading_priority (e : BaseEditor) :
  (getCurrentHeading e = "H1" <-> inUnhungRange e "heading-one")
  /\ (getCurrentHeading e = "H2" <->
      ~ inUnhungRange e "heading-one" /\ inUnhungRange e "heading-two")
  /\ (getCurrentHeading e = "H3" <->
      ~ inUnhungRange e "heading-one" /\ ~ inUnhungRange e "heading-two"
      /\ inUnhungRange e "heading-three")
  /\ (getCurrentHeading e = "Normal" <->
      ~ inUnhungRange e "heading-one" /\ ~ inUnhungRange e "heading-two"
      /\ ~ inUnhungRange e "heading-three").
Proof.
  rewrite <- !isBlockActive_false_iff, <- !isBlockActive_iff.
  unfold getCurrentHeading.
  destruct (isBlockActive e "heading-one"),
           (isBlockActive e "heading-two"),
           (isBlockActive e "heading-three");
    repeat split; intros; try discriminate; try reflexivity;
    repeat match goal with H : _ /\ _ |- _ => destruct H end;
    try discriminate.
Qed.

(** ** Alignment *)

(** C1 as stated fails: over a right-aligned paragraph and an unaligned
    one, [toggleAlign "right"] clears the first and leaves the second
    unaligned, though its alignment differed from the direction. *)
Lemma toggleAlign_counterexample :
  In [1]
    (map snd
       (Editor.nodes
          (mkEditor
             [ElementNode "paragraph" (Some "right") [TextNode (plain "a")];
              ElementNode "paragraph" None [TextNode (plain "b")]]
             (Some (mkRange (mkPoint [0; 0] 0) (mkPoint [1; 0] 1))) None)
          (Some (mkRange (mkPoint [0; 0] 0) (mkPoint [1; 0] 1)))
          SlateElement.isElement All))
  /\ children
       (toggleAlign
          (mkEditor
             [ElementNode "paragraph" (Some "right") [TextNode (plain "a")];
              ElementNode "paragraph" None [TextNode (plain "b")]]
             (Some (mkRange (mkPoint [0; 0] 0) (mkPoint [1; 0] 1))) None)
          "right")
     = [ElementNode "paragraph" None [TextNode (plain "a")];
        ElementNode "paragraph" None [TextNode (plain "b")]].
Proof. split; [right; left; reflexivity | reflexivity]. Qed.

(** C1, amended: [toggleAlign] computes one value for the whole
    selection and gives it to every lowest block of the unhung
    selection range.  [isAlignActive] holds exactly when some element
    of the selection range already has the direction; the alignment is
    then cleared on all those blocks, and it is set to the direction
    on all of them otherwise.  Every other element keeps its
    alignment, every element keeps its type, and every text is left as
    it is. *)
Theorem toggleAlign_sets_one_value (e : BaseEditor) (a : string)
    (sel : Range) :
  selection e = Some sel ->
  (isAlignActive e a = true <->
   exists n q,
     In (n, q) (Editor.nodes e (Some sel) SlateElement.isElement All)
     /\ align_of n = Some a)
  /\ forall p n,
       Node.get (children e) p = Some n ->
       match n with
       | TextNode t =>
           Node.get (children (toggleAlign e a)) p = Some (TextNode t)
       | ElementNode t al ch =>
           exists ch',
             Node.get (children (toggleAlign e a)) p
             = Some (ElementNode t
                       (if path_in p
                             (map snd
                                (Editor.nodes e
                                   (Some (Editor.unhangRange e sel))
                                   SlateElement.isElement Lowest))
                        then (if isAlignActive e a then None else Some a)
                        else al)
                       ch')
       end.
Proof.
  intros Hs. split.
  - unfold isAlignActive. rewrite Hs, nodes_all, some_match_iff. split.
    + intros [[n q] [I M]].
      cbn [fst] in *. apply andb_prop in M. destruct M as [M1 M2].
      exists n, q. split.
      * rewrite nodes_all. apply filter_In. split; assumption.
      * destruct (align_of n) as [a'|]; [|discriminate]. simpl in M2.
        apply String.eqb_eq in M2. subst. reflexivity.
    + intros [n [q [I A]]]. exists (n, q).
      rewrite nodes_all in I.
      apply filter_In in I. destruct I as [I M].
      split; [exact I|]. cbn [fst] in *. rewrite M, A. simpl.
      apply String.eqb_refl.
  - intros p n Hg. unfold toggleAlign, Transforms.setNodes. rewrite Hs.
    cbn [andb children].
    rewrite get_update_list, Hg. cbn [option_map app].
    destruct n as [t | t al ch].
    + rewrite update_node_text. destruct (path_in p _); reflexivity.
    + rewrite update_set_element. eexists.
      destruct (path_in p _); reflexivity.
Qed.

Lemma toggleAlign_witness :
  isAlignActive
    (mkEditor
       [ElementNode "paragraph" (Some "center") [TextNode (plain "a")];
        ElementNode "paragraph" None [TextNode (plain "b")]]
       (Some (mkRange (mkPoint [0; 0] 0) (mkPoint [1; 0] 1))) None)
    "right"
  = false
  /\ exists ch',
       Node.get
         (children
            (toggleAlign
               (mkEditor
                  [ElementNode "paragraph" (Some "center")
                     [TextNode (plain "a")];
                   ElementNode "paragraph" None [TextNode (plain "b")]]
                  (Some (mkRange (mkPoint [0; 0] 0) (mkPoint [1; 0] 1)))
                  None)
               "right"))
         [0]
       = Some (ElementNode "paragraph" (Some "right") ch').
Proof.
  split; [reflexivity|].
  apply (proj2
           (toggleAlign_sets_one_value
              (mkEditor
                 [ElementNode "paragraph" (Some "center")
                    [TextNode (plain "a")];
                  ElementNode "paragraph" None [TextNode (plain "b")]]
                 (Some (mkRange (mkPoint [0; 0] 0) (mkPoint [1; 0] 1))) None)
              "right" (mkRange (mkPoint [0; 0] 0) (mkPoint [1; 0] 1))
              eq_refl)
           [0]
           (ElementNode "paragraph" (Some "center") [TextNode (plain "a")])).
  reflexivity.
Defined.

(** ** Marks *)

Lemma marks_get_rest k t : marks_get (Editor.rest t) k = get_mark k t.
Proof. destruct k; reflexivity. Qed.

Lemma get_set_mark k v t : get_mark k (set_mark k v t) = v.
Proof. destruct k; reflexivity. Qed.

Lemma set_set_mark k v w t : set_mark k w (set_mark k v t) = set_mark k w t.
Proof. destruct k; reflexivity. Qed.

Lemma set_mark_same k t : set_mark k (get_mark k t) t = t.
Proof. destruct k, t; reflexivity. Qed.

Lemma length_zero s : String.length s = 0 -> s = "".
Proof. destruct s; [reflexivity | discriminate]. Qed.

Lemma point_equals_refl a : Point.equals a a = true.
Proof.
  unfold Point.equals. rewrite Nat.eqb_refl, equals_refl. reflexivity.
Qed.

Lemma range_equals_refl r : Range.equals r r = true.
Proof. unfold Range.equals. rewrite !point_equals_refl. reflexivity. Qed.

(** ** The letters of the document under [Editor.addMark] *)

Lemma explode_app k l1 l2 :
  explode_doc k (l1 ++ l2) = explode_doc k l1 ++ explode_doc k l2.
Proof. apply flat_map_app. Qed.

Lemma explode_update_children_at k f :
  (forall l, explode_doc k (f l) = explode_doc k l) ->
  forall p l,
    explode_doc k (Transforms.update_children_at p f l) = explode_doc k l.
Proof.
  intros Hf. induction p as [|i p IH]; intros l; [apply Hf|].
  cbn [Transforms.update_children_at].
  rewrite <- (firstn_skipn i l) at 3. rewrite !explode_app. f_equal.
  destruct (skipn i l) as [|[t | t a ch] l']; try reflexivity.
  change (ElementNode t a (Transforms.update_children_at p f ch) :: l')
    with ([ElementNode t a (Transforms.update_children_at p f ch)] ++ l').
  change (ElementNode t a ch :: l') with ([ElementNode t a ch] ++ l').
  rewrite !explode_app. f_equal.
  unfold explode_doc. cbn [flat_map letters app]. do 2 f_equal.
  apply IH.
Qed.

Lemma chars_take_drop n s :
  list_ascii_of_string (Transforms.str_take n s)
  ++ list_ascii_of_string (Transforms.str_drop n s)
  = list_ascii_of_string s.
Proof.
  revert s. induction n as [|n IH]; intros [|c s]; try reflexivity.
  cbn [Transforms.str_take Transforms.str_drop list_ascii_of_string app].
  f_equal. apply IH.
Qed.

Lemma chars_append s1 s2 :
  list_ascii_of_string (s1 ++ s2)
  = list_ascii_of_string s1 ++ list_ascii_of_string s2.
Proof.
  induction s1 as [|c s1 IH]; [reflexivity|].
  cbn [String.append list_ascii_of_string app]. f_equal. exact IH.
Qed.

Lemma letters_with_text k s t :
  letters k (TextNode (Transforms.with_text s t))
  = map (fun c =>
           TextNode (set_mark k None (Transforms.with_text (String c "") t)))
        (list_ascii_of_string s).
Proof. reflexivity. Qed.

Lemma with_text_same t : Transforms.with_text (text t) t = t.
Proof. destruct t; reflexivity. Qed.

Lemma nth_error_firstn_skipn (A : Type) (l : list A) i x :
  nth_error l i = Some x -> l = firstn i l ++ [x] ++ skipn (S i) l.
Proof.
  revert i. induction l as [|y l IH]; intros [|i] H; try discriminate.
  - injection H as ->. reflexivity.
  - cbn [firstn skipn app]. f_equal. apply IH. exact H.
Qed.

Lemma explode_split_child k i position l :
  explode_doc k (Transforms.split_child i position l) = explode_doc k l.
Proof.
  unfold Transforms.split_child.
  destruct (nth_error l i) as [[t | t a ch]|] eqn:E; try reflexivity.
  rewrite (nth_error_firstn_skipn _ l i _ E) at 3.
  rewrite !explode_app. f_equal. f_equal.
  unfold explode_doc. cbn [flat_map]. rewrite !app_nil_r.
  rewrite !letters_with_text, <- map_app, chars_take_drop.
  reflexivity.
Qed.

Lemma explode_split_text k l pt always l' :
  Transforms.split_text l pt always = Some l' ->
  explode_doc k l' = explode_doc k l.
Proof.
  unfold Transforms.split_text.
  destruct (Node.get l (path pt)) as [[t | t a ch]|]; try discriminate.
  destruct (always || _); [|discriminate].
  intros H. injection H as <-.
  apply explode_update_children_at. intros l0. apply explode_split_child.
Qed.

Lemma letters_set_mark k v t :
  letters k (TextNode (set_mark k v t)) = letters k (TextNode t).
Proof. destruct k; reflexivity. Qed.

Lemma letters_set_node k v n :
  letters k (set_node (PMark k v) n) = letters k n.
Proof.
  destruct n as [t | t a ch]; [|reflexivity]. apply letters_set_mark.
Qed.

Lemma letters_update k v T :
  forall n p,
    letters k (update_node T (set_node (PMark k v)) p n) = letters k n.
Proof.
  induction n as [t | ty a ch IH] using Descendant_ind; intros p.
  - rewrite update_node_text.
    destruct (path_in p T); [apply letters_set_node | reflexivity].
  - rewrite update_set_element. cbn [letters new_type new_align].
    replace (if path_in p T then ty else ty) with ty
      by (destruct (path_in p T); reflexivity).
    replace (if path_in p T then a else a) with a
      by (destruct (path_in p T); reflexivity).
    do 2 f_equal. generalize 0 as i.
    induction IH as [|c ch Hc _ IHl]; intros i; [reflexivity|].
    cbn [update_list flat_map]. rewrite Hc, IHl. reflexivity.
Qed.

Lemma explode_update_list k v T p l :
  forall i,
    explode_doc k (update_list T (set_node (PMark k v)) p i l)
    = explode_doc k l.
Proof.
  induction l as [|c l IH]; intros i; [reflexivity|].
  unfold explode_doc in *. cbn [update_list flat_map].
  rewrite IH, letters_update. reflexivity.
Qed.

Lemma removelast_nth_last (A : Type) (l : list A) x :
  nth_error l (List.length l - 1) = Some x -> l = removelast l ++ [x].
Proof.
  induction l as [|y l IH]; intros H; [discriminate|].
  destruct l as [|z l].
  - injection H as ->. reflexivity.
  - cbn [removelast app]. fold (removelast (z :: l)). f_equal. apply IH.
    cbn [List.length Nat.sub] in *. rewrite Nat.sub_0_r in *. exact H.
Qed.

Lemma option_bool_eqb_eq a b :
  Transforms.option_bool_eqb a b = true -> a = b.
Proof.
  destruct a as [[]|], b as [[]|]; intros H; try reflexivity; discriminate.
Qed.

Lemma marks_eqb_with_text t u s :
  Transforms.marks_eqb t u = true ->
  Transforms.with_text s t = Transforms.with_text s u.
Proof.
  unfold Transforms.marks_eqb, Transforms.with_text. intros H.
  repeat (apply andb_true_iff in H; destruct H as [H ?]).
  repeat match goal with
         | E : Transforms.option_bool_eqb _ _ = true |- _ =>
             apply option_bool_eqb_eq in E; rewrite E; clear E
         end.
  reflexivity.
Qed.

Lemma letters_empty k t : text t = "" -> letters k (TextNode t) = [].
Proof. intros E. cbn [letters]. rewrite E. reflexivity. Qed.

Lemma letters_merge k tp tc :
  Transforms.marks_eqb tc tp = true ->
  letters k (TextNode (Transforms.with_text (text tp ++ text tc) tp))
  = letters k (TextNode tp) ++ letters k (TextNode tc).
Proof.
  intros H. rewrite letters_with_text, chars_append, map_app.
  cbn [letters]. f_equal. apply map_ext. intros c.
  rewrite (marks_eqb_with_text tc tp _ H). reflexivity.
Qed.

Lemma explode_singleton k n : explode_doc k [n] = letters k n.
Proof. unfold explode_doc. cbn [flat_map]. apply app_nil_r. Qed.

Lemma explode_norm_step k done pt c :
  explode_doc k (fst (Transforms.norm_step (done, pt) c))
  = explode_doc k (done ++ [c]).
Proof.
  destruct pt as [j off]. unfold Transforms.norm_step.
  destruct c as [tc | t a ch]; [|reflexivity].
  destruct (nth_error done (List.length done - 1)) as [[tp | t a ch]|] eqn:E;
    try reflexivity.
  pose proof (removelast_nth_last _ _ _ E) as D.
  destruct (0 <? List.length done)%nat; [|reflexivity].
  destruct (Transforms.marks_eqb tc tp) eqn:M.
  - destruct (text tp =? "") eqn:Ep.
    + apply String.eqb_eq in Ep.
      destruct (negb _); cbn [andb fst].
      * rewrite D at 2. rewrite !explode_app, !explode_singleton.
        rewrite (letters_empty k tp Ep), app_nil_r. reflexivity.
      * rewrite D at 2. rewrite !explode_app, !explode_singleton.
        rewrite (letters_merge k tp tc M), app_assoc. reflexivity.
    + cbn [andb fst]. rewrite D at 2. rewrite !explode_app, !explode_singleton.
      rewrite (letters_merge k tp tc M), app_assoc. reflexivity.
  - destruct (text tp =? "") eqn:Ep.
    + apply String.eqb_eq in Ep. cbn [fst]. rewrite D at 2.
      rewrite !explode_app, !explode_singleton.
      rewrite (letters_empty k tp Ep), app_nil_r. reflexivity.
    + destruct (text tc =? "") eqn:Ec; [|reflexivity].
      apply String.eqb_eq in Ec. cbn [fst].
      rewrite explode_app, explode_singleton, (letters_empty k tc Ec).
      symmetry. apply app_nil_r.
Qed.

Lemma explode_norm_fold k ch :
  forall st,
    explode_doc k (fst (fold_left Transforms.norm_step ch st))
    = explode_doc k (fst st ++ ch).
Proof.
  induction ch as [|c ch IH]; intros [done pt].
  - cbn [fold_left fst]. rewrite app_nil_r. reflexivity.
  - cbn [fold_left]. rewrite IH, explode_app, explode_norm_step.
    cbn [fst]. rewrite <- explode_app, <- app_assoc. reflexivity.
Qed.

Lemma explode_normalize_children k l :
  explode_doc k (Transforms.normalize_children l) = explode_doc k l.
Proof. unfold Transforms.normalize_children. apply explode_norm_fold. Qed.

Lemma explode_normalize_block k e block :
  explode_doc k (children (Transforms.normalize_block e block))
  = explode_doc k (children e).
Proof.
  unfold Transforms.normalize_block.
  destruct (Node.get (children e) block) as [[t | t a ch]|]; try reflexivity.
  cbn [children]. apply explode_update_children_at.
  apply explode_normalize_children.
Qed.

Lemma explode_normalize k dirty :
  forall e,
    explode_doc k (children (Transforms.normalize e dirty))
    = explode_doc k (children e).
Proof.
  unfold Transforms.normalize.
  induction (nodup (list_eq_dec Nat.eq_dec) dirty) as [|b l IH]; intros e;
    [reflexivity|].
  cbn [fold_left]. rewrite IH.
  induction (match Node.get (children e) b with
             | Some n => List.length (children_of n)
             | None => 0
             end) as [|n IHn]; [reflexivity|].
  cbn [Nat.iter nat_rect]. rewrite explode_normalize_block. exact IHn.
Qed.

Lemma explode_set_split k v e m sel at_ :
  explode_doc k (children (Transforms.set_split e (PMark k v) m sel at_))
  = explode_doc k (children e).
Proof.
  unfold Transforms.set_split.
  destruct (Range.isCollapsed at_ && _); [reflexivity|].
  destruct (Range.edges at_) as [start end_].
  destruct (Transforms.split_text (children e) end_ _) as [ch1|] eqn:E1.
  - pose proof (explode_split_text k _ _ _ _ E1) as H1.
    destruct (Transforms.split_text ch1 start _) as [ch2|] eqn:E2.
    + pose proof (explode_split_text k _ _ _ _ E2) as H2.
      rewrite explode_normalize. cbn [children].
      rewrite explode_update_list, H2. exact H1.
    + rewrite explode_normalize. cbn [children].
      rewrite explode_update_list. exact H1.
  - destruct (Transforms.split_text (children e) start _) as [ch2|] eqn:E2.
    + pose proof (explode_split_text k _ _ _ _ E2) as H2.
      rewrite explode_normalize. cbn [children].
      rewrite explode_update_list. exact H2.
    + rewrite explode_normalize. cbn [children].
      apply explode_update_list.
Qed.

Lemma explode_addMark k v e :
  explode_doc k (children (editor_addMark e k v)) = explode_doc k (children e).
Proof.
  unfold editor_addMark.
  destruct (selection e) as [sel|] eqn:S; [|reflexivity].
  destruct (Range.isExpanded sel); [|reflexivity].
  unfold Transforms.setNodes. rewrite S. apply explode_set_split.
Qed.

Lemma explode_toggleFormat k e :
  explode_doc k (children (toggleFormat e k)) = explode_doc k (children e).
Proof. unfold toggleFormat. apply explode_addMark. Qed.

Lemma toggleFormat_collapsed e sel k :
  selection e = Some sel -> Range.isCollapsed sel = true ->
  children (toggleFormat e k) = children e
  /\ selection (toggleFormat e k) = Some sel.
Proof.
  intros H C. unfold toggleFormat, editor_addMark, Range.isExpanded.
  rewrite H, C. split; reflexivity.
Qed.

(** ** Blocks made of leaves *)

Lemma filter_nil (A : Type) (f : A -> bool) l :
  (forall x, In x l -> f x = false) -> filter f l = [].
Proof.
  induction l as [|x l IH]; intros H; [reflexivity|]. simpl.
  rewrite (H x) by (left; reflexivity). apply IH. intros y Hy. apply H.
  right. exact Hy.
Qed.

Lemma filter_all (A : Type) (f : A -> bool) l :
  (forall x, In x l -> f x = true) -> filter f l = l.
Proof.
  induction l as [|x l IH]; intros H; [reflexivity|]. simpl.
  rewrite (H x) by (left; reflexivity). f_equal. apply IH. intros y Hy.
  apply H. right. exact Hy.
Qed.

Lemma filter_andb (A : Type) (f g : A -> bool) l :
  filter (fun x => f x && g x) l = filter g (filter f l).
Proof.
  induction l as [|x l IH]; [reflexivity|]. simpl.
  destruct (f x); simpl; [destruct (g x)|]; rewrite IH; reflexivity.
Qed.

Lemma in_span_app p from to q :
  Editor.in_span (p ++ from) (p ++ to) (p ++ q) = Editor.in_span from to q.
Proof.
  unfold Editor.in_span, Path.isBefore, Path.isAfter.
  rewrite !compare_app. reflexivity.
Qed.

Lemma in_span_cons a fa b fb j r :
  Editor.in_span (a :: fa) (b :: fb) (j :: r)
  = if ((j <? a) || (b <? j))%nat then false
    else (if (j =? a)%nat then negb (Path.isBefore r fa) else true)
         && (if (j =? b)%nat then negb (Path.isAfter r fb) else true).
Proof.
  unfold Editor.in_span, Path.isBefore, Path.isAfter. simpl.
  destruct (Nat.compare_spec j a), (Nat.compare_spec j b); subst;
    repeat match goal with
    | |- context [(?u <? ?v)%nat] =>
        let E := fresh in
        destruct (Nat.ltb_spec u v) as [E | E]; try lia
    | |- context [(?u =? ?v)%nat] =>
        let E := fresh in
        destruct (Nat.eqb_spec u v) as [E | E]; try lia
    end; simpl; rewrite ?andb_true_r; try reflexivity;
    try (destruct (Path.compare r fa); reflexivity).
Qed.

(** The children before the first index of a span, and those after its
    last index, are outside it, with everything below them. *)
Lemma span_before p l :
  forall i a fa to,
    i + List.length l <= a ->
    filter (fun x => Editor.in_span (p ++ a :: fa) to (snd x))
      (Node.entries_list p i l) = [].
Proof.
  intros i a fa to H. apply filter_nil. intros x Hx.
  apply entries_list_paths in Hx. destruct Hx as [j [r [Hr Hj]]].
  rewrite Hr. unfold Editor.in_span, Path.isBefore.
  rewrite compare_app, compare_cons_lt by lia. reflexivity.
Qed.

Lemma span_after p l :
  forall i b fb from,
    b < i ->
    filter (fun x => Editor.in_span from (p ++ b :: fb) (snd x))
      (Node.entries_list p i l) = [].
Proof.
  intros i b fb from H. apply filter_nil. intros x Hx.
  apply entries_list_paths in Hx. destruct Hx as [j [r [Hr Hj]]].
  rewrite Hr. unfold Editor.in_span, Path.isAfter.
  rewrite compare_app, compare_cons_gt by lia. apply andb_false_r.
Qed.

(** The elements among the entries of leafy blocks are the blocks. *)
Lemma entries_leaves p i ts :
  filter (fun x => SlateElement.isElement (fst x))
    (Node.entries_list p i (map TextNode ts)) = [].
Proof.
  revert i. induction ts as [|t ts IH]; intros i; [reflexivity|].
  simpl. apply IH.
Qed.

Lemma elements_of_leafy p l :
  Forall leafy l ->
  forall i,
    filter (fun x => SlateElement.isElement (fst x)) (Node.entries_list p i l)
    = block_entries p i l.
Proof.
  induction 1 as [|c l [t [a [ts [_ ->]]]] _ IH]; intros i; [reflexivity|].
  cbn [Node.entries_list block_entries].
  rewrite filter_app, entries_node_element.
  cbn [filter fst SlateElement.isElement].
  rewrite entries_leaves, IH. reflexivity.
Qed.

Lemma block_entries_in p l :
  forall i x, In x (block_entries p i l) ->
    exists j, snd x = p ++ [j] /\ i <= j < i + List.length l.
Proof.
  induction l as [|c l IH]; intros i x H; [destruct H|].
  destruct H as [<- | H].
  - exists i. simpl. split; [reflexivity | lia].
  - apply IH in H. destruct H as [j [Hj Hr]]. exists j. simpl.
    split; [exact Hj | lia].
Qed.

(** The elements in a span that starts in the first and ends in the
    last of the leafy children [mid]. *)
Lemma span_elements p pre mid post fa fb :
  Forall leafy mid -> mid <> [] ->
  filter (fun x => SlateElement.isElement (fst x))
    (filter (fun x =>
               Editor.in_span (p ++ List.length pre :: fa)
                 (p ++ (List.length pre + List.length mid - 1) :: fb)
                 (snd x))
       (Node.entries_list p 0 (pre ++ mid ++ post)))
  = block_entries p (List.length pre) mid.
Proof.
  intros L N.
  assert (M : List.length mid <> 0) by (destruct mid; [congruence | discriminate]).
  rewrite !entries_list_app, !filter_app.
  rewrite (span_before p pre 0 (List.length pre) fa) by lia.
  rewrite (span_after p post (0 + List.length pre + List.length mid)
             (List.length pre + List.length mid - 1) fb) by lia.
  rewrite app_nil_r. cbn [app filter].
  rewrite filter_comm, elements_of_leafy by exact L.
  apply filter_all. intros x Hx. apply block_entries_in in Hx.
  destruct Hx as [j [-> Hj]]. rewrite in_span_app, in_span_cons.
  destruct (Nat.ltb_spec j (List.length pre)); [lia|].
  destruct (Nat.ltb_spec (List.length pre + List.length mid - 1) j); [lia|].
  cbn [orb]. unfold Path.isBefore, Path.isAfter. simpl.
  destruct (j =? List.length pre)%nat,
           (j =? List.length pre + List.length mid - 1)%nat; reflexivity.
Qed.

(** ** Hanging ranges *)

Lemma unhang_not_hanging e sel :
  hanging sel = false -> Editor.unhangRange e sel = sel.
Proof.
  unfold hanging, Editor.unhangRange.
  destruct (Range.edges sel) as [S E]. cbn [fst snd].
  destruct (offset S =? 0)%nat, (offset E =? 0)%nat,
           (Range.isCollapsed sel), (Path.hasPrevious (path E));
    simpl; intros H; try reflexivity; discriminate.
Qed.

(** The end of a hanging range moves to the end of the text before the
    last one of the range. *)
Lemma unhang_found e sel Y tprev pprev elast :
  hanging sel = true ->
  filter (fun x => Editor.in_span (path (fst (Range.edges sel)))
                     (path (snd (Range.edges sel))) (snd x))
    (Node.texts (children e))
  = Y ++ [(TextNode tprev, pprev); elast] ->
  Path.isBefore pprev
    (Editor.block_above (path (snd (Range.edges sel)))) = true ->
  Editor.unhangRange e sel
  = mkRange (fst (Range.edges sel))
      (mkPoint pprev (String.length (text tprev))).
Proof.
  unfold hanging, Editor.unhangRange.
  destruct (Range.edges sel) as [S E]. cbn [fst snd].
  intros H HY HB.
  destruct (offset S =? 0)%nat, (offset E =? 0)%nat,
           (Range.isCollapsed sel), (Path.hasPrevious (path E));
    try discriminate.
  cbn [negb orb]. rewrite HY, rev_app_distr. cbn [rev app tl find fst snd].
  rewrite HB, orb_true_r. reflexivity.
Qed.

Lemma filter_cons_true (A : Type) (f : A -> bool) x l :
  f x = true -> filter f (x :: l) = x :: filter f l.
Proof. intros H. simpl. rewrite H. reflexivity. Qed.

Lemma filter_cons_false (A : Type) (f : A -> bool) x l :
  f x = false -> filter f (x :: l) = filter f l.
Proof. intros H. simpl. rewrite H. reflexivity. Qed.

Lemma filter_snoc (A : Type) (f : A -> bool) l x :
  f x = true -> filter f (l ++ [x]) = filter f l ++ [x].
Proof. intros H. rewrite filter_app. simpl. rewrite H. reflexivity. Qed.

Lemma entries_texts_kept p i ts :
  filter (fun x => Text.isText (fst x))
    (Node.entries_list p i (map TextNode ts))
  = Node.entries_list p i (map TextNode ts).
Proof.
  apply filter_all. revert i. induction ts as [|t ts IH]; intros i x H.
  - destruct H.
  - simpl in H. destruct H as [<- | H]; [reflexivity|]. apply (IH _ _ H).
Qed.

(** The texts of a span that starts at [p ++ [a; x]] and ends at the
    start of the block [B2], which follows the block [B1]: the last two
    are the last text of [B1] and the first text of [B2]. *)
Lemma texts_span_hanging p pre mid0 t1 a1 ts1 tprev t2 a2 tb0 ts2 post x :
  (mid0 = [] -> x <= List.length ts1) ->
  exists Y,
    filter (fun e =>
              Editor.in_span (p ++ [List.length pre; x])
                (p ++ [List.length pre + List.length mid0 + 1; 0]) (snd e))
      (filter (fun e => Text.isText (fst e))
         (Node.entries_list p 0
            (pre ++ mid0
             ++ [ElementNode t1 a1 (map TextNode (ts1 ++ [tprev]));
                 ElementNode t2 a2 (map TextNode (tb0 :: ts2))]
             ++ post)))
    = Y ++ [(TextNode tprev,
             p ++ [List.length pre + List.length mid0; List.length ts1]);
            (TextNode tb0,
             p ++ [List.length pre + List.length mid0 + 1; 0])].
Proof.
  intros Hx.
  set (a := List.length pre). set (b := a + List.length mid0 + 1).
  match goal with
  | |- context [filter ?f (filter ?g _)] => set (inS := f); set (isT := g)
  end.
  rewrite (app_assoc pre mid0), entries_list_app.
  rewrite length_app. fold a. cbn [app Node.entries_list].
  replace (0 + (a + List.length mid0)) with (b - 1) by (unfold b; lia).
  replace (S (b - 1)) with b by (unfold b; lia).
  rewrite !filter_app.
  (* after the last block *)
  assert (P3 : filter inS (filter isT (Node.entries_list p (S b) post)) = []).
  { unfold inS, isT. rewrite filter_comm.
    rewrite (span_after p post (S b) b [0]) by lia. reflexivity. }
  (* the last block *)
  assert (P2 : filter inS (filter isT
                 (Node.entries_node (p ++ [b])
                    (ElementNode t2 a2 (map TextNode (tb0 :: ts2)))))
               = [(TextNode tb0, p ++ [b; 0])]).
  { rewrite entries_node_element. cbn [map Node.entries_list].
    rewrite entries_node_text. cbn [app].
    rewrite (filter_cons_false _ isT) by reflexivity.
    rewrite (filter_cons_true _ isT) by reflexivity.
    rewrite <- (app_assoc p [b] [0]). cbn [app].
    rewrite (filter_cons_true _ inS).
    - f_equal. unfold inS, isT. rewrite filter_comm.
      replace (p ++ [b; 0]) with ((p ++ [b]) ++ [0])
        by (rewrite <- app_assoc; reflexivity).
      rewrite (span_after (p ++ [b]) (map TextNode ts2) 1 0 []) by lia.
      reflexivity.
    - unfold inS. cbn [snd]. rewrite in_span_app, in_span_cons.
      destruct (Nat.ltb_spec b a); [unfold b in *; lia|].
      rewrite Nat.ltb_irrefl, Nat.eqb_refl.
      destruct (Nat.eqb_spec b a); [unfold b in *; lia|].
      unfold Path.isAfter. rewrite compare_refl. reflexivity. }
  (* the block before it *)
  assert (P1 : exists Z,
             filter inS (filter isT
               (Node.entries_node (p ++ [b - 1])
                  (ElementNode t1 a1 (map TextNode (ts1 ++ [tprev])))))
             = Z ++ [(TextNode tprev, p ++ [b - 1; List.length ts1])]).
  { rewrite entries_node_element.
    rewrite (filter_cons_false _ isT) by reflexivity.
    rewrite map_app, entries_list_app. cbn [map Node.entries_list].
    rewrite entries_node_text, app_nil_r, length_map, Nat.add_0_l.
    rewrite <- (app_assoc p [b - 1] [List.length ts1]). cbn [app].
    rewrite (filter_snoc _ isT) by reflexivity.
    rewrite (filter_snoc _ inS).
    - eexists. reflexivity.
    - unfold inS. cbn [snd]. rewrite in_span_app, in_span_cons.
      destruct (Nat.ltb_spec (b - 1) a); [unfold b in *; lia|].
      destruct (Nat.ltb_spec b (b - 1)); [unfold b in *; lia|].
      destruct (Nat.eqb_spec (b - 1) b); [unfold b in *; lia|].
      cbn [orb]. rewrite andb_true_r.
      destruct (Nat.eqb_spec (b - 1) a) as [Eq | Ne]; [|reflexivity].
      assert (M0 : mid0 = []).
      { destruct mid0; [reflexivity|]. unfold b in Eq. simpl in Eq. lia. }
      specialize (Hx M0). unfold Path.isBefore. simpl.
      destruct (Nat.compare_spec (List.length ts1) x); try reflexivity. lia. }
  destruct P1 as [Z P1].
  exists (filter inS (filter isT (Node.entries_list p 0 (pre ++ mid0))) ++ Z).
  rewrite P1, P2, P3, app_nil_r.
  rewrite <- !app_assoc. cbn [app].
  replace (a + List.length mid0) with (b - 1) by (unfold b; lia).
  reflexivity.
Qed.

(** ** Updates of whole blocks *)

Lemma update_list_app T f p l1 l2 :
  forall i,
    update_list T f p i (l1 ++ l2)
    = update_list T f p i l1 ++ update_list T f p (i + List.length l1) l2.
Proof.
  induction l1 as [|c l1 IH]; intros i; simpl.
  - rewrite Nat.add_0_r. reflexivity.
  - rewrite IH. do 3 f_equal. lia.
Qed.

(** When every target is a child of [p], the update of a child is the
    update of that node alone. *)
Lemma update_node_top T f p j c :
  (forall q, In q T -> List.length q = S (List.length p)) ->
  update_node T f (p ++ [j]) c
  = if path_in (p ++ [j]) T then f c else c.
Proof.
  intros HT. destruct c as [t | t a ch].
  - apply update_node_text.
  - rewrite update_node_element.
    rewrite update_list_id; [reflexivity|].
    intros x Hx I. exfalso. apply path_in_iff in I. apply HT in I.
    apply entries_list_paths in Hx. destruct Hx as [j' [r [Hr _]]].
    rewrite Hr in I. rewrite !length_app in I. simpl in I. lia.
Qed.

Lemma update_list_outside T f p l :
  (forall q, In q T -> List.length q = S (List.length p)) ->
  forall i,
    (forall j, i <= j < i + List.length l -> path_in (p ++ [j]) T = false) ->
    update_list T f p i l = l.
Proof.
  intros HT. induction l as [|c l IH]; intros i H; [reflexivity|].
  simpl. rewrite update_node_top by exact HT.
  rewrite H by (simpl; lia). f_equal. apply IH. intros j Hj. apply H.
  simpl. lia.
Qed.

Lemma update_list_inside T f p l :
  (forall q, In q T -> List.length q = S (List.length p)) ->
  forall i,
    (forall j, i <= j < i + List.length l -> path_in (p ++ [j]) T = true) ->
    update_list T f p i l = map f l.
Proof.
  intros HT. induction l as [|c l IH]; intros i H; [reflexivity|].
  simpl. rewrite update_node_top by exact HT.
  rewrite H by (simpl; lia). f_equal. apply IH. intros j Hj. apply H.
  simpl. lia.
Qed.

Lemma block_paths p l :
  forall i,
    map snd (block_entries p i l)
    = map (fun j => p ++ [j]) (seq i (List.length l)).
Proof.
  induction l as [|c l IH]; intros i; [reflexivity|].
  simpl. rewrite IH. reflexivity.
Qed.

Lemma block_path_in p l i j :
  path_in (p ++ [j]) (map snd (block_entries p i l))
  = (i <=? j)%nat && (j <? i + List.length l)%nat.
Proof.
  rewrite block_paths.
  destruct (path_in _ _) eqn:E.
  - apply path_in_iff in E. apply in_map_iff in E.
    destruct E as [j' [Ej Hj]]. apply app_inv_head in Ej.
    injection Ej as ->. apply in_seq in Hj. symmetry.
    apply andb_true_intro. split; [apply Nat.leb_le | apply Nat.ltb_lt]; lia.
  - destruct (Nat.leb_spec i j); [|reflexivity].
    destruct (Nat.ltb_spec j (i + List.length l)); [|reflexivity].
    exfalso. assert (I : path_in (p ++ [j])
                           (map (fun j0 => p ++ [j0]) (seq i (List.length l)))
                         = true).
    { apply path_in_iff. apply in_map_iff. exists j. split; [reflexivity|].
      apply in_seq. lia. }
    congruence.
Qed.

Lemma block_paths_length p l i q :
  In q (map snd (block_entries p i l)) ->
  List.length q = S (List.length p).
Proof.
  rewrite block_paths. intros H. apply in_map_iff in H.
  destruct H as [j [<- _]]. rewrite length_app. simpl. lia.
Qed.

(** Setting a property on [n] consecutive children, from index [a]. *)
Lemma update_blocks f p pre mid rest :
  update_list (map snd (block_entries p (List.length pre) mid)) f p 0
    (pre ++ mid ++ rest)
  = pre ++ map f mid ++ rest.
Proof.
  set (T := map snd (block_entries p (List.length pre) mid)).
  assert (HT : forall q, In q T -> List.length q = S (List.length p))
    by (intros q; apply block_paths_length).
  rewrite !update_list_app.
  rewrite (update_list_outside T f p pre HT).
  2:{ intros j Hj. unfold T. rewrite block_path_in.
      destruct (Nat.leb_spec (List.length pre) j); [lia | reflexivity]. }
  rewrite (update_list_inside T f p mid HT).
  2:{ intros j Hj. unfold T. rewrite block_path_in.
      apply andb_true_intro.
      split; [apply Nat.leb_le | apply Nat.ltb_lt]; lia. }
  rewrite (update_list_outside T f p rest HT).
  2:{ intros j Hj. unfold T. rewrite block_path_in.
      destruct (Nat.ltb_spec j (List.length pre + List.length mid));
        [lia | apply andb_false_r]. }
  reflexivity.
Qed.

Lemma block_entries_sorted p l :
  forall i, StronglySorted before (block_entries p i l).
Proof.
  induction l as [|c l IH]; intros i; [constructor|].
  simpl. constructor; [apply IH|].
  apply Forall_forall. intros x Hx. apply block_entries_in in Hx.
  destruct Hx as [j [Hj Hr]]. unfold before. cbn [snd]. rewrite Hj.
  rewrite compare_app. apply compare_cons_lt. lia.
Qed.

(** ** A selection over consecutive leafy blocks *)

Lemma edges_mk S E :
  Point.isAfter S E = false -> Range.edges (mkRange S E) = (S, E).
Proof.
  intros H. unfold Range.edges, Range.isBackward. simpl. rewrite H.
  reflexivity.
Qed.

Lemma edges_ordered sel :
  Point.isAfter (fst (Range.edges sel)) (snd (Range.edges sel)) = false.
Proof.
  destruct (Range.edges sel) as [S E] eqn:Ed. cbn [fst snd].
  apply edges_cases in Ed. destruct Ed as [[_ H] | [_ H]]; [exact H|].
  unfold Point.isAfter in *. rewrite point_compare_antisym.
  destruct (Point.compare E S); try discriminate. reflexivity.
Qed.

Lemma collapsed_edges sel :
  fst (Range.edges sel) = snd (Range.edges sel) ->
  Range.isCollapsed sel = true.
Proof.
  destruct (Range.edges sel) as [S E] eqn:Ed. cbn [fst snd]. intros <-.
  apply edges_cases in Ed.
  destruct Ed as [[-> _] | [-> _]]; apply point_equals_refl.
Qed.

Lemma hasPrevious_app p i j :
  Path.hasPrevious (p ++ [i; j]) = (0 <? j)%nat.
Proof.
  unfold Path.hasPrevious. rewrite rev_app_distr. reflexivity.
Qed.

Lemma block_above_app p i j : Editor.block_above (p ++ [i; j]) = p ++ [i].
Proof.
  unfold Editor.block_above, Path.parent.
  destruct p as [|a [|b p]]; try reflexivity.
  - change ((a :: b :: p) ++ [i; j]) with (a :: b :: (p ++ [i; j])).
    cbv iota.
    replace (a :: b :: p ++ [i; j]) with ((a :: b :: p ++ [i]) ++ [j]).
    + apply removelast_last.
    + simpl. rewrite <- app_assoc. reflexivity.
Qed.

Lemma get_leaf t a ts l z :
  Node.get (ElementNode t a (map TextNode ts) :: l) [0; z]
  = option_map TextNode (nth_error ts z).
Proof. simpl. apply nth_error_map. Qed.

Lemma get_last_block mid0 B z :
  Node.get (mid0 ++ [B]) [List.length (mid0 ++ [B]) - 1; z]
  = Node.get [B] [0; z].
Proof.
  rewrite length_app. simpl.
  replace (List.length mid0 + 1 - 1) with (List.length mid0) by lia.
  induction mid0 as [|c mid0 IH]; [reflexivity|].
  simpl List.length. rewrite <- IH. reflexivity.
Qed.

Lemma leafy_last ts :
  ts <> [] -> exists (ts1 : list CustomText) tprev, ts = ts1 ++ [tprev].
Proof.
  intros H. destruct (exists_last H) as [ts1 [tprev E]]. eauto.
Qed.

(** Where the unhung selection starts and ends. *)
Lemma unhung_blocks e sel p pre mid post :
  selectsBlocks p pre mid sel ->
  (filter (fun x => Editor.in_span (path (fst (Range.edges sel)))
                      (path (snd (Range.edges sel))) (snd x))
     (Node.texts (children e))
   = filter (fun x => Editor.in_span (path (fst (Range.edges sel)))
                        (path (snd (Range.edges sel))) (snd x))
       (filter (fun x => Text.isText (fst x))
          (Node.entries_list p 0 (pre ++ mid ++ post)))) ->
  1 <= unhungCount sel (List.length mid) <= List.length mid
  /\ exists fa fb,
       path (fst (Range.edges (Editor.unhangRange e sel)))
       = p ++ List.length pre :: fa
       /\ path (snd (Range.edges (Editor.unhangRange e sel)))
          = p ++ (List.length pre
                  + unhungCount sel (List.length mid) - 1) :: fb.
Proof.
  intros [L [x [y [tS [tE [HS [HE [GS GE]]]]]]]] Hctx.
  assert (Hne : List.length mid <> 0).
  { destruct mid; [|discriminate]. rewrite get_nil in GS. discriminate. }
  unfold unhungCount. destruct (hanging sel) eqn:Hh.
  2:{ rewrite unhang_not_hanging by exact Hh. split; [lia|].
      exists [x], [y]. split; assumption. }
  (* the hanging case *)
  pose proof Hh as Hh'. unfold hanging in Hh'.
  apply andb_prop in Hh'. destruct Hh' as [Hh' Hprev].
  apply andb_prop in Hh'. destruct Hh' as [Hh' Hcol].
  apply andb_prop in Hh'. destruct Hh' as [HoS HoE].
  apply Nat.eqb_eq in HoS, HoE. apply negb_true_iff in Hcol, Hprev.
  rewrite HE, hasPrevious_app in Hprev. apply Nat.ltb_ge in Hprev.
  assert (y = 0) by lia. subst y. clear Hprev.
  pose proof (edges_ordered sel) as Ord.
  (* at least two blocks *)
  assert (H2 : 2 <= List.length mid).
  { destruct (le_lt_dec 2 (List.length mid)) as [|H1]; [assumption|].
    exfalso. assert (E1 : List.length mid = 1) by lia.
    rewrite E1 in HE. replace (List.length pre + 1 - 1)
      with (List.length pre) in HE by lia.
    unfold Point.isAfter, Point.compare in Ord.
    rewrite HS, HE, compare_app, compare_cons_eq in Ord. simpl in Ord.
    assert (x = 0) by (destruct x; [reflexivity | discriminate]).
    subst x. rewrite (collapsed_edges sel) in Hcol; [discriminate|].
    destruct (fst (Range.edges sel)) as [pS oS],
             (snd (Range.edges sel)) as [pE oE].
    simpl in *. congruence. }
  destruct (exists_last (l := mid)) as [mid1 [B2 E2]].
  { intros ->. simpl in H2. lia. }
  destruct (exists_last (l := mid1)) as [mid0 [B1 E1]].
  { intros ->. subst mid. simpl in H2. lia. }
  subst mid1. rewrite <- app_assoc in E2. cbn [app] in E2.
  assert (L' := L). rewrite E2 in L'.
  apply Forall_app in L'. destruct L' as [_ L'].
  inversion L' as [|? ? [t1 [a1 [ts [Hts ->]]]] L'']; subst.
  inversion L'' as [|? ? [t2 [a2 [ts' [Hts' ->]]]] _]; subst.
  destruct (leafy_last ts Hts) as [ts1 [tprev ->]].
  destruct ts' as [|tb0 ts2]; [congruence|]. clear Hts Hts'.
  assert (Lm : List.length
                 (mid0 ++ [ElementNode t1 a1 (map TextNode (ts1 ++ [tprev]));
                           ElementNode t2 a2 (map TextNode (tb0 :: ts2))])
               = List.length mid0 + 2)
    by (rewrite length_app; reflexivity).
  rewrite Lm in *.
  assert (Hx : mid0 = [] -> x <= List.length ts1).
  { intros ->. cbn [app] in GS. rewrite get_leaf in GS.
    destruct (nth_error (ts1 ++ [tprev]) x) eqn:N; [|discriminate].
    assert (N' : nth_error (ts1 ++ [tprev]) x <> None) by congruence.
    apply nth_error_Some in N'. rewrite length_app in N'. simpl in N'. lia. }
  destruct (texts_span_hanging p pre mid0 t1 a1 ts1 tprev t2 a2 tb0 ts2
              post x Hx) as [Y HY].
  replace (List.length pre + (List.length mid0 + 2) - 1)
    with (List.length pre + List.length mid0 + 1) in * by lia.
  rewrite (unhang_found e sel Y tprev
             (p ++ [List.length pre + List.length mid0; List.length ts1])
             (TextNode tb0,
              p ++ [List.length pre + List.length mid0 + 1; 0]) Hh).
  - split; [lia|].
    assert (Fw : Point.isAfter (fst (Range.edges sel))
                   (mkPoint
                      (p ++ [List.length pre + List.length mid0;
                             List.length ts1])
                      (String.length (text tprev))) = false).
    { unfold Point.isAfter, Point.compare. cbn [path offset].
      rewrite HS, compare_app, HoS. simpl.
      destruct (Nat.compare_spec (List.length pre)
                  (List.length pre + List.length mid0)); try lia;
        try reflexivity.
      assert (M0 : mid0 = []) by (destruct mid0; [reflexivity | simpl in *; lia]).
      specialize (Hx M0).
      destruct (Nat.compare_spec x (List.length ts1)); try lia;
        try reflexivity.
      destruct (String.length (text tprev)); reflexivity. }
    rewrite (edges_mk _ _ Fw). cbn [fst snd path].
    exists [x], [List.length ts1]. split; [exact HS|].
    replace (List.length pre + (List.length mid0 + 2 - 1) - 1)
      with (List.length pre + List.length mid0) by lia.
    reflexivity.
  - rewrite Hctx, HS, HE, <- (app_assoc mid0). exact HY.
  - rewrite HE, block_above_app. unfold Path.isBefore.
    rewrite compare_app. rewrite compare_cons_lt by lia. reflexivity.
Qed.

Lemma firstn_leafy u l : Forall leafy l -> Forall leafy (firstn u l).
Proof.
  intros H. revert u. induction H as [|c l Hc _ IH]; intros [|u]; simpl;
    constructor; auto.
Qed.

(** The elements of the unhung selection are its first blocks. *)
Lemma unhung_elements e sel p pre mid post :
  selectsBlocks p pre mid sel ->
  (filter (fun x => Editor.in_span (path (fst (Range.edges sel)))
                      (path (snd (Range.edges sel))) (snd x))
     (Node.texts (children e))
   = filter (fun x => Editor.in_span (path (fst (Range.edges sel)))
                        (path (snd (Range.edges sel))) (snd x))
       (filter (fun x => Text.isText (fst x))
          (Node.entries_list p 0 (pre ++ mid ++ post)))) ->
  1 <= unhungCount sel (List.length mid) <= List.length mid
  /\ filter (fun x => SlateElement.isElement (fst x))
       (filter (fun x =>
                  Editor.in_span
                    (path (fst (Range.edges (Editor.unhangRange e sel))))
                    (path (snd (Range.edges (Editor.unhangRange e sel))))
                    (snd x))
          (Node.entries_list p 0 (pre ++ mid ++ post)))
     = block_entries p (List.length pre)
         (firstn (unhungCount sel (List.length mid)) mid).
Proof.
  intros Hsel Hctx.
  destruct (unhung_blocks e sel p pre mid post Hsel Hctx)
    as [Hu [fa [fb [HS HE]]]].
  split; [exact Hu|].
  set (u := unhungCount sel (List.length mid)) in *.
  rewrite HS, HE.
  assert (Lu : List.length (firstn u mid) = u)
    by (rewrite length_firstn; lia).
  assert (HL : Forall leafy (firstn u mid))
    by (apply firstn_leafy; apply Hsel).
  assert (HN : firstn u mid <> [])
    by (intros E; rewrite E in Lu; simpl in Lu; lia).
  pose proof (span_elements p pre (firstn u mid) (skipn u mid ++ post)
                fa fb HL HN) as SE.
  rewrite Lu, (app_assoc (firstn u mid)), firstn_skipn in SE. exact SE.
Qed.

Lemma filter_block_entries (g : Descendant -> bool) p l :
  forall i,
    match filter (fun x => g (fst x)) (block_entries p i l) with
    | [] => false
    | _ :: _ => true
    end = existsb g l.
Proof.
  induction l as [|c l IH]; intros i; [reflexivity|].
  simpl. destruct (g c); [reflexivity|]. apply IH.
Qed.

Section TopLevelBlocks.

Variables (pre mid post : list Descendant) (sel : Range) (m : option Marks).
Hypothesis Hsel : selectsBlocks [] pre mid sel.

Let e := mkEditor (pre ++ mid ++ post) (Some sel) m.
Let u := unhungCount sel (List.length mid).

Lemma top_context :
  filter (fun x => Editor.in_span (path (fst (Range.edges sel)))
                     (path (snd (Range.edges sel))) (snd x))
    (Node.texts (children e))
  = filter (fun x => Editor.in_span (path (fst (Range.edges sel)))
                       (path (snd (Range.edges sel))) (snd x))
      (filter (fun x => Text.isText (fst x))
         (Node.entries_list [] 0 (pre ++ mid ++ post))).
Proof. reflexivity. Qed.

Lemma top_unhung_count : 1 <= u <= List.length mid.
Proof. apply (unhung_elements e sel [] pre mid post Hsel top_context). Qed.

Lemma top_unhung_elements :
  Editor.nodes e (Some (Editor.unhangRange e sel)) SlateElement.isElement All
  = block_entries [] (List.length pre) (firstn u mid).
Proof.
  rewrite nodes_all.
  apply (unhung_elements e sel [] pre mid post Hsel top_context).
Qed.

Lemma top_isBlockActive T :
  isBlockActive e T = existsb (has_type T) (firstn u mid).
Proof.
  unfold isBlockActive. cbn [selection e]. fold e.
  rewrite nodes_all, filter_andb. rewrite <- nodes_all.
  rewrite top_unhung_elements. apply (filter_block_entries (has_type T)).
Qed.

Lemma top_setNodes pr :
  Transforms.setNodes e pr None false
  = mkEditor (pre ++ map (set_node pr) (firstn u mid) ++ skipn u mid ++ post)
      (Some sel) m.
Proof.
  unfold Transforms.setNodes. cbn [selection e andb]. fold e.
  rewrite nodes_lowest, top_unhung_elements.
  rewrite lowest_sorted by apply block_entries_sorted.
  cbn [children e marks].
  assert (D : pre ++ mid ++ post
              = pre ++ firstn u mid ++ skipn u mid ++ post)
    by (rewrite (app_assoc (firstn u mid)), firstn_skipn; reflexivity).
  rewrite D, update_blocks. reflexivity.
Qed.

End TopLevelBlocks.

(** ** Following the selection *)

Lemma leaf_paths q ts :
  forall j,
    map snd (Node.entries_list q j (map TextNode ts))
    = map (fun z => q ++ [z]) (seq j (List.length ts)).
Proof.
  induction ts as [|t ts IH]; intros j; [reflexivity|].
  simpl. rewrite IH. reflexivity.
Qed.

Lemma text_paths_leafy p l :
  Forall leafy l ->
  forall i,
    map snd (filter (fun x => Text.isText (fst x)) (Node.entries_list p i l))
    = map (fun c => p ++ [fst c; snd c]) (coords i l).
Proof.
  induction 1 as [|c l [t [a [ts [_ ->]]]] _ IH]; intros i; [reflexivity|].
  cbn [Node.entries_list coords children_of].
  rewrite filter_app, !map_app, IH. f_equal.
  rewrite entries_node_element.
  rewrite filter_cons_false by reflexivity.
  rewrite entries_texts_kept, leaf_paths, length_map, map_map.
  apply map_ext. intros z. cbn [fst snd]. rewrite <- app_assoc. reflexivity.
Qed.

Lemma coords_shift l :
  forall i, coords i l = map (fun c => (i + fst c, snd c)) (coords 0 l).
Proof.
  induction l as [|c l IH]; intros i; [reflexivity|].
  cbn [coords]. rewrite map_app, map_map. f_equal.
  - apply map_ext. intros z. cbn [fst snd]. rewrite Nat.add_0_r. reflexivity.
  - rewrite (IH (S i)), (IH 1), map_map. apply map_ext. intros c'.
    cbn [fst snd]. f_equal. lia.
Qed.

Lemma coords_in l :
  forall i j z c,
    nth_error l j = Some c -> z < List.length (children_of c) ->
    In (i + j, z) (coords i l).
Proof.
  induction l as [|c' l IH]; intros i [|j] z c H Hz; try discriminate.
  - injection H as ->. cbn [coords]. apply in_or_app. left.
    apply in_map_iff. exists z. rewrite Nat.add_0_r. split; [reflexivity|].
    apply in_seq. lia.
  - cbn [coords]. apply in_or_app. right.
    replace (i + S j) with (S i + j) by lia. apply (IH _ _ _ c); assumption.
Qed.

Lemma index_of_nth q l :
  forall k, Transforms.index_of q l = Some k -> nth_error l k = Some q.
Proof.
  induction l as [|q' l IH]; intros k H; [discriminate|].
  simpl in H. destruct (Path.equals q q') eqn:E.
  - injection H as <-. apply equals_iff in E. subst. reflexivity.
  - destruct (Transforms.index_of q l) as [k'|]; [|discriminate].
    injection H as <-. simpl. apply IH. reflexivity.
Qed.

Lemma follow_same d pt : Transforms.follow_point d d pt = pt.
Proof.
  unfold Transforms.follow_point.
  destruct (Transforms.index_of _ _) as [k|] eqn:E; [|reflexivity].
  apply index_of_nth in E. rewrite E. destruct pt. reflexivity.
Qed.

Lemma follow_range_same d r : Transforms.follow_range d d r = r.
Proof.
  unfold Transforms.follow_range. rewrite !follow_same. destruct r.
  reflexivity.
Qed.

Lemma index_of_skip q L R :
  ~ In q L ->
  Transforms.index_of q (L ++ R)
  = option_map (fun k => List.length L + k) (Transforms.index_of q R).
Proof.
  induction L as [|q' L IH]; intros H.
  - simpl. destruct (Transforms.index_of q R); reflexivity.
  - simpl. destruct (Path.equals q q') eqn:E.
    + apply equals_iff in E. subst. exfalso. apply H. left. reflexivity.
    + rewrite IH by (intros I; apply H; right; exact I).
      destruct (Transforms.index_of q R); reflexivity.
Qed.

Lemma index_of_map (g h : nat * nat -> Path) C R R' c :
  (forall c1 c2, g c1 = g c2 -> c1 = c2) -> In c C ->
  exists k,
    Transforms.index_of (g c) (map g C ++ R) = Some k
    /\ nth_error (map h C ++ R') k = Some (h c).
Proof.
  intros Inj. induction C as [|c' C IH]; intros H; [destruct H|].
  simpl. destruct (Path.equals (g c) (g c')) eqn:E.
  - apply equals_iff in E. apply Inj in E. subst. exists 0.
    split; reflexivity.
  - destruct H as [-> | H]; [rewrite equals_refl in E; discriminate|].
    destruct (IH H) as [k [Hk Hn]]. exists (S k). rewrite Hk.
    split; [reflexivity | exact Hn].
Qed.

(** A point in a text that both documents list at the same position
    follows the text. *)
Lemma follow_through old new L L' C (g h : nat * nat -> Path) R R' c o :
  map snd (Node.texts old) = L ++ map g C ++ R ->
  map snd (Node.texts new) = L' ++ map h C ++ R' ->
  List.length L = List.length L' ->
  ~ In (g c) L ->
  (forall c1 c2, g c1 = g c2 -> c1 = c2) ->
  In c C ->
  Transforms.follow_point old new (mkPoint (g c) o) = mkPoint (h c) o.
Proof.
  intros Ho Hn HL HnL Inj Hc. unfold Transforms.follow_point.
  cbn [path offset]. rewrite Ho, Hn, index_of_skip by exact HnL.
  destruct (index_of_map g h C R R' c Inj Hc) as [k [Hk Hk']].
  rewrite Hk. cbn [option_map]. rewrite HL.
  rewrite nth_error_app2 by lia.
  replace (List.length L' + k - List.length L') with k by lia.
  rewrite Hk'. reflexivity.
Qed.

(** Moving the two points of a range by a map that keeps the order of
    their paths keeps its edges. *)
Lemma edges_move f r :
  Path.compare (f (path (anchor r))) (f (path (focus r)))
  = Path.compare (path (anchor r)) (path (focus r)) ->
  Range.edges (move_range f r)
  = (move_point f (fst (Range.edges r)), move_point f (snd (Range.edges r))).
Proof.
  intros H. unfold Range.edges, Range.isBackward, Point.isAfter,
    Point.compare. cbn [move_range move_point anchor focus path offset].
  rewrite H.
  destruct (Path.compare (path (anchor r)) (path (focus r)));
    try reflexivity.
  destruct (Nat.compare (offset (anchor r)) (offset (focus r)));
    reflexivity.
Qed.

(** ** Unwrapping *)

Lemma unwrap_node_element T s from to p t a ch :
  Transforms.unwrap_node T s from to p (ElementNode t a ch)
  = if path_in p T then
      if s then
        let '(pre, mid, post) := Transforms.lift_split from to p 0 ch in
        match mid with
        | [] => [ElementNode t a ch]
        | _ :: _ =>
            Transforms.remainder t a pre ++ mid ++ Transforms.remainder t a post
        end
      else
        match ch with
        | [] => [ElementNode t a ch]
        | _ :: _ => ch
        end
    else [ElementNode t a (Transforms.unwrap_list T s from to p 0 ch)].
Proof.
  simpl. destruct (path_in p T); [reflexivity|]. do 2 f_equal.
  generalize 0. induction ch as [|c ch IH]; intros i; [reflexivity|].
  simpl. rewrite IH. reflexivity.
Qed.

Lemma unwrap_node_id T s from to :
  forall n p,
    (forall x, In x (Node.entries_node p n) -> path_in (snd x) T = false) ->
    Transforms.unwrap_node T s from to p n = [n].
Proof.
  induction n as [t | t a ch IH] using Descendant_ind; intros p H.
  - reflexivity.
  - rewrite unwrap_node_element.
    assert (E : path_in p T = false)
      by (apply (H (ElementNode t a ch, p));
          rewrite entries_node_element; left; reflexivity).
    rewrite E. do 2 f_equal.
    assert (H' : forall x, In x (Node.entries_list p 0 ch) ->
                path_in (snd x) T = false).
    { intros x Hx. apply H. rewrite entries_node_element. right. exact Hx. }
    clear H. revert H'. generalize 0.
    induction IH as [|c ch Hc _ IHch]; intros i H'; [reflexivity|].
    simpl. rewrite Hc, IHch; [reflexivity | |].
    + intros x Hx. apply H'. simpl. apply in_or_app. right. exact Hx.
    + intros x Hx. apply H'. simpl. apply in_or_app. left. exact Hx.
Qed.

Lemma unwrap_list_id T s from to l :
  forall p i,
    (forall x, In x (Node.entries_list p i l) -> path_in (snd x) T = false) ->
    Transforms.unwrap_list T s from to p i l = l.
Proof.
  induction l as [|c l IH]; intros p i H; [reflexivity|].
  simpl. rewrite unwrap_node_id, IH; [reflexivity | |].
  - intros x Hx. apply H. simpl. apply in_or_app. right. exact Hx.
  - intros x Hx. apply H. simpl. apply in_or_app. left. exact Hx.
Qed.

Lemma unwrap_list_app T s from to p l1 l2 :
  forall i,
    Transforms.unwrap_list T s from to p i (l1 ++ l2)
    = Transforms.unwrap_list T s from to p i l1
      ++ Transforms.unwrap_list T s from to p (i + List.length l1) l2.
Proof.
  induction l1 as [|c l1 IH]; intros i; simpl.
  - rewrite Nat.add_0_r. reflexivity.
  - rewrite IH, <- app_assoc. do 3 f_equal. lia.
Qed.

(** Without a matching container in the range, unwrapping changes
    nothing. *)
Lemma unwrapNodes_no_match e sel match_ :
  selection e = Some sel ->
  Editor.nodes e (Some sel) match_ All = [] ->
  Transforms.unwrapNodes e match_ true = e.
Proof.
  intros Hs Hn. unfold Transforms.unwrapNodes. rewrite Hs.
  rewrite nodes_lowest, Hn. cbn [Editor.lowest map].
  destruct (Range.edges sel) as [S E].
  rewrite unwrap_list_id by reflexivity.
  rewrite follow_range_same. destruct e. simpl in *. congruence.
Qed.

(** The lift of the children of a container that a span covers from
    child [length I1] to the last child of [I2]. *)
Lemma compare_nil_l q : Path.compare [] q = Eq.
Proof. reflexivity. Qed.

Lemma lift_split_parts p k fa fb I1 I2 I3 :
  k = List.length I1 ->
  Transforms.lift_split (p ++ k :: fa)
    (p ++ (k + List.length I2 - 1) :: fb) p 0 (I1 ++ I2 ++ I3)
  = (I1, I2, I3)
  \/ I2 = [].
Proof.
  intros ->. destruct I2 as [|c2 I2]; [right; reflexivity|]. left.
  set (b := List.length I1 + List.length (c2 :: I2) - 1).
  assert (Hb : b = List.length I1 + List.length I2) by (unfold b; simpl; lia).
  assert (A3 : forall l i, b < i ->
            Transforms.lift_split (p ++ List.length I1 :: fa)
              (p ++ b :: fb) p i l = ([], [], l)).
  { induction l as [|c l IH]; intros i H; [reflexivity|].
    simpl. rewrite IH by lia.
    unfold Path.isBefore, Path.isAfter.
    rewrite !compare_app, !compare_cons_gt by lia. reflexivity. }
  assert (A2 : forall l i, List.length I1 <= i -> i + List.length l = S b ->
            Transforms.lift_split (p ++ List.length I1 :: fa)
              (p ++ b :: fb) p i (l ++ I3) = ([], l, I3)).
  { induction l as [|c l IH]; intros i H1 H2.
    - simpl in *. apply A3. lia.
    - simpl in *. rewrite IH by lia.
      unfold Path.isBefore, Path.isAfter. rewrite !compare_app.
      destruct (Nat.compare_spec i (List.length I1)) as [E | E | E];
        try lia.
      + subst i. rewrite compare_cons_eq, compare_nil_l.
        destruct (Nat.compare_spec (List.length I1) b) as [E' | E' | E'];
          try lia.
        * rewrite E', compare_cons_eq, compare_nil_l. reflexivity.
        * rewrite compare_cons_lt by lia. reflexivity.
      + rewrite compare_cons_gt by lia.
        destruct (Nat.compare_spec i b) as [E' | E' | E']; try lia.
        * subst i. rewrite compare_cons_eq, compare_nil_l. reflexivity.
        * rewrite compare_cons_lt by lia. reflexivity. }
  assert (A1 : forall l i, i + List.length l = List.length I1 ->
            Transforms.lift_split (p ++ List.length I1 :: fa)
              (p ++ b :: fb) p i (l ++ (c2 :: I2) ++ I3)
            = (l, c2 :: I2, I3)).
  { induction l as [|c l IH]; intros i H.
    - simpl in H. cbn [app]. apply (A2 (c2 :: I2)); simpl; lia.
    - simpl in *. rewrite IH by lia.
      unfold Path.isBefore. rewrite compare_app, compare_cons_lt by lia.
      reflexivity. }
  apply A1. reflexivity.
Qed.

(** ** The paths of the texts of a document *)

Lemma text_paths_app p l1 l2 i :
  text_paths p i (l1 ++ l2)
  = text_paths p i l1 ++ text_paths p (i + List.length l1) l2.
Proof.
  unfold text_paths. rewrite entries_list_app, filter_app, map_app.
  reflexivity.
Qed.

Lemma text_paths_element p i t a ch :
  text_paths p i [ElementNode t a ch] = text_paths (p ++ [i]) 0 ch.
Proof.
  unfold text_paths. cbn [Node.entries_list].
  rewrite app_nil_r, entries_node_element.
  rewrite filter_cons_false by reflexivity. reflexivity.
Qed.

Lemma text_paths_remainder a t al l :
  text_paths [] a (Transforms.remainder t al l) = text_paths [a] 0 l.
Proof.
  destruct l as [|c l]; [reflexivity|].
  apply (text_paths_element [] a t al (c :: l)).
Qed.

Lemma text_paths_blocks p i l :
  Forall leafy l ->
  text_paths p i l = map (fun c => p ++ [i + fst c; snd c]) (coords 0 l).
Proof.
  intros H. unfold text_paths. rewrite text_paths_leafy by exact H.
  rewrite coords_shift, map_map. reflexivity.
Qed.

Lemma text_paths_top pre mid post :
  Forall leafy mid ->
  map snd (Node.texts (pre ++ mid ++ post))
  = text_paths [] 0 pre
    ++ map (fun c => [List.length pre + fst c; snd c]) (coords 0 mid)
    ++ text_paths [] (List.length pre + List.length mid) post.
Proof.
  intros H. change (map snd (Node.texts (pre ++ mid ++ post)))
    with (text_paths [] 0 (pre ++ mid ++ post)).
  rewrite !text_paths_app, (text_paths_blocks [] _ mid H). reflexivity.
Qed.

Lemma text_paths_wrapped PRE t a I1 I2 I3 POST :
  Forall leafy I2 ->
  map snd (Node.texts (PRE ++ [ElementNode t a (I1 ++ I2 ++ I3)] ++ POST))
  = (text_paths [] 0 PRE ++ text_paths [List.length PRE] 0 I1)
    ++ map (fun c => [List.length PRE; List.length I1 + fst c; snd c])
         (coords 0 I2)
    ++ (text_paths [List.length PRE] (List.length I1 + List.length I2) I3
        ++ text_paths [] (S (List.length PRE)) POST).
Proof.
  intros H.
  change (map snd (Node.texts
                     (PRE ++ [ElementNode t a (I1 ++ I2 ++ I3)] ++ POST)))
    with (text_paths [] 0
            (PRE ++ [ElementNode t a (I1 ++ I2 ++ I3)] ++ POST)).
  rewrite !text_paths_app, text_paths_element, !text_paths_app.
  rewrite (text_paths_blocks _ _ I2 H).
  cbn [app List.length Nat.add]. rewrite <- !app_assoc.
  replace (List.length PRE + 1) with (S (List.length PRE)) by lia.
  reflexivity.
Qed.

Lemma text_paths_first p i l q :
  In q (text_paths p i l) ->
  exists j r, q = p ++ j :: r /\ i <= j < i + List.length l.
Proof.
  unfold text_paths. intros H. apply in_map_iff in H.
  destruct H as [x [<- H]]. apply filter_In in H. destruct H as [H _].
  apply entries_list_paths in H. exact H.
Qed.

Lemma get_coords mid j z n :
  Node.get mid [j; z] = Some n -> In (j, z) (coords 0 mid).
Proof.
  intros H. simpl in H.
  destruct (nth_error mid j) as [[t | t a ch] |] eqn:E; try discriminate.
  apply (coords_in mid 0 j z (ElementNode t a ch) E).
  apply nth_error_Some. cbn [children_of]. congruence.
Qed.

(** ** Wrapping consecutive blocks *)

Lemma firstn_exact (A : Type) (l1 l2 : list A) :
  firstn (List.length l1) (l1 ++ l2) = l1.
Proof.
  rewrite firstn_app, firstn_all, Nat.sub_diag. simpl. apply app_nil_r.
Qed.

Lemma skipn_exact (A : Type) (l1 l2 : list A) :
  skipn (List.length l1) (l1 ++ l2) = l2.
Proof.
  rewrite skipn_app, skipn_all, Nat.sub_diag. reflexivity.
Qed.

Lemma last_block_entries p l :
  forall i c d,
    snd (last (block_entries p i (c :: l)) d) = p ++ [i + List.length l].
Proof.
  induction l as [|c' l IH]; intros i c d.
  - simpl. rewrite Nat.add_0_r. reflexivity.
  - change (block_entries p i (c :: c' :: l))
      with ((c, p ++ [i]) :: block_entries p (S i) (c' :: l)).
    change (last ((c, p ++ [i]) :: block_entries p (S i) (c' :: l)) d)
      with (last (block_entries p (S i) (c' :: l)) d).
    rewrite IH. simpl. do 2 f_equal. lia.
Qed.

Lemma block_entries_first_last p i l :
  l <> [] ->
  exists c0 rest,
    block_entries p i l = (c0, p ++ [i]) :: rest
    /\ forall d,
         snd (last (block_entries p i l) d) = p ++ [i + List.length l - 1].
Proof.
  destruct l as [|c l]; [congruence|]. intros _.
  exists c, (block_entries p (S i) l). split; [reflexivity|].
  intros d. rewrite last_block_entries. do 2 f_equal. simpl. lia.
Qed.

Lemma wrap_path_compare a i r j r' :
  a <= i -> a <= j ->
  Path.compare (wrap_path a (i :: r)) (wrap_path a (j :: r'))
  = Path.compare (i :: r) (j :: r').
Proof.
  intros Hi Hj. unfold wrap_path. rewrite compare_cons_eq. simpl.
  destruct (Nat.compare_spec i j), (Nat.compare_spec (i - a) (j - a));
    try lia; reflexivity.
Qed.

Lemma selects_length p pre mid sel :
  selectsBlocks p pre mid sel -> 1 <= List.length mid.
Proof.
  intros [_ [x [y [tS [tE [_ [_ [GS _]]]]]]]].
  destruct mid; [|simpl; lia]. rewrite get_nil in GS. discriminate.
Qed.

(** The points of a selection over blocks are its two edges. *)
Lemma anchor_focus_edges sel :
  (anchor sel = fst (Range.edges sel) /\ focus sel = snd (Range.edges sel))
  \/ (anchor sel = snd (Range.edges sel)
      /\ focus sel = fst (Range.edges sel)).
Proof.
  unfold Range.edges. destruct (Range.isBackward sel); simpl; auto.
Qed.

Section WrapTopLevel.

Variables (pre mid post : list Descendant) (sel : Range) (m : option Marks).
Hypothesis Hsel : selectsBlocks [] pre mid sel.

Let e := mkEditor (pre ++ mid ++ post) (Some sel) m.
Let a := List.length pre.

Lemma top_all_elements :
  Editor.nodes e (Some sel) SlateElement.isElement All
  = block_entries [] a mid.
Proof.
  pose proof (selects_length _ _ _ _ Hsel) as Hl.
  destruct Hsel as [L [x [y [tS [tE [HS [HE _]]]]]]].
  rewrite nodes_all, HS, HE. cbn [children e].
  apply (span_elements [] pre mid post [x] [y] L).
  intros ->. simpl in Hl. lia.
Qed.

Lemma top_follow_wrap T pt :
  pt = fst (Range.edges sel) \/ pt = snd (Range.edges sel) ->
  Transforms.follow_point (pre ++ mid ++ post)
    (pre ++ [ElementNode T None mid] ++ post) pt
  = move_point (wrap_path a) pt.
Proof.
  pose proof (selects_length _ _ _ _ Hsel) as Hl.
  destruct Hsel as [L [x [y [tS [tE [HS [HE [GS GE]]]]]]]].
  intros Hpt.
  assert (Hc : exists c, In c (coords 0 mid)
                         /\ path pt = [a + fst c; snd c]).
  { destruct Hpt as [-> | ->].
    - exists (0, x). split; [apply (get_coords _ _ _ _ GS)|].
      rewrite HS. cbn [app fst snd]. fold a. rewrite Nat.add_0_r.
      reflexivity.
    - exists (List.length mid - 1, y).
      split; [apply (get_coords _ _ _ _ GE)|].
      rewrite HE. cbn [app fst snd]. fold a.
      replace (a + List.length mid - 1) with (a + (List.length mid - 1))
        by lia.
      reflexivity. }
  destruct Hc as [c [Hc Hp]].
  destruct pt as [q o]. cbn [path] in Hp. subst q.
  pose proof (text_paths_wrapped pre T None [] mid [] post L) as Hn.
  cbn [app] in Hn. rewrite app_nil_r in Hn. cbn [app].
  rewrite (follow_through _ _ _ _ _
             (fun c => [a + fst c; snd c])
             (fun c => [a; List.length (@nil Descendant) + fst c; snd c])
             _ _ c o (text_paths_top pre mid post L) Hn).
  - unfold move_point, wrap_path. cbn [path offset List.length].
    do 3 f_equal. lia.
  - unfold text_paths at 2. cbn [Node.entries_list filter map].
    rewrite app_nil_r. reflexivity.
  - intros I. apply text_paths_first in I.
    destruct I as [j [r [Hq Hj]]]. simpl in Hq. injection Hq as Hq _.
    unfold a in Hq. lia.
  - intros [j1 z1] [j2 z2] Hq. cbn [fst snd] in Hq.
    injection Hq as Hq1 Hq2. f_equal; lia.
  - exact Hc.
Qed.

Lemma top_wrapNodes T :
  Transforms.wrapNodes e T
  = mkEditor (pre ++ [ElementNode T None mid] ++ post)
      (Some (move_range (wrap_path a) sel)) m.
Proof.
  pose proof (selects_length _ _ _ _ Hsel) as Hl.
  assert (Hne : mid <> []) by (intros ->; simpl in Hl; lia).
  unfold Transforms.wrapNodes. cbn [selection e]. fold e.
  rewrite nodes_lowest, top_all_elements.
  rewrite lowest_sorted by apply block_entries_sorted.
  destruct (block_entries_first_last [] a mid Hne) as [c0 [rest [Hb Hlast]]].
  rewrite Hb. cbv iota beta. rewrite <- Hb, Hlast. cbn [app snd].
  set (b := a + List.length mid - 1).
  assert (Common :
            (if Path.equals [a] [b] then Path.parent [a]
             else Transforms.common [a] [b]) = []).
  { destruct (Path.equals [a] [b]) eqn:X; [reflexivity|]. simpl.
    destruct (a =? b)%nat eqn:E; [|reflexivity].
    apply Nat.eqb_eq in E. exfalso.
    assert (X' : Path.equals [a] [b] = true)
      by (apply equals_iff; congruence).
    congruence. }
  rewrite Common. cbn [List.length nth Transforms.update_children_at].
  cbn [children e marks].
  assert (D : firstn a (pre ++ mid ++ post)
              ++ ElementNode T None
                   (firstn (S b - a) (skipn a (pre ++ mid ++ post)))
                 :: skipn (S b) (pre ++ mid ++ post)
              = pre ++ [ElementNode T None mid] ++ post).
  { unfold a. rewrite firstn_exact, skipn_exact.
    replace (S b - List.length pre) with (List.length mid)
      by (unfold b, a; lia).
    rewrite firstn_exact.
    replace (S b) with (List.length (pre ++ mid))
      by (rewrite length_app; unfold b, a; lia).
    rewrite (app_assoc pre mid post), skipn_exact. reflexivity. }
  rewrite D. f_equal. f_equal.
  unfold Transforms.follow_range, move_range.
  destruct (anchor_focus_edges sel) as [[Ha Hf] | [Ha Hf]];
    rewrite !top_follow_wrap by (rewrite ?Ha, ?Hf; auto); reflexivity.
Qed.

Lemma wrapped_selects :
  selectsBlocks [a] [] mid (move_range (wrap_path a) sel).
Proof.
  pose proof (selects_length _ _ _ _ Hsel) as Hl.
  destruct Hsel as [L [x [y [tS [tE [HS [HE [GS GE]]]]]]]].
  split; [exact L|]. exists x, y, tS, tE.
  assert (Ed : Range.edges (move_range (wrap_path a) sel)
               = (move_point (wrap_path a) (fst (Range.edges sel)),
                  move_point (wrap_path a) (snd (Range.edges sel)))).
  { apply edges_move.
    destruct (anchor_focus_edges sel) as [[-> ->] | [-> ->]];
      rewrite HS, HE; apply wrap_path_compare; unfold a; simpl; lia. }
  rewrite Ed. cbn [fst snd move_point path]. rewrite HS, HE.
  cbn [app wrap_path List.length]. fold a.
  repeat split; try assumption.
  - rewrite Nat.sub_diag. reflexivity.
  - do 2 f_equal. lia.
Qed.

End WrapTopLevel.

(** ** A selection inside one container *)

Lemma unwrap_path_compare a' k a j r j' r' :
  k <= j -> k <= j' ->
  Path.compare (unwrap_path a' k (a :: j :: r))
    (unwrap_path a' k (a :: j' :: r'))
  = Path.compare (a :: j :: r) (a :: j' :: r').
Proof.
  intros Hj Hj'. unfold unwrap_path. rewrite compare_cons_eq. simpl.
  destruct (Nat.compare_spec j j'),
           (Nat.compare_spec (a' + (j - k)) (a' + (j' - k)));
    try lia; reflexivity.
Qed.

Lemma match_nonempty (A B : Type) (l : list A) (x y : B) :
  l <> [] -> match l with [] => x | _ :: _ => y end = y.
Proof. destruct l; [congruence | reflexivity]. Qed.

Section WrappedBlocks.

Variables (PRE I1 I2 I3 POST : list Descendant).
Variables (wt : string) (wa : option string).
Variables (sel : Range) (m : option Marks).

Let a := List.length PRE.
Let k := List.length I1.
Let W := ElementNode wt wa (I1 ++ I2 ++ I3).
Let e := mkEditor (PRE ++ [W] ++ POST) (Some sel) m.
Let u := unhungCount sel (List.length I2).

Hypothesis Hsel : selectsBlocks [a] I1 I2 sel.

Lemma wrapped_span fa fb :
  filter (fun x => Editor.in_span (a :: fa) (a :: fb) (snd x))
    (Node.nodes (PRE ++ [W] ++ POST))
  = (W, [a])
    :: filter (fun x => Editor.in_span (a :: fa) (a :: fb) (snd x))
         (Node.entries_list [a] 0 (I1 ++ I2 ++ I3)).
Proof.
  unfold Node.nodes.
  rewrite (entries_list_app [] 0 PRE), (entries_list_app [] _ [W] POST).
  rewrite !filter_app.
  pose proof (span_before [] PRE 0 a fa (a :: fb)) as B.
  pose proof (span_after [] POST (0 + List.length PRE + List.length [W])
                a fb (a :: fa)) as A.
  cbn [app] in B, A. rewrite B by (unfold a; lia).
  rewrite A by (unfold a; simpl; lia).
  rewrite app_nil_r. cbn [app Node.entries_list Nat.add]. fold a.
  rewrite app_nil_r. unfold W. rewrite entries_node_element. fold W.
  rewrite filter_cons_true; [reflexivity|].
  cbn [snd]. rewrite in_span_cons, Nat.ltb_irrefl, Nat.eqb_refl.
  reflexivity.
Qed.

Lemma wrapped_context :
  filter (fun x => Editor.in_span (path (fst (Range.edges sel)))
                     (path (snd (Range.edges sel))) (snd x))
    (Node.texts (children e))
  = filter (fun x => Editor.in_span (path (fst (Range.edges sel)))
                       (path (snd (Range.edges sel))) (snd x))
      (filter (fun x => Text.isText (fst x))
         (Node.entries_list [a] 0 (I1 ++ I2 ++ I3))).
Proof.
  destruct Hsel as [_ [x [y [tS [tE [HS [HE _]]]]]]].
  rewrite HS, HE. cbn [app children e]. unfold Node.texts.
  rewrite filter_comm, wrapped_span.
  rewrite filter_cons_false by reflexivity. apply filter_comm.
Qed.

Lemma wrapped_unhung_count : 1 <= u <= List.length I2.
Proof.
  apply (unhung_elements e sel [a] I1 I2 I3 Hsel wrapped_context).
Qed.

Lemma wrapped_unhung_elements :
  Editor.nodes e (Some (Editor.unhangRange e sel)) SlateElement.isElement All
  = (W, [a]) :: block_entries [a] k (firstn u I2).
Proof.
  destruct (unhung_blocks e sel [a] I1 I2 I3 Hsel wrapped_context)
    as [_ [fa [fb [HS HE]]]].
  pose proof (proj2 (unhung_elements e sel [a] I1 I2 I3 Hsel
                       wrapped_context)) as P.
  rewrite HS, HE in P. cbn [app] in P.
  rewrite nodes_all, HS, HE. cbn [app children e]. rewrite wrapped_span.
  rewrite filter_cons_true by reflexivity. f_equal. exact P.
Qed.

Lemma wrapped_isBlockActive T :
  isBlockActive e T
  = has_type T W || existsb (has_type T) (firstn u I2).
Proof.
  unfold isBlockActive. cbn [selection e]. fold e.
  rewrite nodes_all, filter_andb. rewrite <- nodes_all.
  rewrite wrapped_unhung_elements. cbn [filter fst].
  fold (has_type T W). destruct (has_type T W); [reflexivity|].
  apply (filter_block_entries (has_type T)).
Qed.

Lemma wrapped_all_elements :
  Editor.nodes e (Some sel) SlateElement.isElement All
  = (W, [a]) :: block_entries [a] k I2.
Proof.
  pose proof (selects_length _ _ _ _ Hsel) as Hl.
  destruct Hsel as [L [x [y [tS [tE [HS [HE _]]]]]]].
  rewrite nodes_all, HS, HE. cbn [app children e]. rewrite wrapped_span.
  rewrite filter_cons_true by reflexivity. f_equal.
  apply (span_elements [a] I1 I2 I3 [x] [y] L).
  intros E. rewrite E in Hl. simpl in Hl. lia.
Qed.

Let a' := List.length (PRE ++ Transforms.remainder wt wa I1).

Lemma wrapped_follow pt :
  pt = fst (Range.edges sel) \/ pt = snd (Range.edges sel) ->
  Transforms.follow_point (PRE ++ [W] ++ POST)
    (PRE ++ Transforms.remainder wt wa I1 ++ I2
     ++ Transforms.remainder wt wa I3 ++ POST) pt
  = move_point (unwrap_path a' k) pt.
Proof.
  pose proof (selects_length _ _ _ _ Hsel) as Hl.
  destruct Hsel as [L [x [y [tS [tE [HS [HE [GS GE]]]]]]]].
  intros Hpt.
  assert (Hc : exists c, In c (coords 0 I2)
                         /\ path pt = [a; k + fst c; snd c]).
  { destruct Hpt as [-> | ->].
    - exists (0, x). split; [apply (get_coords _ _ _ _ GS)|].
      rewrite HS. cbn [app fst snd]. fold k. rewrite Nat.add_0_r.
      reflexivity.
    - exists (List.length I2 - 1, y).
      split; [apply (get_coords _ _ _ _ GE)|].
      rewrite HE. cbn [app fst snd]. fold k.
      replace (k + List.length I2 - 1) with (k + (List.length I2 - 1))
        by lia.
      reflexivity. }
  destruct Hc as [c [Hc Hp]].
  destruct pt as [q o]. cbn [path] in Hp. subst q.
  pose proof (text_paths_top (PRE ++ Transforms.remainder wt wa I1) I2
                (Transforms.remainder wt wa I3 ++ POST) L) as Hn.
  rewrite <- app_assoc in Hn. unfold W.
  rewrite (follow_through _ _ _ _ _
             (fun c => [a; k + fst c; snd c])
             (fun c => [a' + fst c; snd c])
             _ _ c o (text_paths_wrapped PRE wt wa I1 I2 I3 POST L) Hn).
  - unfold move_point, unwrap_path. cbn [path offset].
    do 3 f_equal. lia.
  - rewrite text_paths_app, text_paths_remainder. reflexivity.
  - intros I. apply in_app_or in I. destruct I as [I | I];
      apply text_paths_first in I; destruct I as [j [r [Hq Hj]]].
    + simpl in Hq. injection Hq as Hq _. unfold a in Hq. lia.
    + simpl in Hq. injection Hq as Hq _. unfold k in Hq. lia.
  - intros [j1 z1] [j2 z2] Hq. cbn [fst snd] in Hq.
    injection Hq as Hq1 Hq2. f_equal; lia.
  - exact Hc.
Qed.

Lemma wrapped_unwrapNodes :
  isListType wt = true ->
  (forall c, In c I2 -> isListNode c = false) ->
  Transforms.unwrapNodes e isListNode true
  = mkEditor
      (PRE ++ Transforms.remainder wt wa I1 ++ I2
       ++ Transforms.remainder wt wa I3 ++ POST)
      (Some (move_range (unwrap_path a' k) sel)) m.
Proof.
  intros Hw Hi.
  pose proof (selects_length _ _ _ _ Hsel) as Hl.
  unfold Transforms.unwrapNodes. cbn [selection e]. fold e.
  assert (Ht : Editor.nodes e (Some sel) isListNode Lowest = [(W, [a])]).
  { rewrite nodes_lowest, nodes_all.
    unfold isListNode at 1. rewrite filter_andb. rewrite <- nodes_all.
    rewrite wrapped_all_elements.
    rewrite filter_cons_true by (cbn [fst type_of W]; exact Hw).
    rewrite filter_nil; [reflexivity|].
    intros x Hx.
    assert (Hx' : exists j, nth_error I2 j = Some (fst x)).
    { clear -Hx. revert Hx. generalize k.
      induction I2 as [|c l IH]; intros i Hx; [destruct Hx|].
      destruct Hx as [<- | Hx]; [exists 0; reflexivity|].
      destruct (IH _ Hx) as [j Hj]. exists (S j). exact Hj. }
    destruct Hx' as [j Hj]. apply nth_error_In in Hj.
    specialize (Hi _ Hj). unfold isListNode in Hi.
    destruct (fst x) as [t | t al ch]; [reflexivity|]. exact Hi. }
  rewrite Ht. cbn [map snd].
  destruct (Range.edges sel) as [S E] eqn:Ed.
  cbn [children e marks].
  assert (HS : path S = [a] ++ k :: [fst (0, 0)] \/ True) by (right; exact I).
  clear HS.
  assert (Hd : Transforms.unwrap_list [[a]] true (path S) (path E) [] 0
                 (PRE ++ [W] ++ POST)
               = PRE ++ Transforms.remainder wt wa I1 ++ I2
                 ++ Transforms.remainder wt wa I3 ++ POST).
  { rewrite !unwrap_list_app.
    rewrite (unwrap_list_id _ _ _ _ PRE).
    2:{ intros x Hx. apply entries_list_paths in Hx.
        destruct Hx as [j [r [Hr Hj]]]. rewrite Hr. simpl.
        destruct (Path.equals (j :: r) [a]) eqn:Q; [|reflexivity].
        apply equals_iff in Q. injection Q as Q _. unfold a in Q. lia. }
    rewrite (unwrap_list_id _ _ _ _ POST).
    2:{ intros x Hx. apply entries_list_paths in Hx.
        destruct Hx as [j [r [Hr Hj]]]. rewrite Hr. simpl.
        destruct (Path.equals (j :: r) [a]) eqn:Q; [|reflexivity].
        apply equals_iff in Q. injection Q as Q _. unfold a in Q.
        simpl in Hj. lia. }
    f_equal. cbn [Transforms.unwrap_list app Nat.add]. fold a.
    rewrite app_nil_r. unfold W. rewrite unwrap_node_element.
    cbn [path_in existsb]. rewrite equals_refl. cbn [orb].
    destruct Hsel as [_ [x [y [tS [tE [HS [HE _]]]]]]].
    rewrite Ed in HS, HE. cbn [fst snd] in HS, HE. rewrite HS, HE.
    change ([a] ++ [List.length I1; x]) with ([a] ++ List.length I1 :: [x]).
    change ([a] ++ [List.length I1 + List.length I2 - 1; y])
      with ([a] ++ (List.length I1 + List.length I2 - 1) :: [y]).
    destruct (lift_split_parts [a] (List.length I1) [x] [y] I1 I2 I3
                eq_refl) as [-> | E2].
    - cbv iota beta. rewrite match_nonempty.
      + rewrite <- !app_assoc. reflexivity.
      + intros E2. rewrite E2 in Hl. simpl in Hl. lia.
    - rewrite E2 in Hl. simpl in Hl. lia. }
  rewrite Hd. f_equal. f_equal.
  unfold Transforms.follow_range, move_range.
  assert (HS' : S = fst (Range.edges sel)) by (rewrite Ed; reflexivity).
  assert (HE' : E = snd (Range.edges sel)) by (rewrite Ed; reflexivity).
  destruct (anchor_focus_edges sel) as [[Ha Hf] | [Ha Hf]];
    rewrite !wrapped_follow by (rewrite ?Ha, ?Hf; auto); reflexivity.
Qed.

Lemma unwrapped_selects :
  selectsBlocks [] (PRE ++ Transforms.remainder wt wa I1) I2
    (move_range (unwrap_path a' k) sel).
Proof.
  pose proof (selects_length _ _ _ _ Hsel) as Hl.
  destruct Hsel as [L [x [y [tS [tE [HS [HE [GS GE]]]]]]]].
  split; [exact L|]. exists x, y, tS, tE.
  assert (Ed : Range.edges (move_range (unwrap_path a' k) sel)
               = (move_point (unwrap_path a' k) (fst (Range.edges sel)),
                  move_point (unwrap_path a' k) (snd (Range.edges sel)))).
  { apply edges_move.
    destruct (anchor_focus_edges sel) as [[-> ->] | [-> ->]];
      rewrite HS, HE; apply unwrap_path_compare; unfold k; lia. }
  rewrite Ed. cbn [fst snd move_point path]. rewrite HS, HE.
  cbn [app unwrap_path]. fold k. fold a'.
  repeat split; try assumption.
  - rewrite Nat.sub_diag, Nat.add_0_r. reflexivity.
  - match goal with
    | |- [?v; _] = [?w; _] => replace v with w by lia
    end.
    reflexivity.
Qed.

End WrappedBlocks.

(** ** Toggling block types *)

Lemma toggleBlock_steps e format :
  toggleBlock e format
  = let isActive := isBlockActive e format in
    let editor2 :=
      Transforms.setNodes (Transforms.unwrapNodes e isListNode true)
        (PType (if isActive then "paragraph"
                else if isListType format then "list-item" else format))
        None false in
    if negb isActive && isListType format
    then Transforms.wrapNodes editor2 format
    else editor2.
Proof. reflexivity. Qed.

Lemma retype_sameContent t u l : Forall2 sameContent l (retype t u l).
Proof.
  unfold retype. rewrite <- (firstn_skipn u l) at 1.
  apply Forall2_app.
  - induction (firstn u l) as [|c l' IH]; constructor; [|exact IH].
    destruct c; split; reflexivity.
  - induction (skipn u l) as [|c l' IH]; constructor; [|exact IH].
    split; reflexivity.
Qed.

Lemma sameContent_leafy l l' :
  Forall2 sameContent l l' -> Forall leafy l -> Forall leafy l'.
Proof.
  induction 1 as [|c c' l l' [Hc He] _ IH]; intros H; [constructor|].
  inversion H as [|? ? [t [a [ts [Hts ->]]]] H']; subst.
  constructor; [|apply IH; exact H'].
  destruct c' as [t' | t' a' ch']; [discriminate|].
  cbn [children_of] in Hc. subst ch'. exists t', a', ts. split; auto.
Qed.

Lemma sameContent_get l l' :
  Forall2 sameContent l l' ->
  forall j z, Node.get l' [j; z] = Node.get l [j; z].
Proof.
  induction 1 as [|c c' l l' [Hc He] _ IH]; intros j z; [reflexivity|].
  destruct j as [|j].
  - destruct c as [t | t a ch], c' as [t' | t' a' ch']; try discriminate;
      try reflexivity.
    cbn [children_of] in Hc. subst. reflexivity.
  - rewrite !get_cons. apply IH.
Qed.

Lemma retype_length t u l : List.length (retype t u l) = List.length l.
Proof.
  unfold retype. rewrite length_app, length_map, <- length_app, firstn_skipn.
  reflexivity.
Qed.

Lemma retype_selects p pre mid sel t u :
  selectsBlocks p pre mid sel -> selectsBlocks p pre (retype t u mid) sel.
Proof.
  intros [L [x [y [tS [tE [HS [HE [GS GE]]]]]]]].
  pose proof (retype_sameContent t u mid) as R.
  split; [apply (sameContent_leafy _ _ R L)|].
  exists x, y, tS, tE. rewrite retype_length, !(sameContent_get _ _ R).
  repeat split; assumption.
Qed.

Lemma retype_firstn t u l :
  u <= List.length l ->
  firstn u (retype t u l) = map (set_node (PType t)) (firstn u l)
  /\ skipn u (retype t u l) = skipn u l.
Proof.
  intros H. unfold retype.
  assert (E : List.length (map (set_node (PType t)) (firstn u l)) = u)
    by (rewrite length_map, length_firstn; lia).
  pose proof (firstn_exact _ (map (set_node (PType t)) (firstn u l))
                (skipn u l)) as X1.
  pose proof (skipn_exact _ (map (set_node (PType t)) (firstn u l))
                (skipn u l)) as X2.
  rewrite E in X1, X2. split; assumption.
Qed.

Lemma In_firstn (A : Type) (u : nat) (l : list A) (x : A) :
  In x (firstn u l) -> In x l.
Proof.
  intros H. rewrite <- (firstn_skipn u l). apply in_or_app. left. exact H.
Qed.

Lemma retype_same t u l :
  (forall c, In c l -> type_of c = Some t) -> retype t u l = l.
Proof.
  intros H. unfold retype. rewrite <- (firstn_skipn u l) at 3. f_equal.
  assert (H' : forall c, In c (firstn u l) -> type_of c = Some t)
    by (intros c Hc; apply H; apply (In_firstn _ _ _ _ Hc)).
  induction (firstn u l) as [|c l' IH]; [reflexivity|].
  simpl. rewrite IH by (intros c' Hc'; apply H'; right; exact Hc').
  f_equal. specialize (H' c (or_introl eq_refl)).
  destruct c as [t' | t' a ch]; [discriminate|].
  simpl in H'. injection H' as ->. reflexivity.
Qed.

Lemma retype_back t t' u l :
  (forall c, In c l -> SlateElement.isElement c = true
                       /\ type_of c = Some t) ->
  map (set_node (PType t)) (map (set_node (PType t')) (firstn u l))
  = firstn u l.
Proof.
  intros H.
  assert (H' : forall c, In c (firstn u l) ->
             SlateElement.isElement c = true /\ type_of c = Some t)
    by (intros c Hc; apply H; apply (In_firstn _ _ _ _ Hc)).
  induction (firstn u l) as [|c l' IH]; [reflexivity|].
  simpl. rewrite IH by (intros c' Hc'; apply H'; right; exact Hc').
  f_equal. destruct (H' c (or_introl eq_refl)) as [_ Ht].
  destruct c as [t0 | t0 a ch]; [discriminate|].
  simpl in Ht. injection Ht as ->. reflexivity.
Qed.

Lemma existsb_false (A : Type) (f : A -> bool) l :
  (forall x, In x l -> f x = false) -> existsb f l = false.
Proof.
  induction l as [|x l IH]; intros H; [reflexivity|]. simpl.
  rewrite (H x) by (left; reflexivity). apply IH. intros y Hy. apply H.
  right. exact Hy.
Qed.

(** No block of the selection is a list container: unwrapping does
    nothing. *)
Lemma top_unwrapNodes pre mid post sel m :
  selectsBlocks [] pre mid sel ->
  (forall c, In c mid -> isListNode c = false) ->
  Transforms.unwrapNodes (mkEditor (pre ++ mid ++ post) (Some sel) m)
    isListNode true
  = mkEditor (pre ++ mid ++ post) (Some sel) m.
Proof.
  intros Hsel Hi. apply (unwrapNodes_no_match _ sel); [reflexivity|].
  rewrite nodes_all. unfold isListNode at 1. rewrite filter_andb.
  rewrite <- nodes_all, top_all_elements by exact Hsel.
  apply filter_nil. intros x Hx.
  assert (Hx' : In (fst x) mid).
  { clear -Hx. revert Hx. generalize (List.length pre).
    induction mid as [|c l IH]; intros i Hx; [destruct Hx|].
    destruct Hx as [<- | Hx]; [left; reflexivity|].
    right. apply (IH _ Hx). }
  specialize (Hi _ Hx'). unfold isListNode in Hi.
  destruct (fst x) as [t | t al ch]; [reflexivity | exact Hi].
Qed.

Lemma has_type_iff T c : has_type T c = true <-> type_of c = Some T.
Proof.
  unfold has_type. destruct (type_of c) as [t|]; simpl.
  - rewrite String.eqb_eq. split; congruence.
  - split; discriminate.
Qed.

Lemma retype_blocks pre mid post t u :
  pre ++ map (set_node (PType t)) (firstn u mid) ++ skipn u mid ++ post
  = pre ++ retype t u mid ++ post.
Proof. unfold retype. rewrite <- !app_assoc. reflexivity. Qed.

(** One toggle of a type that is no list kind, over blocks none of
    which is a list container. *)
Lemma toggleBlock_plain pre mid post sel m T :
  selectsBlocks [] pre mid sel ->
  (forall c, In c mid -> isListNode c = false) ->
  isListType T = false ->
  toggleBlock (mkEditor (pre ++ mid ++ post) (Some sel) m) T
  = mkEditor
      (pre
       ++ retype
            (if existsb (has_type T)
                  (firstn (unhungCount sel (List.length mid)) mid)
             then "paragraph" else T)
            (unhungCount sel (List.length mid)) mid
       ++ post)
      (Some sel) m.
Proof.
  intros Hsel Hi Hl. rewrite toggleBlock_steps. cbv zeta.
  rewrite (top_isBlockActive pre mid post sel m Hsel).
  rewrite (top_unwrapNodes pre mid post sel m Hsel Hi).
  rewrite (top_setNodes pre mid post sel m Hsel), Hl, andb_false_r.
  rewrite retype_blocks. reflexivity.
Qed.

(** One toggle of a list kind that is not active, over blocks none of
    which is a list container. *)
Lemma toggleBlock_wrap pre mid post sel m T :
  selectsBlocks [] pre mid sel ->
  (forall c, In c mid -> isListNode c = false) ->
  isListType T = true ->
  existsb (has_type T) (firstn (unhungCount sel (List.length mid)) mid)
  = false ->
  toggleBlock (mkEditor (pre ++ mid ++ post) (Some sel) m) T
  = mkEditor
      (pre
       ++ [ElementNode T None
             (retype "list-item" (unhungCount sel (List.length mid)) mid)]
       ++ post)
      (Some (move_range (wrap_path (List.length pre)) sel)) m.
Proof.
  intros Hsel Hi Hl Ha. rewrite toggleBlock_steps. cbv zeta.
  rewrite (top_isBlockActive pre mid post sel m Hsel), Ha.
  rewrite (top_unwrapNodes pre mid post sel m Hsel Hi).
  rewrite (top_setNodes pre mid post sel m Hsel), Hl.
  cbn [negb andb]. rewrite retype_blocks.
  apply top_wrapNodes. apply retype_selects. exact Hsel.
Qed.

(** One toggle of the list kind of the container that holds the whole
    selection. *)
Lemma toggleBlock_unwrap pre mid post sel m T :
  selectsBlocks [List.length pre] [] mid sel ->
  (forall c, In c mid -> isListNode c = false) ->
  isListType T = true ->
  toggleBlock
    (mkEditor (pre ++ [ElementNode T None mid] ++ post) (Some sel) m) T
  = mkEditor
      (pre
       ++ retype "paragraph"
            (unhungCount (move_range (unwrap_path (List.length pre) 0) sel)
               (List.length mid))
            mid
       ++ post)
      (Some (move_range (unwrap_path (List.length pre) 0) sel)) m.
Proof.
  intros Hsel Hi Hl. rewrite toggleBlock_steps. cbv zeta.
  pose proof (wrapped_isBlockActive pre [] mid [] post T None sel m) as A.
  pose proof (wrapped_unwrapNodes pre [] mid [] post T None sel m) as U.
  pose proof (unwrapped_selects pre [] mid T None sel) as S.
  cbn [app Transforms.remainder List.length] in A, U, S |- *.
  rewrite !app_nil_r in *.
  rewrite A by exact Hsel.
  replace (has_type T (ElementNode T None mid)) with true
    by (symmetry; apply has_type_iff; reflexivity).
  cbn [orb negb andb].
  rewrite U by assumption.
  specialize (S Hsel).
  rewrite (top_setNodes pre mid post _ m S).
  rewrite retype_blocks. reflexivity.
Qed.

Lemma unwrap_wrap_point a pt :
  (exists i r, path pt = i :: r /\ a <= i) ->
  move_point (unwrap_path a 0) (move_point (wrap_path a) pt) = pt.
Proof.
  intros [i [r [H Hi]]]. destruct pt as [q o]. cbn [path] in H. subst q.
  unfold move_point, wrap_path, unwrap_path. cbn [path offset].
  replace (a + (i - a - 0)) with i by lia. reflexivity.
Qed.

Lemma unwrap_wrap_range pre mid sel :
  selectsBlocks [] pre mid sel ->
  move_range (unwrap_path (List.length pre) 0)
    (move_range (wrap_path (List.length pre)) sel) = sel.
Proof.
  intros Hsel. pose proof (selects_length _ _ _ _ Hsel) as Hn.
  destruct Hsel as [_ [x [y [tS [tE [HS [HE _]]]]]]].
  unfold move_range. cbn [anchor focus].
  assert (P : forall pt,
             pt = fst (Range.edges sel) \/ pt = snd (Range.edges sel) ->
             exists i r, path pt = i :: r /\ List.length pre <= i).
  { intros pt [-> | ->].
    - exists (List.length pre), [x]. split; [exact HS | lia].
    - exists (List.length pre + List.length mid - 1), [y].
      split; [exact HE | lia]. }
  destruct (anchor_focus_edges sel) as [[Ha Hf] | [Ha Hf]];
    rewrite !unwrap_wrap_point by (apply P; rewrite ?Ha, ?Hf; auto);
    destruct sel; reflexivity.
Qed.

Lemma retype_retype t t' u l :
  u <= List.length l ->
  (forall c, In c l -> SlateElement.isElement c = true
                       /\ type_of c = Some t) ->
  retype t u (retype t' u l) = l.
Proof.
  intros Hu H. unfold retype at 1.
  destruct (retype_firstn t' u l Hu) as [-> ->].
  rewrite (retype_back t t' u l H). apply firstn_skipn.
Qed.

Lemma retype_not_list t u l :
  isListType t = false ->
  (forall c, In c l -> isListNode c = false) ->
  forall c, In c (retype t u l) -> isListNode c = false.
Proof.
  intros Ht H c Hc. unfold retype in Hc. apply in_app_or in Hc.
  destruct Hc as [Hc | Hc].
  - apply in_map_iff in Hc. destruct Hc as [c0 [<- Hc0]].
    destruct c0 as [t0 | t0 a ch]; [reflexivity|].
    unfold isListNode. simpl. exact Ht.
  - apply H. rewrite <- (firstn_skipn u l). apply in_or_app. right. exact Hc.
Qed.

Lemma paragraph_not_list c :
  type_of c = Some "paragraph" -> isListNode c = false.
Proof.
  intros H. unfold isListNode. rewrite H. apply andb_false_r.
Qed.

Lemma leafy_element c : leafy c -> SlateElement.isElement c = true.
Proof. intros [t [a [ts [_ ->]]]]. reflexivity. Qed.

(** C6 fails in the code.  In [hangingIntoList] the selection covers
    one plain paragraph, the only block of its unhung range, and only
    hangs into the list below.  Two toggles of any block type of the
    toolbar do not give the document back: [Transforms.unwrapNodes],
    which does not unhang the selection, lifts the first item out of
    the list, and nothing puts it back; a list item is left outside
    every list. *)
Theorem toggleBlock_twice_hanging_into_list :
  map snd
    (Editor.nodes hangingIntoList
       (option_map (Editor.unhangRange hangingIntoList)
          (selection hangingIntoList))
       SlateElement.isElement Lowest)
  = [[0]]
  /\ Forall
       (fun T =>
          children (toggleBlock (toggleBlock hangingIntoList T) T)
          = [ElementNode "paragraph" None [TextNode (plain "a")];
             ElementNode "list-item" None [TextNode (plain "x")];
             ElementNode "bulleted-list" None
               [ElementNode "list-item" None [TextNode (plain "y")]]])
       ["paragraph"; "heading-one"; "heading-two"; "heading-three";
        "bulleted-list"; "numbered-list"]
  /\ [ElementNode "paragraph" None [TextNode (plain "a")];
      ElementNode "list-item" None [TextNode (plain "x")];
      ElementNode "bulleted-list" None
        [ElementNode "list-item" None [TextNode (plain "y")]]]
     <> children hangingIntoList.
Proof.
  split; [reflexivity|]. split.
  - repeat constructor.
  - discriminate.
Qed.

(** X20: Two toggles of one block type give back the editor (document,
    selection and pending marks) when every block between the edges of
    the selection, a block that the selection only hangs into
    included, is a top-level plain paragraph of texts, whatever the
    type: a list kind (the paragraphs become list items in a new
    container, which the second toggle unwraps), [paragraph] itself,
    or any other type. *)
Theorem toggleBlock_twice_plain
    (pre mid post : list Descendant) (sel : Range) (m : option Marks)
    (T : string) :
  selectsBlocks [] pre mid sel ->
  (forall c, In c mid -> type_of c = Some "paragraph") ->
  toggleBlock (toggleBlock (mkEditor (pre ++ mid ++ post) (Some sel) m) T) T
  = mkEditor (pre ++ mid ++ post) (Some sel) m.
Proof.
  intros Hsel Hp.
  set (u := unhungCount sel (List.length mid)).
  pose proof (top_unhung_count pre mid post sel m Hsel) as Hu. fold u in Hu.
  assert (Hi : forall c, In c mid -> isListNode c = false)
    by (intros c Hc; apply paragraph_not_list, Hp, Hc).
  assert (He : forall c, In c mid ->
             SlateElement.isElement c = true
             /\ type_of c = Some "paragraph").
  { intros c Hc. split; [|apply Hp, Hc]. apply leafy_element.
    destruct Hsel as [L _]. rewrite Forall_forall in L. apply L, Hc. }
  destruct (isListType T) eqn:Hl.
  - (* a list kind *)
    assert (Ha : existsb (has_type T) (firstn u mid) = false).
    { apply existsb_false. intros c Hc. apply In_firstn in Hc.
      destruct (has_type T c) eqn:E; [|reflexivity].
      apply has_type_iff in E. rewrite (Hp c Hc) in E. injection E as <-.
      discriminate. }
    rewrite (toggleBlock_wrap pre mid post sel m T Hsel Hi Hl Ha). fold u.
    pose proof (wrapped_selects pre (retype "list-item" u mid) sel
                  (retype_selects _ _ _ _ "list-item" u Hsel)) as Hw.
    rewrite (toggleBlock_unwrap pre _ post _ m T Hw).
    + rewrite (unwrap_wrap_range pre mid sel Hsel), retype_length. fold u.
      rewrite (retype_retype "paragraph" "list-item" u mid) by (lia || exact He).
      reflexivity.
    + apply retype_not_list; [reflexivity | exact Hi].
    + exact Hl.
  - (* any other type *)
    rewrite (toggleBlock_plain pre mid post sel m T Hsel Hi Hl). fold u.
    destruct (existsb (has_type T) (firstn u mid)) eqn:Ha.
    + (* the type is paragraph: nothing changes *)
      rewrite (retype_same "paragraph" u mid Hp).
      rewrite (toggleBlock_plain pre mid post sel m T Hsel Hi Hl). fold u.
      rewrite Ha, (retype_same "paragraph" u mid Hp). reflexivity.
    + pose proof (retype_selects _ _ _ _ T u Hsel) as Hr.
      rewrite (toggleBlock_plain pre _ post sel m T Hr).
      * rewrite retype_length. fold u.
        destruct (retype_firstn T u mid (proj2 Hu)) as [F _]. rewrite F.
        assert (Hb : existsb (has_type T)
                       (map (set_node (PType T)) (firstn u mid)) = true).
        { destruct mid as [|c mid'] eqn:Em; [simpl in Hu; lia|].
          destruct u as [|u']; [lia|]. simpl.
          destruct (He c (or_introl eq_refl)) as [Hc _].
          destruct c as [t | t a ch]; [discriminate|]. simpl.
          unfold has_type. simpl. rewrite String.eqb_refl. reflexivity. }
        rewrite Hb.
        rewrite (retype_retype "paragraph" T u mid) by (lia || exact He).
        reflexivity.
      * apply retype_not_list; [exact Hl | exact Hi].
      * exact Hl.
Qed.

Lemma toggleBlock_twice_witness :
  toggleBlock
    (toggleBlock
       (mkEditor
          ([ElementNode "heading-one" None [TextNode (plain "a")]]
           ++ [ElementNode "paragraph" None [TextNode (plain "b")];
               ElementNode "paragraph" (Some "center")
                 [TextNode (plain "c")]]
           ++ [ElementNode "paragraph" None [TextNode (plain "d")]])
          (Some (mkRange (mkPoint [1; 0] 0) (mkPoint [2; 0] 1))) None)
       "bulleted-list")
    "bulleted-list"
  = mkEditor
      ([ElementNode "heading-one" None [TextNode (plain "a")]]
       ++ [ElementNode "paragraph" None [TextNode (plain "b")];
           ElementNode "paragraph" (Some "center") [TextNode (plain "c")]]
       ++ [ElementNode "paragraph" None [TextNode (plain "d")]])
      (Some (mkRange (mkPoint [1; 0] 0) (mkPoint [2; 0] 1))) None.
Proof.
  apply (toggleBlock_twice_plain
           [ElementNode "heading-one" None [TextNode (plain "a")]]
           [ElementNode "paragraph" None [TextNode (plain "b")];
            ElementNode "paragraph" (Some "center") [TextNode (plain "c")]]
           [ElementNode "paragraph" None [TextNode (plain "d")]]
           (mkRange (mkPoint [1; 0] 0) (mkPoint [2; 0] 1)) None
           "bulleted-list").
  - split.
    + repeat constructor.
      * exists "paragraph", None, [plain "b"]. split; [discriminate|].
        reflexivity.
      * exists "paragraph", (Some "center"), [plain "c"].
        split; [discriminate|]. reflexivity.
    + exists 0, 0, (plain "b"), (plain "c"). repeat split; reflexivity.
  - intros c [<- | [<- | []]]; reflexivity.
Defined.

(** ** Switching the kind of a list *)

Lemma noOrphan_remainder t a ch :
  isListType t = true ->
  forallb (noOrphanItem true) ch = true ->
  noOrphanItems (Transforms.remainder t a ch) = true.
Proof.
  intros Ht H. destruct ch as [|c ch]; [reflexivity|].
  unfold Transforms.remainder, noOrphanItems.
  cbn [forallb noOrphanItem]. rewrite Ht.
  destruct (t =? "list-item") eqn:E.
  - apply String.eqb_eq in E. subst t. discriminate.
  - cbn [negb orb andb]. cbn [forallb] in H. rewrite H. reflexivity.
Qed.

(** C4: the selection lies in the items [I2] of a bulleted list, between
    the items [I1] and [I3].  Toggling [numbered-list] puts exactly the
    items [I2] in one new [numbered-list] container, at the place where
    they were, with the selection in it; the items before and after stay
    in bulleted lists of their own; and if no [list-item] was outside a
    list container before, none is afterwards. *)
Theorem toggleBlock_bulleted_to_numbered
    (PRE I1 I2 I3 POST : list Descendant) (wa : option string)
    (sel : Range) (m : option Marks) :
  selectsBlocks [List.length PRE] I1 I2 sel ->
  (forall c, In c I2 -> type_of c = Some "list-item") ->
  toggleBlock
    (mkEditor
       (PRE ++ [ElementNode "bulleted-list" wa (I1 ++ I2 ++ I3)] ++ POST)
       (Some sel) m)
    "numbered-list"
  = mkEditor
      ((PRE ++ Transforms.remainder "bulleted-list" wa I1)
       ++ [ElementNode "numbered-list" None I2]
       ++ (Transforms.remainder "bulleted-list" wa I3 ++ POST))
      (Some
         (move_range
            (wrap_path
               (List.length
                  (PRE ++ Transforms.remainder "bulleted-list" wa I1)))
            (move_range
               (unwrap_path
                  (List.length
                     (PRE ++ Transforms.remainder "bulleted-list" wa I1))
                  (List.length I1))
               sel)))
      m
  /\ selectsBlocks
       [List.length (PRE ++ Transforms.remainder "bulleted-list" wa I1)]
       [] I2
       (move_range
          (wrap_path
             (List.length
                (PRE ++ Transforms.remainder "bulleted-list" wa I1)))
          (move_range
             (unwrap_path
                (List.length
                   (PRE ++ Transforms.remainder "bulleted-list" wa I1))
                (List.length I1))
             sel))
  /\ (noOrphanItems
        (PRE ++ [ElementNode "bulleted-list" wa (I1 ++ I2 ++ I3)] ++ POST)
      = true ->
      noOrphanItems
        ((PRE ++ Transforms.remainder "bulleted-list" wa I1)
         ++ [ElementNode "numbered-list" None I2]
         ++ (Transforms.remainder "bulleted-list" wa I3 ++ POST))
      = true).
Proof.
  intros Hsel Ht.
  assert (Hi : forall c, In c I2 -> isListNode c = false).
  { intros c Hc. unfold isListNode. rewrite (Ht c Hc). apply andb_false_r. }
  pose proof (unwrapped_selects PRE I1 I2 "bulleted-list" wa sel Hsel) as S.
  split; [|split].
  - rewrite toggleBlock_steps. cbv zeta.
    rewrite (wrapped_isBlockActive PRE I1 I2 I3 POST "bulleted-list" wa
               sel m Hsel).
    replace (has_type "numbered-list"
               (ElementNode "bulleted-list" wa (I1 ++ I2 ++ I3)))
      with false by reflexivity.
    rewrite existsb_false.
    2:{ intros c Hc. apply In_firstn in Hc.
        unfold has_type. rewrite (Ht c Hc). reflexivity. }
    cbn [orb negb andb].
    rewrite (wrapped_unwrapNodes PRE I1 I2 I3 POST "bulleted-list" wa
               sel m Hsel eq_refl Hi).
    rewrite (app_assoc PRE).
    rewrite (top_setNodes _ I2 _ _ m S), retype_blocks.
    rewrite (retype_same "list-item" _ I2 Ht).
    replace (isListType "numbered-list") with true by reflexivity.
    apply top_wrapNodes. exact S.
  - apply wrapped_selects. exact S.
  - unfold noOrphanItems. rewrite !forallb_app. cbn [forallb noOrphanItem].
    replace (isListType "bulleted-list") with true by reflexivity.
    replace (isListType "numbered-list") with true by reflexivity.
    rewrite !forallb_app, !andb_true_iff.
    intros [HP [[[_ [H1 [H2 H3]]] _] HQ]].
    repeat split; try assumption;
      apply (noOrphan_remainder "bulleted-list" wa); auto.
Qed.

Lemma toggleBlock_bulleted_to_numbered_witness :
  children
    (toggleBlock
       (mkEditor
          ([ElementNode "paragraph" None [TextNode (plain "p")]]
           ++ [ElementNode "bulleted-list" None
                 ([ElementNode "list-item" None [TextNode (plain "a")]]
                  ++ [ElementNode "list-item" None [TextNode (plain "b")]]
                  ++ [ElementNode "list-item" None [TextNode (plain "c")]])]
           ++ [])
          (Some (mkRange (mkPoint [1; 1; 0] 0) (mkPoint [1; 1; 0] 1))) None)
       "numbered-list")
  = [ElementNode "paragraph" None [TextNode (plain "p")];
     ElementNode "bulleted-list" None
       [ElementNode "list-item" None [TextNode (plain "a")]];
     ElementNode "numbered-list" None
       [ElementNode "list-item" None [TextNode (plain "b")]];
     ElementNode "bulleted-list" None
       [ElementNode "list-item" None [TextNode (plain "c")]]]
  /\ noOrphanItems
       [ElementNode "paragraph" None [TextNode (plain "p")];
        ElementNode "bulleted-list" None
          [ElementNode "list-item" None [TextNode (plain "a")]];
        ElementNode "numbered-list" None
          [ElementNode "list-item" None [TextNode (plain "b")]];
        ElementNode "bulleted-list" None
          [ElementNode "list-item" None [TextNode (plain "c")]]]
     = true.
Proof.
  assert (Hsel : selectsBlocks
                   [List.length
                      [ElementNode "paragraph" None [TextNode (plain "p")]]]
                   [ElementNode "list-item" None [TextNode (plain "a")]]
                   [ElementNode "list-item" None [TextNode (plain "b")]]
                   (mkRange (mkPoint [1; 1; 0] 0) (mkPoint [1; 1; 0] 1))).
  { split.
    - repeat constructor. exists "list-item", None, [plain "b"].
      split; [discriminate | reflexivity].
    - exists 0, 0, (plain "b"), (plain "b"). repeat split; reflexivity. }
  destruct (toggleBlock_bulleted_to_numbered
              [ElementNode "paragraph" None [TextNode (plain "p")]]
              [ElementNode "list-item" None [TextNode (plain "a")]]
              [ElementNode "list-item" None [TextNode (plain "b")]]
              [ElementNode "list-item" None [TextNode (plain "c")]]
              [] None
              (mkRange (mkPoint [1; 1; 0] 0) (mkPoint [1; 1; 0] 1)) None
              Hsel)
    as [E [_ O]].
  - intros c [<- | []]. reflexivity.
  - split.
    + rewrite E. reflexivity.
    + apply O. reflexivity.
Defined.

(** ** Strings joined *)

Lemma append_empty_r (s : string) : (s ++ "")%string = s.
Proof. induction s as [|c s IH]; [reflexivity|]. simpl. now rewrite IH. Qed.

Lemma append_assoc (a b c : string) :
  ((a ++ b) ++ c)%string = (a ++ (b ++ c))%string.
Proof. induction a as [|x a IH]; [reflexivity|]. simpl. now rewrite IH. Qed.

Lemma join_cons (x : string) (xs : list string) :
  String.concat "" (x :: xs) = (x ++ String.concat "" xs)%string.
Proof.
  destruct xs as [|y xs]; [simpl; now rewrite append_empty_r|reflexivity].
Qed.

Lemma join_app (l1 l2 : list string) :
  String.concat "" (l1 ++ l2)
  = (String.concat "" l1 ++ String.concat "" l2)%string.
Proof.
  induction l1 as [|x l1 IH]; [reflexivity|].
  rewrite <- app_comm_cons, !join_cons, IH, append_assoc. reflexivity.
Qed.

(** ** A mark toggled inside one block of texts *)

Lemma equals_false p q : p <> q -> Path.equals p q = false.
Proof.
  intros H. destruct (Path.equals p q) eqn:E; [|reflexivity].
  apply equals_iff in E. contradiction.
Qed.

Lemma path_in_one p q : path_in p [q] = Path.equals p q.
Proof. unfold path_in. cbn [existsb]. apply orb_false_r. Qed.

Section Block.

Variables (pre post : list Descendant) (ty : string) (al : option string).

Lemma block_get_top ls :
  Node.get (pre ++ ElementNode ty al ls :: post) [List.length pre]
  = Some (ElementNode ty al ls).
Proof.
  cbn [Node.get]. rewrite nth_error_app2, Nat.sub_diag by lia. reflexivity.
Qed.

Lemma block_get ls z :
  Node.get (pre ++ ElementNode ty al ls :: post) [List.length pre; z]
  = nth_error ls z.
Proof.
  change (Node.get (pre ++ ElementNode ty al ls :: post) [List.length pre; z])
    with (match nth_error (pre ++ ElementNode ty al ls :: post)
                  (List.length pre) with
          | Some (ElementNode _ _ ch) => Node.get ch [z]
          | _ => None
          end).
  rewrite nth_error_app2, Nat.sub_diag by lia. reflexivity.
Qed.

Lemma block_update_children_at f ls :
  Transforms.update_children_at [List.length pre] f
    (pre ++ ElementNode ty al ls :: post)
  = pre ++ ElementNode ty al (f ls) :: post.
Proof.
  cbn [Transforms.update_children_at].
  rewrite firstn_exact, skipn_exact. reflexivity.
Qed.

Lemma leaves_span p ts :
  forall i z t,
    i <= z -> nth_error ts (z - i) = Some t ->
    filter (fun x => Editor.in_span (p ++ [z]) (p ++ [z]) (snd x))
      (Node.entries_list p i (map TextNode ts))
    = [(TextNode t, p ++ [z])].
Proof.
  induction ts as [|t0 ts IH]; intros i z t Hz Hn.
  - destruct (z - i); discriminate.
  - cbn [map Node.entries_list]. rewrite entries_node_text.
    cbn [app filter snd]. rewrite in_span_app, in_span_cons.
    destruct (Nat.eq_dec z i) as [-> | Hne].
    + rewrite Nat.sub_diag in Hn. injection Hn as ->.
      rewrite Nat.ltb_irrefl, Nat.eqb_refl. cbn [orb].
      unfold Path.isBefore, Path.isAfter. cbn [Path.compare negb andb].
      rewrite (span_after p (map TextNode ts) (S i) i [] (p ++ [i]))
        by lia.
      reflexivity.
    + destruct (Nat.ltb_spec i z) as [L | L]; [|lia].
      cbn [orb]. apply IH; [lia|].
      replace (z - i) with (S (z - S i)) in Hn by lia. exact Hn.
Qed.

Lemma block_nodes_one ts s m r A B z t mode :
  Range.edges r = (A, B) ->
  path A = [List.length pre; z] -> path B = [List.length pre; z] ->
  nth_error ts z = Some t ->
  Editor.nodes
    (mkEditor (pre ++ ElementNode ty al (map TextNode ts) :: post) s m)
    (Some r) Text.isText mode
  = [(TextNode t, [List.length pre; z])].
Proof.
  intros Hr HS HE Hn.
  assert (N : Editor.nodes
                (mkEditor (pre ++ ElementNode ty al (map TextNode ts) :: post)
                   s m)
                (Some r) Text.isText All
              = [(TextNode t, [List.length pre; z])]).
  { rewrite nodes_all, Hr. cbn [fst snd children]. rewrite HS, HE.
    unfold Node.nodes. rewrite entries_list_app, filter_app.
    rewrite (span_before [] pre 0 (List.length pre) [z]) by lia.
    cbn [app Node.entries_list Nat.add].
    rewrite entries_node_element, filter_app.
    rewrite (span_after [] post (S (List.length pre)) (List.length pre) [z])
      by lia.
    rewrite app_nil_r. cbn [filter snd].
    rewrite (in_span_cons (List.length pre) [z] (List.length pre) [z]
               (List.length pre) []).
    rewrite Nat.ltb_irrefl, Nat.eqb_refl. cbn [orb].
    unfold Path.isBefore at 1. unfold Path.isAfter at 1.
    cbn [Path.compare negb andb filter fst Text.isText].
    pose proof (leaves_span [List.length pre] ts 0 z t (Nat.le_0_l z)) as Q.
    rewrite Nat.sub_0_r in Q. cbn [app] in Q. rewrite (Q Hn).
    reflexivity. }
  destruct mode; [exact N|]. rewrite nodes_texts_lowest. exact N.
Qed.

Lemma block_update_one f ts1 c ts2 :
  update_list [[List.length pre; List.length ts1]] f [] 0
    (pre ++ ElementNode ty al (map TextNode ts1 ++ c :: map TextNode ts2)
         :: post)
  = pre ++ ElementNode ty al (map TextNode ts1 ++ f c :: map TextNode ts2)
        :: post.
Proof.
  set (T := [[List.length pre; List.length ts1]]).
  assert (HT : forall q, In q T -> List.length q = S (List.length [List.length pre]))
    by (intros q [<- | []]; reflexivity).
  rewrite update_list_app. f_equal.
  - apply update_list_id. intros x Hx I.
    apply entries_list_paths in Hx. destruct Hx as [j [r [Hr Hj]]].
    apply path_in_iff in I. destruct I as [I | []].
    rewrite Hr in I. cbn [app] in I. injection I as I _. lia.
  - cbn [update_list Nat.add app]. f_equal.
    + rewrite update_node_element.
      replace (path_in [List.length pre] T) with false
        by (symmetry; unfold T; rewrite path_in_one; apply equals_false;
            discriminate).
      f_equal. rewrite update_list_app. f_equal.
      * apply (update_list_outside T f [List.length pre] _ HT).
        intros j Hj. unfold T. rewrite path_in_one. apply equals_false.
        rewrite length_map in Hj. cbn [app]. intros E. injection E as E. lia.
      * cbn [update_list]. f_equal.
        -- rewrite (update_node_top T f [List.length pre] _ c HT).
           rewrite length_map. cbn [Nat.add app]. unfold T.
           rewrite path_in_one, equals_refl. reflexivity.
        -- apply (update_list_outside T f [List.length pre] _ HT).
           intros j Hj. unfold T. rewrite path_in_one. apply equals_false.
           rewrite length_map in Hj. cbn [app]. intros E. injection E as E.
           lia.
    + apply update_list_id. intros x Hx I.
      apply entries_list_paths in Hx. destruct Hx as [j [r [Hr Hj]]].
      apply path_in_iff in I. destruct I as [I | []].
      rewrite Hr in I. cbn [app] in I. injection I as I _. lia.
Qed.

End Block.


(** Strings cut in two. *)
Lemma str_take_drop n s :
  (Transforms.str_take n s ++ Transforms.str_drop n s)%string = s.
Proof.
  revert s. induction n as [|n IH]; intros [|c s]; try reflexivity.
  cbn [Transforms.str_take Transforms.str_drop String.append].
  rewrite IH. reflexivity.
Qed.

Lemma str_take_length n s :
  n <= String.length s -> String.length (Transforms.str_take n s) = n.
Proof.
  revert s. induction n as [|n IH]; intros [|c s] H; try reflexivity.
  - simpl in H. lia.
  - cbn [Transforms.str_take String.length]. rewrite IH; [reflexivity|].
    simpl in H. lia.
Qed.

Lemma str_drop_length n s :
  String.length (Transforms.str_drop n s) = String.length s - n.
Proof.
  revert s. induction n as [|n IH]; intros [|c s]; try reflexivity.
  cbn [Transforms.str_drop String.length Nat.sub]. apply IH.
Qed.

Lemma str_take_all n s :
  String.length s <= n -> Transforms.str_take n s = s.
Proof.
  revert s. induction n as [|n IH]; intros [|c s] H; try reflexivity.
  - simpl in H. lia.
  - cbn [Transforms.str_take]. rewrite IH; [reflexivity|]. simpl in H. lia.
Qed.

Lemma str_take_take i j s :
  i <= j -> Transforms.str_take i (Transforms.str_take j s)
            = Transforms.str_take i s.
Proof.
  revert j s. induction i as [|i IH]; intros [|j] [|c s] H;
    try reflexivity; try lia.
  cbn [Transforms.str_take]. rewrite IH by lia. reflexivity.
Qed.

Lemma length_not_empty s : 0 < String.length s -> (s =? "") = false.
Proof. destruct s; [simpl; lia | reflexivity]. Qed.

Lemma text_set_mark k v t : text (set_mark k v t) = text t.
Proof. destruct k; reflexivity. Qed.

Lemma marks_eqb_get k t u :
  Transforms.marks_eqb t u = true -> get_mark k t = get_mark k u.
Proof.
  unfold Transforms.marks_eqb. intros H.
  repeat (apply andb_true_iff in H; destruct H as [H ?]).
  destruct k; apply option_bool_eqb_eq; assumption.
Qed.

Lemma marks_eqb_differ k t u :
  get_mark k t <> get_mark k u -> Transforms.marks_eqb t u = false.
Proof.
  intros H. destruct (Transforms.marks_eqb t u) eqn:E; [|reflexivity].
  apply (marks_eqb_get k) in E. contradiction.
Qed.

Lemma option_bool_eqb_refl a : Transforms.option_bool_eqb a a = true.
Proof. destruct a as [[]|]; reflexivity. Qed.

Lemma marks_eqb_with_text_same s1 s2 t :
  Transforms.marks_eqb (Transforms.with_text s1 t) (Transforms.with_text s2 t)
  = true.
Proof.
  unfold Transforms.marks_eqb. cbn.
  rewrite !option_bool_eqb_refl. reflexivity.
Qed.

(** ** Blocks that normalisation leaves as they are, and blocks that
    it merges into one leaf *)

Lemma norm_fold_normal ts :
  forall ds pt,
    normalLeaves (ds ++ ts) ->
    fold_left Transforms.norm_step (map TextNode ts) (map TextNode ds, pt)
    = (map TextNode (ds ++ ts), pt).
Proof.
  induction ts as [|c ts IH]; intros ds pt N.
  - rewrite app_nil_r. reflexivity.
  - cbn [map fold_left].
    assert (E : Transforms.norm_step (map TextNode ds, pt) (TextNode c)
                = (map TextNode (ds ++ [c]), pt)).
    { destruct pt as [j off]. unfold Transforms.norm_step.
      rewrite map_app. cbn [map].
      destruct (nth_error (map TextNode ds)
                  (List.length (map TextNode ds) - 1))
        as [[tp | ? ? ?]|] eqn:En; try reflexivity.
      destruct (0 <? List.length (map TextNode ds))%nat; [|reflexivity].
      pose proof (removelast_nth_last _ _ _ En) as D.
      assert (D' : ds = removelast ds ++ [tp]).
      { rewrite nth_error_map, length_map in En.
        destruct (nth_error ds (List.length ds - 1)) as [x|] eqn:Ex;
          [|discriminate].
        injection En as ->. apply removelast_nth_last. exact Ex. }
      destruct N as [N1 N2].
      rewrite (N2 (removelast ds) tp c ts)
        by (rewrite D' at 1; rewrite <- app_assoc; reflexivity).
      rewrite Forall_forall in N1.
      assert (Ep : (text tp =? "") = false).
      { apply String.eqb_neq. apply N1. rewrite D' at 1.
        apply in_or_app. left. apply in_or_app. right. left. reflexivity. }
      assert (Ec : (text c =? "") = false).
      { apply String.eqb_neq. apply N1.
        apply in_or_app. right. left. reflexivity. }
      rewrite Ep, Ec. reflexivity. }
    rewrite E, IH by (rewrite <- app_assoc; exact N).
    rewrite <- app_assoc. reflexivity.
Qed.

Lemma normalize_children_normal ts :
  normalLeaves ts ->
  Transforms.normalize_children (map TextNode ts) = map TextNode ts.
Proof.
  intros N. unfold Transforms.normalize_children.
  change (@nil Descendant) with (map TextNode []).
  rewrite (norm_fold_normal ts [] (0, 0) N). reflexivity.
Qed.

Lemma normalize_index_normal ts pt :
  normalLeaves ts ->
  Transforms.normalize_index (map TextNode ts) pt = pt.
Proof.
  intros N. unfold Transforms.normalize_index.
  change (@nil Descendant) with (map TextNode []).
  rewrite (norm_fold_normal ts [] pt N). reflexivity.
Qed.

Lemma norm_fold_merge t ss :
  forall acc pt,
    fst (fold_left Transforms.norm_step
           (map (fun s => TextNode (Transforms.with_text s t)) ss)
           ([TextNode (Transforms.with_text acc t)], pt))
    = [TextNode (Transforms.with_text (String.concat "" (acc :: ss)) t)].
Proof.
  induction ss as [|s ss IH]; intros acc pt.
  - reflexivity.
  - cbn [map fold_left]. destruct pt as [j off].
    unfold Transforms.norm_step at 2.
    cbn [List.length Nat.sub nth_error Nat.ltb Nat.leb].
    rewrite marks_eqb_with_text_same. cbn [Nat.eqb negb].
    rewrite andb_false_r. cbn [removelast app].
    change (text (Transforms.with_text acc t)) with acc.
    change (text (Transforms.with_text s t)) with s.
    change (Transforms.with_text (acc ++ s)
              (Transforms.with_text acc t))
      with (Transforms.with_text (acc ++ s) t).
    rewrite IH. rewrite !join_cons, append_assoc. reflexivity.
Qed.

Lemma normalize_children_merge t s ss :
  Transforms.normalize_children
    (map (fun s => TextNode (Transforms.with_text s t)) (s :: ss))
  = [TextNode (Transforms.with_text (String.concat "" (s :: ss)) t)].
Proof.
  unfold Transforms.normalize_children. cbn [map fold_left].
  apply norm_fold_merge.
Qed.

Lemma iter_fixed (A : Type) (f : A -> A) x y :
  f x = y -> f y = y -> forall c, Nat.iter (S c) f x = y.
Proof.
  intros Hx Hy. induction c as [|c IH]; [exact Hx|].
  change (Nat.iter (S (S c)) f x) with (f (Nat.iter (S c) f x)).
  rewrite IH. exact Hy.
Qed.


Lemma unhang_end_offset e sel :
  offset (snd (Range.edges sel)) <> 0 -> Editor.unhangRange e sel = sel.
Proof.
  intros H. unfold Editor.unhangRange.
  destruct (Range.edges sel) as [A B]. cbn [snd] in H.
  apply Nat.eqb_neq in H. rewrite H.
  rewrite orb_true_r. reflexivity.
Qed.

Lemma edges_between d p i j :
  i <= j ->
  Range.edges (between d p i j) = (mkPoint p i, mkPoint p j).
Proof.
  intros H. destruct d; unfold between.
  - apply edges_mk. unfold Point.isAfter, Point.compare.
    cbn [path offset]. rewrite compare_refl.
    destruct (Nat.compare_spec i j); try reflexivity. lia.
  - unfold Range.edges, Range.isBackward, Point.isAfter, Point.compare.
    cbn [anchor focus path offset]. rewrite compare_refl.
    destruct (Nat.compare_spec j i); try reflexivity; try lia.
    subst. reflexivity.
Qed.

Lemma collapsed_between d p i j :
  i < j -> Range.isCollapsed (between d p i j) = false.
Proof.
  intros H. destruct d; unfold between, Range.isCollapsed, Point.equals;
    cbn [anchor focus path offset].
  - destruct (Nat.eqb_spec i j); [lia | reflexivity].
  - destruct (Nat.eqb_spec j i); [lia | reflexivity].
Qed.

Lemma nth_error_middle (A : Type) (l1 : list A) x l2 :
  nth_error (l1 ++ x :: l2) (List.length l1) = Some x.
Proof. rewrite nth_error_app2, Nat.sub_diag by lia. reflexivity. Qed.

Lemma split_child_texts ts1 x ts2 pos :
  Transforms.split_child (List.length ts1) pos
    (map TextNode (ts1 ++ x :: ts2))
  = map TextNode
      (ts1 ++ [Transforms.with_text (Transforms.str_take pos (text x)) x;
               Transforms.with_text (Transforms.str_drop pos (text x)) x]
           ++ ts2).
Proof.
  unfold Transforms.split_child.
  rewrite nth_error_map, nth_error_middle. cbn [option_map].
  rewrite !map_app. cbn [map app].
  rewrite <- (length_map TextNode ts1) at 1 2.
  rewrite firstn_exact.
  change (S (List.length (map TextNode ts1)))
    with (List.length (map TextNode ts1) + 1) at 1 || idtac.
  replace (S (List.length (map TextNode ts1)))
    with (List.length (map TextNode ts1 ++ [TextNode x]))
    by (rewrite length_app; simpl; lia).
  change (map TextNode ts1 ++ TextNode x :: map TextNode ts2)
    with (map TextNode ts1 ++ [TextNode x] ++ map TextNode ts2).
  rewrite app_assoc, skipn_exact. reflexivity.
Qed.

Section Leaf.

Variables (pre post : list Descendant) (ty : string) (al : option string).

Local Abbreviation doc := (in_block pre post ty al).

Lemma leaf_get ts1 x ts2 :
  Node.get (doc (ts1 ++ x :: ts2)) [List.length pre; List.length ts1]
  = Some (TextNode x).
Proof.
  unfold in_block. rewrite block_get, nth_error_map, nth_error_middle.
  reflexivity.
Qed.

Lemma leaf_split_text ts1 x ts2 pos always :
  Transforms.split_text (doc (ts1 ++ x :: ts2))
    (mkPoint [List.length pre; List.length ts1] pos) always
  = if always
       || negb ((pos =? 0)%nat || (pos =? String.length (text x))%nat)
    then Some (doc
                 (ts1 ++ [Transforms.with_text
                            (Transforms.str_take pos (text x)) x;
                          Transforms.with_text
                            (Transforms.str_drop pos (text x)) x]
                      ++ ts2))
    else None.
Proof.
  unfold Transforms.split_text. cbn [path offset].
  rewrite leaf_get.
  destruct (always || _); [|reflexivity].
  cbn [Path.parent removelast last]. unfold in_block.
  rewrite block_update_children_at, split_child_texts. reflexivity.
Qed.

Lemma leaf_nodes ts1 x ts2 s m r mode d o1 o2 :
  o1 <= o2 ->
  r = between d [List.length pre; List.length ts1] o1 o2 ->
  Editor.nodes (mkEditor (doc (ts1 ++ x :: ts2)) s m) (Some r)
    Text.isText mode
  = [(TextNode x, [List.length pre; List.length ts1])].
Proof.
  intros H ->. unfold in_block.
  apply (block_nodes_one pre post ty al (ts1 ++ x :: ts2) s m _ _ _
           (List.length ts1) x mode (edges_between d _ o1 o2 H));
    try reflexivity.
  apply nth_error_middle.
Qed.

Lemma leaf_update f ts1 x ts2 x' :
  f (TextNode x) = TextNode x' ->
  update_list [[List.length pre; List.length ts1]] f [] 0
    (doc (ts1 ++ x :: ts2))
  = doc (ts1 ++ x' :: ts2).
Proof.
  intros Hf. unfold in_block. rewrite !map_app. cbn [map].
  rewrite block_update_one, Hf. reflexivity.
Qed.

Lemma iter_normalize_block c :
  forall e ts,
    children e = doc ts ->
    children (Nat.iter c
                (fun e' => Transforms.normalize_block e' [List.length pre]) e)
    = pre ++ ElementNode ty al
               (Nat.iter c Transforms.normalize_children (map TextNode ts))
          :: post.
Proof.
  induction c as [|c IH]; intros e ts H; [exact H|].
  rewrite !Nat.iter_succ. specialize (IH e ts H).
  remember (Nat.iter c
              (fun e' => Transforms.normalize_block e' [List.length pre]) e)
    as e1 eqn:E1. clear E1.
  unfold Transforms.normalize_block.
  rewrite IH, block_get_top. cbn [children].
  rewrite block_update_children_at. reflexivity.
Qed.

Lemma normalize_block_normal ts d a o1 o2 m :
  normalLeaves ts ->
  Transforms.normalize_block
    (mkEditor (doc ts) (Some (between d [List.length pre; a] o1 o2)) m)
    [List.length pre]
  = mkEditor (doc ts) (Some (between d [List.length pre; a] o1 o2)) m.
Proof.
  intros N. destruct d; unfold between, Transforms.normalize_block;
    cbn [children selection marks];
    (unfold in_block at 1; rewrite block_get_top);
    (unfold in_block at 1; rewrite block_update_children_at);
    rewrite (normalize_children_normal ts N);
    unfold Transforms.normalize_point;
    cbn [anchor focus path offset rev app];
    cbn [Path.parent removelast]; rewrite equals_refl;
    rewrite !(normalize_index_normal ts _ N); reflexivity.
Qed.

End Leaf.


Lemma get_mark_with_text k s u :
  get_mark k (Transforms.with_text s u) = get_mark k u.
Proof. destruct k; reflexivity. Qed.

Lemma option_bool_eqb_differ a b :
  a <> b -> Transforms.option_bool_eqb a b = false.
Proof.
  intros H. destruct (Transforms.option_bool_eqb a b) eqn:E; [|reflexivity].
  apply option_bool_eqb_eq in E. contradiction.
Qed.

Lemma nodup_all_same (A : Type) (dec : forall x y : A, {x = y} + {x <> y})
    (x : A) (l : list A) :
  (forall y, In y l -> y = x) -> l <> [] -> nodup dec l = [x].
Proof.
  induction l as [|y l IH]; intros H N; [contradiction|].
  assert (y = x) by (apply H; left; reflexivity). subst y.
  cbn [nodup]. destruct (in_dec dec x l) as [I | I].
  - apply IH; [intros y Hy; apply H; right; exact Hy|].
    intros ->. destruct I.
  - destruct l as [|z l]; [reflexivity|]. exfalso. apply I.
    left. apply H. right. left. reflexivity.
Qed.

Lemma split_range_end d q i j :
  i < j ->
  Transforms.split_range q j (between d q i j) = between d q i j.
Proof.
  intros H. destruct d; unfold between;
    unfold Transforms.split_range, Transforms.split_point;
    unfold Range.isBackward, Range.isCollapsed, Point.isAfter, Point.compare,
      Point.equals;
    cbn [anchor focus path offset]; rewrite compare_refl, !equals_refl.
  - destruct (Nat.compare_spec i j); try lia.
    destruct (Nat.eqb_spec i j); try lia.
    cbn [negb andb].
    destruct (Nat.ltb_spec j i); try lia.
    destruct (Nat.eqb_spec j i); try lia.
    rewrite Nat.ltb_irrefl, Nat.eqb_refl. reflexivity.
  - destruct (Nat.compare_spec j i); try lia.
    destruct (Nat.eqb_spec j i); try lia.
    cbn [negb andb].
    destruct (Nat.ltb_spec j i); try lia.
    rewrite Nat.ltb_irrefl, Nat.eqb_refl. reflexivity.
Qed.

Lemma split_range_start d q i j :
  i < j ->
  Transforms.split_range q i (between d q i j)
  = between d (Path.next q) 0 (j - i).
Proof.
  intros H. destruct d; unfold between;
    unfold Transforms.split_range, Transforms.split_point;
    unfold Range.isBackward, Range.isCollapsed, Point.isAfter, Point.compare,
      Point.equals;
    cbn [anchor focus path offset]; rewrite compare_refl, !equals_refl.
  - destruct (Nat.compare_spec i j); try lia.
    destruct (Nat.eqb_spec i j); try lia.
    cbn [negb andb].
    destruct (Nat.ltb_spec i j); try lia.
    rewrite Nat.ltb_irrefl, Nat.eqb_refl, Nat.sub_diag. reflexivity.
  - destruct (Nat.compare_spec j i); try lia.
    destruct (Nat.eqb_spec j i); try lia.
    cbn [negb andb].
    destruct (Nat.ltb_spec i j); try lia.
    rewrite Nat.ltb_irrefl, Nat.eqb_refl, Nat.sub_diag. reflexivity.
Qed.

Lemma with_text_with_text s s' u :
  Transforms.with_text s' (Transforms.with_text s u)
  = Transforms.with_text s' u.
Proof. reflexivity. Qed.

Lemma text_with_text s u : text (Transforms.with_text s u) = s.
Proof. reflexivity. Qed.

Lemma changes_mark k v u :
  get_mark k u <> Some v -> Transforms.changes (PMark k v) (TextNode u) = true.
Proof.
  intros H. cbn [Transforms.changes].
  rewrite option_bool_eqb_differ by exact H. reflexivity.
Qed.

Lemma pieces_whole k v u :
  pieces k v 0 (String.length (text u)) u = [set_mark k (Some v) u].
Proof.
  unfold pieces. rewrite !Nat.eqb_refl. cbn [app Transforms.str_drop].
  rewrite str_take_all, with_text_same by lia. reflexivity.
Qed.

Lemma pieces_head k v j u :
  0 < j < String.length (text u) ->
  pieces k v 0 j u
  = [set_mark k (Some v)
       (Transforms.with_text (Transforms.str_take j (text u)) u);
     Transforms.with_text (Transforms.str_drop j (text u)) u].
Proof.
  intros H. unfold pieces.
  destruct (Nat.eqb_spec j (String.length (text u))); [lia|]. reflexivity.
Qed.

Lemma pieces_tail k v i u :
  0 < i < String.length (text u) ->
  pieces k v i (String.length (text u)) u
  = [Transforms.with_text (Transforms.str_take i (text u)) u;
     set_mark k (Some v)
       (Transforms.with_text (Transforms.str_drop i (text u)) u)].
Proof.
  intros H. unfold pieces. rewrite Nat.eqb_refl.
  destruct (Nat.eqb_spec i 0); [lia|].
  rewrite (str_take_all (String.length (text u)) (text u)) by lia.
  reflexivity.
Qed.

Lemma pieces_inside k v i j u :
  0 < i -> j < String.length (text u) ->
  pieces k v i j u
  = [Transforms.with_text (Transforms.str_take i (text u)) u;
     set_mark k (Some v)
       (Transforms.with_text
          (Transforms.str_drop i (Transforms.str_take j (text u))) u);
     Transforms.with_text (Transforms.str_drop j (text u)) u].
Proof.
  intros Hi Hj. unfold pieces.
  destruct (Nat.eqb_spec i 0); [lia|].
  destruct (Nat.eqb_spec j (String.length (text u))); [lia|]. reflexivity.
Qed.

Lemma app_cons_assoc (A : Type) (l1 : list A) x l2 :
  l1 ++ x :: l2 = (l1 ++ [x]) ++ l2.
Proof. rewrite <- app_assoc. reflexivity. Qed.

Lemma length_snoc (A : Type) (l : list A) x :
  List.length (l ++ [x]) = S (List.length l).
Proof. rewrite length_app, Nat.add_1_r. reflexivity. Qed.

Section InLeaf.

Variables (pre post : list Descendant) (ty : string) (al : option string).

Local Abbreviation doc := (in_block pre post ty al).

Lemma leaf_isFormatActive ts1 x ts2 d o1 o2 k :
  o1 < o2 <= String.length (text x) ->
  isFormatActive
    (mkEditor (doc (ts1 ++ x :: ts2))
       (Some (between d [List.length pre; List.length ts1] o1 o2))
       None) k
  = truthy_bool (get_mark k x).
Proof.
  intros H. unfold isFormatActive, Editor.marks.
  cbn [selection marks].
  unfold Range.isExpanded. rewrite collapsed_between by lia. cbn [negb].
  rewrite edges_between by lia.
  unfold Editor.isEnd, Editor.leaf_text. cbn [path offset children].
  rewrite leaf_get.
  destruct (Nat.eqb_spec o1 (String.length (text x))); [lia|].
  rewrite (leaf_nodes pre post ty al ts1 x ts2 _ _ _ All true o1 o2)
    by (lia || reflexivity).
  rewrite marks_get_rest. reflexivity.
Qed.

Lemma normalize_dirty_block ts s m dirty :
  (forall y, In y dirty -> y = [List.length pre]) -> dirty <> [] ->
  Transforms.normalize (mkEditor (doc ts) s m) dirty
  = Nat.iter (List.length ts)
      (fun e' => Transforms.normalize_block e' [List.length pre])
      (mkEditor (doc ts) s m).
Proof.
  intros H N. unfold Transforms.normalize.
  rewrite (nodup_all_same _ _ [List.length pre] dirty H N).
  cbn [fold_left children]. unfold in_block at 1.
  rewrite block_get_top. cbn [children_of]. rewrite length_map. reflexivity.
Qed.

Lemma addMark_in_leaf ts1 u ts2 d i j k v :
  i < j <= String.length (text u) ->
  get_mark k u <> Some v ->
  editor_addMark
    (mkEditor (doc (ts1 ++ u :: ts2))
       (Some (between d [List.length pre; List.length ts1] i j))
       None) k v
  = Nat.iter (List.length (ts1 ++ pieces k v i j u ++ ts2))
      (fun e' => Transforms.normalize_block e' [List.length pre])
      (mkEditor (doc (ts1 ++ pieces k v i j u ++ ts2))
         (Some (between d
                  [List.length pre;
                   List.length ts1 + if (i =? 0)%nat then 0 else 1]
                  0 (j - i)))
         None).
Proof.
  intros Hij Hv. unfold editor_addMark. cbn [selection].
  unfold Range.isExpanded. rewrite collapsed_between by lia. cbn [negb].
  unfold Transforms.setNodes. cbn [selection].
  rewrite unhang_end_offset
    by (rewrite edges_between by lia; cbn [snd offset]; lia).
  unfold Transforms.set_split.
  rewrite collapsed_between by lia. cbn [andb].
  rewrite edges_between by lia.
  unfold Editor.isEnd, Editor.leaf_text. cbn [path offset children marks].
  rewrite leaf_get, leaf_split_text.
  assert (Hj0 : (j =? 0)%nat = false) by (apply Nat.eqb_neq; lia).
  rewrite Hj0. cbn [orb].
  destruct (Nat.eqb_spec j (String.length (text u))) as [Ej | Ej];
    cbn [negb orb].
  - (* the selection ends at the end of the leaf *)
    rewrite leaf_split_text. cbn [orb].
    destruct (Nat.eqb_spec i (String.length (text u))) as [|_]; [lia|].
    destruct (Nat.eqb_spec i 0) as [Ei | Ei]; cbn [negb orb].
    + (* and starts at its start: nothing is split *)
      cbv beta iota zeta.
      rewrite (leaf_nodes pre post ty al ts1 u ts2 _ _ _ Lowest d i j)
        by (lia || reflexivity).
      cbn [map snd filter fst app].
      rewrite changes_mark by exact Hv.
      rewrite (leaf_update pre post ty al _ ts1 u ts2 (set_mark k (Some v) u))
        by reflexivity.
      replace (if Range.equals _ _ then None else None) with (@None Marks)
        by (destruct (Range.equals _ _); reflexivity).
      rewrite normalize_dirty_block
        by (try discriminate; intros y [<- | []]; reflexivity).
      subst i j. rewrite pieces_whole, Nat.add_0_r, Nat.sub_0_r.
      reflexivity.
    + (* and starts inside it: the leaf is split at the start *)
      cbv beta iota zeta.
      rewrite split_range_start by lia.
      cbn [Path.next rev app Path.parent removelast].
      rewrite <- (length_snoc _ ts1
                    (Transforms.with_text (Transforms.str_take i (text u)) u)).
      rewrite (app_cons_assoc _ ts1
                 (Transforms.with_text (Transforms.str_take i (text u)) u)).
      rewrite (leaf_nodes pre post ty al _ _ ts2 _ _ _ Lowest d 0 (j - i))
        by (lia || reflexivity).
      cbn [map snd filter fst app].
      rewrite changes_mark by (rewrite get_mark_with_text; exact Hv).
      rewrite (leaf_update pre post ty al _ _ _ ts2
                 (set_mark k (Some v)
                    (Transforms.with_text
                       (Transforms.str_drop i (text u)) u)))
        by reflexivity.
      replace (if Range.equals _ _ then None else None) with (@None Marks)
        by (destruct (Range.equals _ _); reflexivity).
      rewrite normalize_dirty_block
        by (try discriminate; intros y [<- | [<- | []]]; reflexivity).
      subst j. rewrite pieces_tail by lia.
      destruct (Nat.eqb_spec i 0) as [|_]; [lia|].
      rewrite <- !app_cons_assoc, !length_snoc, Nat.add_1_r. reflexivity.
  - (* the selection ends inside the leaf: the leaf is split at the end *)
    rewrite split_range_end by lia.
    cbn [app]. rewrite leaf_split_text.
    rewrite text_with_text, !with_text_with_text.
    rewrite str_take_length, str_take_take by lia.
    destruct (Nat.eqb_spec i j) as [|_]; [lia|]. rewrite orb_false_r.
    destruct (Nat.eqb_spec i 0) as [Ei | Ei]; cbn [negb orb].
    + (* and starts at its start *)
      cbv beta iota zeta.
      cbn [Path.parent removelast].
      rewrite (leaf_nodes pre post ty al ts1 _ _ _ _ _ Lowest d i j)
        by (lia || reflexivity).
      cbn [map snd filter fst app].
      rewrite changes_mark by (rewrite get_mark_with_text; exact Hv).
      rewrite (leaf_update pre post ty al _ ts1 _ _
                 (set_mark k (Some v)
                    (Transforms.with_text
                       (Transforms.str_take j (text u)) u)))
        by reflexivity.
      replace (if Range.equals _ _ then None else None) with (@None Marks)
        by (destruct (Range.equals _ _); reflexivity).
      rewrite normalize_dirty_block
        by (try discriminate; intros y [<- | [<- | []]]; reflexivity).
      subst i. rewrite pieces_head, Nat.add_0_r, Nat.sub_0_r by lia.
      reflexivity.
    + (* and starts inside it *)
      cbv beta iota zeta.
      rewrite split_range_start by lia.
      cbn [Path.next rev app Path.parent removelast].
      rewrite <- (length_snoc _ ts1
                    (Transforms.with_text (Transforms.str_take i (text u)) u)).
      rewrite (app_cons_assoc _ ts1
                 (Transforms.with_text (Transforms.str_take i (text u)) u)).
      rewrite (leaf_nodes pre post ty al _ _ _ _ _ _ Lowest d 0 (j - i))
        by (lia || reflexivity).
      cbn [map snd filter fst app].
      rewrite changes_mark by (rewrite get_mark_with_text; exact Hv).
      rewrite (leaf_update pre post ty al _ _ _ _
                 (set_mark k (Some v)
                    (Transforms.with_text
                       (Transforms.str_drop i
                          (Transforms.str_take j (text u))) u)))
        by reflexivity.
      replace (if Range.equals _ _ then None else None) with (@None Marks)
        by (destruct (Range.equals _ _); reflexivity).
      rewrite normalize_dirty_block
        by (try discriminate; intros y [<- | [<- | [<- | []]]]; reflexivity).
      rewrite pieces_inside by lia.
      destruct (Nat.eqb_spec i 0) as [|_]; [lia|].
      rewrite <- !app_cons_assoc, !length_snoc, Nat.add_1_r. reflexivity.
Qed.

End InLeaf.


Lemma iter_same (A : Type) (f : A -> A) x :
  f x = x -> forall c, Nat.iter c f x = x.
Proof.
  intros H. induction c as [|c IH]; [reflexivity|].
  rewrite Nat.iter_succ, IH. exact H.
Qed.

Lemma set_mark_with_text k v s t :
  get_mark k t = v ->
  set_mark k v (Transforms.with_text s t) = Transforms.with_text s t.
Proof. intros <-. destruct k; reflexivity. Qed.

Lemma set_with_text k v s t :
  set_mark k v (Transforms.with_text s t)
  = Transforms.with_text s (set_mark k v t).
Proof. destruct k; reflexivity. Qed.

Lemma pieces_normal k v i j t :
  i < j <= String.length (text t) ->
  get_mark k t <> Some v ->
  normalLeaves (pieces k v i j t).
Proof.
  intros Hij Hv.
  assert (Lm : text (set_mark k (Some v)
                       (Transforms.with_text
                          (Transforms.str_drop i
                             (Transforms.str_take j (text t))) t)) <> "").
  { rewrite text_set_mark, text_with_text. intros E.
    apply (f_equal String.length) in E.
    rewrite str_drop_length, str_take_length in E by lia. simpl in E. lia. }
  assert (Ll : 0 < i ->
               text (Transforms.with_text (Transforms.str_take i (text t)) t)
               <> "").
  { intros Hi. rewrite text_with_text. intros E.
    apply (f_equal String.length) in E.
    rewrite str_take_length in E by lia. simpl in E. lia. }
  assert (Lr : j < String.length (text t) ->
               text (Transforms.with_text (Transforms.str_drop j (text t)) t)
               <> "").
  { intros Hj. rewrite text_with_text. intros E.
    apply (f_equal String.length) in E.
    rewrite str_drop_length in E. simpl in E. lia. }
  assert (D1 : forall s s',
             Transforms.marks_eqb
               (set_mark k (Some v) (Transforms.with_text s t))
               (Transforms.with_text s' t) = false).
  { intros s s'. apply (marks_eqb_differ k).
    rewrite get_set_mark, get_mark_with_text. congruence. }
  assert (D2 : forall s s',
             Transforms.marks_eqb
               (Transforms.with_text s' t)
               (set_mark k (Some v) (Transforms.with_text s t)) = false).
  { intros s s'. apply (marks_eqb_differ k).
    rewrite get_set_mark, get_mark_with_text. exact Hv. }
  unfold pieces.
  destruct (Nat.eqb_spec i 0) as [Ei | Ei],
           (Nat.eqb_spec j (String.length (text t))) as [Ej | Ej];
    cbn [app]; (split;
      [ repeat constructor; auto; (apply Ll || apply Lr); lia
      | intros [|? [|? [|? ?]]] a b rest E; cbn [app] in E;
        try discriminate; injection E as; subst; auto;
        match goal with
        | H : [] = _ ++ _ :: _ |- _ =>
            apply app_cons_not_nil in H; contradiction
        | _ => idtac
        end ]).
Qed.


Lemma truthy_differs b : b <> Some (negb (truthy_bool b)).
Proof. destruct b as [[]|]; discriminate. Qed.

Lemma concat_pieces i j s :
  i < j <= String.length s ->
  String.concat ""
    ((if (i =? 0)%nat then [] else [Transforms.str_take i s])
     ++ [Transforms.str_drop i (Transforms.str_take j s)]
     ++ (if (j =? String.length s)%nat then []
         else [Transforms.str_drop j s]))
  = s.
Proof.
  intros H.
  assert (E : (Transforms.str_take i s
               ++ Transforms.str_drop i (Transforms.str_take j s)
               ++ Transforms.str_drop j s)%string = s).
  { rewrite <- (str_take_take i j s) by lia.
    rewrite <- append_assoc, str_take_drop. apply str_take_drop. }
  destruct (Nat.eqb_spec i 0) as [Ei | Ei],
           (Nat.eqb_spec j (String.length s)) as [Ej | Ej];
    cbn [app]; rewrite ?join_cons; cbn [String.concat];
    rewrite ?append_empty_r.
  - subst i. cbn [Transforms.str_drop]. apply str_take_all. lia.
  - subst i. cbn [Transforms.str_drop]. apply str_take_drop.
  - rewrite <- E at 3.
    replace (Transforms.str_drop j s) with "".
    + rewrite append_empty_r. reflexivity.
    + symmetry. apply length_zero. rewrite str_drop_length. lia.
  - exact E.
Qed.

Section OneLeaf.

Variables (pre post : list Descendant) (ty : string) (al : option string)
  (t : CustomText) (d : bool) (i j : nat) (k : Format).
Hypothesis Hij : i < j <= String.length (text t).

Local Abbreviation doc := (in_block pre post ty al).

Lemma toggleFormat_in_leaf :
  toggleFormat
    (mkEditor (doc [t])
       (Some (between d [List.length pre; 0] i j))
       None) k
  = mkEditor
      (doc (pieces k (negb (truthy_bool (get_mark k t))) i j t))
      (Some (between d [List.length pre; if (i =? 0)%nat then 0 else 1]
               0 (j - i)))
      None.
Proof.
  unfold toggleFormat.
  pose proof (leaf_isFormatActive pre post ty al [] t [] d i j k Hij) as A.
  pose proof (addMark_in_leaf pre post ty al [] t [] d i j k _ Hij
                (truthy_differs (get_mark k t))) as B.
  cbn [app List.length Nat.add] in A, B. rewrite app_nil_r in B.
  rewrite A, B.
  apply iter_same. apply normalize_block_normal.
  apply pieces_normal; [exact Hij | apply truthy_differs].
Qed.

Lemma toggleFormat_twice_in_leaf :
  children
    (toggleFormat
       (toggleFormat
          (mkEditor (doc [t])
             (Some (between d [List.length pre; 0] i j))
             None) k) k)
  = doc match get_mark k t with
        | Some _ => [t]
        | None => pieces k false i j t
        end.
Proof.
  rewrite toggleFormat_in_leaf.
  set (v := negb (truthy_bool (get_mark k t))).
  set (mid := set_mark k (Some v)
                (Transforms.with_text
                   (Transforms.str_drop i (Transforms.str_take j (text t)))
                   t)).
  set (L := if (i =? 0)%nat then []
            else [Transforms.with_text (Transforms.str_take i (text t)) t]).
  set (R := if (j =? String.length (text t))%nat then []
            else [Transforms.with_text (Transforms.str_drop j (text t)) t]).
  assert (EP : pieces k v i j t = L ++ mid :: R) by reflexivity.
  assert (EL : (if (i =? 0)%nat then 0 else 1) = List.length L)
    by (unfold L; destruct (i =? 0)%nat; reflexivity).
  assert (Em : String.length (text mid) = j - i).
  { unfold mid. rewrite text_set_mark, text_with_text.
    rewrite str_drop_length, str_take_length by lia. reflexivity. }
  assert (Gm : get_mark k mid = Some v) by apply get_set_mark.
  rewrite EP, EL. unfold toggleFormat.
  rewrite (leaf_isFormatActive pre post ty al L mid R d 0 (j - i) k)
    by (rewrite Em; lia).
  rewrite Gm.
  rewrite (addMark_in_leaf pre post ty al L mid R d 0 (j - i) k)
    by (try (rewrite Em; lia); rewrite Gm; destruct v; discriminate).
  rewrite <- Em, pieces_whole.
  rewrite (iter_normalize_block pre post ty al _ _
             (L ++ [set_mark k (Some (negb (truthy_bool (Some v)))) mid] ++ R))
    by reflexivity.
  unfold in_block. do 3 f_equal.
  assert (Ev : negb (truthy_bool (Some v)) = truthy_bool (get_mark k t))
    by (unfold v; destruct (truthy_bool (get_mark k t)); reflexivity).
  rewrite Ev. unfold mid. rewrite set_set_mark.
  destruct (get_mark k t) as [b|] eqn:Gt.
  - (* the key was present: the leaves are merged into the leaf [t] *)
    assert (Eb : truthy_bool (Some b) = b) by (destruct b; reflexivity).
    rewrite Eb, (set_mark_with_text k (Some b) _ t Gt).
    assert (F : map TextNode
                  (L ++ [Transforms.with_text
                           (Transforms.str_drop i
                              (Transforms.str_take j (text t))) t] ++ R)
                = map (fun s => TextNode (Transforms.with_text s t))
                    ((if (i =? 0)%nat then []
                      else [Transforms.str_take i (text t)])
                     ++ [Transforms.str_drop i
                           (Transforms.str_take j (text t))]
                     ++ (if (j =? String.length (text t))%nat then []
                         else [Transforms.str_drop j (text t)]))).
    { unfold L, R.
      destruct (i =? 0)%nat, (j =? String.length (text t))%nat;
        reflexivity. }
    rewrite F.
    assert (M : Transforms.normalize_children
                  (map (fun s => TextNode (Transforms.with_text s t))
                     ((if (i =? 0)%nat then []
                       else [Transforms.str_take i (text t)])
                      ++ [Transforms.str_drop i
                            (Transforms.str_take j (text t))]
                      ++ (if (j =? String.length (text t))%nat then []
                          else [Transforms.str_drop j (text t)])))
                = [TextNode t]).
    { pose proof (concat_pieces i j (text t) Hij) as C.
      destruct ((if (i =? 0)%nat then []
                 else [Transforms.str_take i (text t)])
                ++ [Transforms.str_drop i (Transforms.str_take j (text t))]
                ++ (if (j =? String.length (text t))%nat then []
                    else [Transforms.str_drop j (text t)]))
        as [|s ss] eqn:El.
      { destruct (i =? 0)%nat; discriminate. }
      rewrite normalize_children_merge, C, with_text_same. reflexivity. }
    rewrite length_app. cbn [List.length app]. rewrite Nat.add_succ_r.
    apply iter_fixed; [exact M | reflexivity].
  - (* the key was absent: the selected part stays a leaf of its own *)
    cbn [truthy_bool].
    change (L ++ [set_mark k (Some false)
                    (Transforms.with_text
                       (Transforms.str_drop i
                          (Transforms.str_take j (text t))) t)] ++ R)
      with (pieces k false i j t).
    apply iter_same. apply normalize_children_normal.
    apply pieces_normal; [exact Hij | rewrite Gt; discriminate].
Qed.

End OneLeaf.




(* ================================================================== *)
(** * Further properties of the code *)
(* ================================================================== *)

(** ** The plain text of the document *)

Lemma getPlainText_cons n l :
  getPlainText (n :: l) = (plainTextOf n ++ getPlainText l)%string.
Proof. unfold getPlainText. cbn [map]. apply join_cons. Qed.

Lemma getPlainText_app l1 l2 :
  getPlainText (l1 ++ l2) = (getPlainText l1 ++ getPlainText l2)%string.
Proof. unfold getPlainText. rewrite map_app. apply join_app. Qed.

Lemma plainTextOf_element t a ch :
  plainTextOf (ElementNode t a ch) = getPlainText ch.
Proof. reflexivity. Qed.

Lemma texts_of_entries n :
  forall p,
    String.concat ""
      (map (fun x => plainTextOf (fst x))
         (filter (fun x => Text.isText (fst x)) (Node.entries_node p n)))
    = plainTextOf n.
Proof.
  induction n as [t | t a ch IH] using Descendant_ind; intros p.
  - reflexivity.
  - rewrite entries_node_element, filter_cons_false by reflexivity.
    rewrite plainTextOf_element.
    generalize 0 as i. induction IH as [|c ch Hc _ IHch]; intros i.
    + reflexivity.
    + cbn [Node.entries_list]. rewrite filter_app, map_app, join_app.
      rewrite Hc, IHch, getPlainText_cons. reflexivity.
Qed.

(** X2: The text that the chat panel reads off the document is the text of
    its leaves, each once, in document order, with nothing between
    them. *)
Theorem getPlainText_leaves (nodes : list Descendant) :
  getPlainText nodes
  = String.concat ""
      (map (fun x => plainTextOf (fst x)) (Node.texts nodes)).
Proof.
  unfold Node.texts, Node.nodes. generalize 0 as i.
  generalize (@nil nat) as p.
  induction nodes as [|n nodes IH]; intros p i; [reflexivity|].
  cbn [Node.entries_list]. rewrite filter_app, map_app, join_app.
  rewrite texts_of_entries, <- IH, getPlainText_cons. reflexivity.
Qed.

(** ** The export keeps the text *)

Lemma docxText_children (ch : list Descendant) :
  Forall (fun n => String.concat "" (map docxText (serializeNode n))
                   = plainTextOf n) ch ->
  String.concat "" (map docxText (flat_map serializeNode ch))
  = getPlainText ch.
Proof.
  induction 1 as [|c ch Hc _ IH]; [reflexivity|].
  cbn [flat_map]. rewrite map_app, join_app, Hc, IH, getPlainText_cons.
  reflexivity.
Qed.

Lemma docxText_serializeNode (n : Descendant) :
  String.concat "" (map docxText (serializeNode n)) = plainTextOf n.
Proof.
  induction n as [t | ty a ch IH] using Descendant_ind.
  - reflexivity.
  - pose proof (docxText_children ch IH) as H.
    rewrite plainTextOf_element. cbn [serializeNode].
    destruct (ty =? "heading-one"); [exact H|].
    destruct (ty =? "heading-two"); [exact H|].
    destruct (ty =? "heading-three"); [exact H|].
    assert (W : forall (g : DocxNode -> DocxNode) l,
               (forall c, docxText (g c) = docxText c) ->
               map docxText (map g l) = map docxText l).
    { intros g l Hg. rewrite map_map. apply map_ext. exact Hg. }
    destruct (ty =? "bulleted-list");
      [rewrite W; [exact H | intros c; reflexivity]|].
    destruct (ty =? "numbered-list");
      [rewrite W; [exact H | intros c; reflexivity]|].
    exact H.
Qed.

(** X3: The export loses and adds no text: the texts of the runs of the
    exported paragraphs, in order, make up the plain text of the
    document, whatever its block types, marks and nesting. *)
Theorem serializeToDocx_keeps_text (nodes : list Descendant) :
  String.concat "" (map docxText (serializeToDocx nodes))
  = getPlainText nodes.
Proof.
  unfold serializeToDocx. apply docxText_children.
  apply Forall_forall. intros n _. apply docxText_serializeNode.
Qed.

Lemma serializeNode_map_texts (f : CustomText -> CustomText) :
  (forall t, sameForExport t (f t)) ->
  forall n, serializeNode (map_texts f n) = serializeNode n.
Proof.
  intros Hf. induction n as [t | ty a ch IH] using Descendant_ind.
  - destruct (Hf t) as [H1 [H2 [H3 [H4 H5]]]].
    cbn [map_texts serializeNode]. rewrite H1, H2, H3, H4, H5. reflexivity.
  - assert (E : flat_map serializeNode (map (map_texts f) ch)
                = flat_map serializeNode ch).
    { induction IH as [|c ch Hc _ IHch]; [reflexivity|].
      cbn [map flat_map]. rewrite Hc, IHch. reflexivity. }
    cbn [map_texts serializeNode]. rewrite E. reflexivity.
Qed.

(** X4: The export reads of a leaf only its text, its [bold], [italic] and
    [strike] and whether its [underline] is truthy: a change of the
    leaves that keeps these (setting or clearing [code], turning an
    absent [underline] into [false]) anywhere in the document leaves the
    exported paragraphs as they are. *)
Theorem serializeToDocx_reads_four_marks
    (f : CustomText -> CustomText) (nodes : list Descendant) :
  (forall t, sameForExport t (f t)) ->
  serializeToDocx (map (map_texts f) nodes) = serializeToDocx nodes.
Proof.
  intros Hf. unfold serializeToDocx.
  induction nodes as [|n nodes IH]; [reflexivity|].
  cbn [map flat_map]. rewrite IH, (serializeNode_map_texts f Hf).
  reflexivity.
Qed.

Lemma serializeToDocx_reads_four_marks_witness :
  serializeToDocx
    (map (map_texts (set_mark fmt_code (Some true)))
       [ElementNode "paragraph" None [TextNode (plain "a")]])
  = serializeToDocx [ElementNode "paragraph" None [TextNode (plain "a")]].
Proof.
  apply (serializeToDocx_reads_four_marks (set_mark fmt_code (Some true))).
  intros t. repeat split; reflexivity.
Defined.

(** ** Rendering *)

Lemma Leaf_flags a c t :
  Leaf a c t
  = Jsx "span" (Some a) None
      ((fun x => if truthy_bool (code t)
                 then Jsx "code" None (Some "bg-gray-100 rounded px-1") x
                 else x)
         ((fun x => if truthy_bool (strike t)
                    then Jsx "s" None None x else x)
            ((fun x => if truthy_bool (underline t)
                       then Jsx "u" None None x else x)
               ((fun x => if truthy_bool (italic t)
                          then Jsx "em" None None x else x)
                  ((fun x => if truthy_bool (bold t)
                             then Jsx "strong" None None x else x) c))))).
Proof. reflexivity. Qed.

Lemma Leaf_truthiness a c t t' :
  sameTruthiness t t' -> Leaf a c t = Leaf a c t'.
Proof.
  intros H. rewrite !Leaf_flags.
  rewrite (H fmt_bold : truthy_bool (bold t) = _).
  rewrite (H fmt_italic : truthy_bool (italic t) = _).
  rewrite (H fmt_underline : truthy_bool (underline t) = _).
  rewrite (H fmt_strike : truthy_bool (strike t) = _).
  rewrite (H fmt_code : truthy_bool (code t) = _).
  reflexivity.
Qed.

(** X5: Two leaves are rendered alike, around the same children, exactly
    when the same marks are truthy on both: a mark that is [false]
    renders as an absent one, and the text of the leaf is not read. *)
Theorem Leaf_same_truthiness
    (attributes : Attributes) (children : ReactNode) (t t' : CustomText) :
  Leaf attributes children t = Leaf attributes children t'
  <-> sameTruthiness t t'.
Proof.
  split; [|apply Leaf_truthiness].
  rewrite !Leaf_flags. unfold sameTruthiness.
  - intros H k.
    assert (B : truthy_bool (bold t) = truthy_bool (bold t')
                /\ truthy_bool (italic t) = truthy_bool (italic t')
                /\ truthy_bool (underline t) = truthy_bool (underline t')
                /\ truthy_bool (strike t) = truthy_bool (strike t')
                /\ truthy_bool (code t) = truthy_bool (code t')).
    { destruct (truthy_bool (bold t)), (truthy_bool (bold t')),
               (truthy_bool (italic t)), (truthy_bool (italic t')),
               (truthy_bool (underline t)), (truthy_bool (underline t')),
               (truthy_bool (strike t)), (truthy_bool (strike t')),
               (truthy_bool (code t)), (truthy_bool (code t'));
        first [ repeat split; reflexivity
              | exfalso; congruence
              | exfalso; apply (f_equal wrappers) in H; cbn in H; lia ]. }
    destruct B as [B1 [B2 [B3 [B4 B5]]]]. destruct k; assumption.
Qed.

(** ** The width of the sidebar *)

Lemma handleMouse_bounds s ev :
  widthInBounds s -> widthInBounds (handleMouse s ev).
Proof.
  unfold widthInBounds. intros H.
  destruct ev as [| | o w x]; cbn [handleMouse startResizing stopResizing
                                    sidebarWidth]; try exact H.
  unfold resize, handleWindowMouseMove.
  destruct o, (isResizing s) eqn:R; cbn [isResizing sidebarWidth];
    rewrite ?R; cbn [sidebarWidth]; try exact H; lia.
Qed.

(** X6: Whatever the mouse does, the width of the sidebar stays between 280
    and 800: it starts at 384 and every handler keeps it in bounds. *)
Theorem sidebarWidth_in_bounds (events : list MouseEvent) :
  widthInBounds (fold_left handleMouse events initialResize).
Proof.
  assert (G : forall s, widthInBounds s ->
                widthInBounds (fold_left handleMouse events s)).
  { induction events as [|ev events IH]; intros s H; [exact H|].
    cbn [fold_left]. apply IH, handleMouse_bounds, H. }
  apply G. unfold widthInBounds, initialResize. cbn. lia.
Qed.

(** ** Persisting the document *)

Lemma JSValue_ind (P : JSValue -> Prop) :
  P JNull ->
  (forall b, P (JBool b)) ->
  (forall l, P (JNumber l)) ->
  (forall s, P (JString s)) ->
  (forall items, Forall P items -> P (JArray items)) ->
  (forall members, Forall (fun kv => P (snd kv)) members ->
                   P (JObject members)) ->
  forall j, P j.
Proof.
  intros Hn Hb Hnum Hs Ha Ho. fix IH 1. intros [| b | l | s | items | members].
  - exact Hn.
  - apply Hb.
  - apply Hnum.
  - apply Hs.
  - apply Ha. induction items as [|v items IHl]; constructor;
      [apply IH | exact IHl].
  - apply Ho. induction members as [|[k v] members IHl]; constructor;
      [apply IH | exact IHl].
Qed.

(** Reading back one written character. *)
Lemma string_body_quote_char c r :
  JSON.string_body (quote_char c ++ r)
  = match JSON.string_body r with
    | Some (s, r') => Some (c :: s, r')
    | None => None
    end.
Proof.
  destruct c as [[] [] [] [] [] [] [] []]; reflexivity.
Qed.

Lemma string_body_quoted s r :
  JSON.string_body (flat_map quote_char s ++ JSON.quote :: r) = Some (s, r).
Proof.
  induction s as [|c s IH]; [reflexivity|].
  cbn [flat_map]. rewrite <- app_assoc, string_body_quote_char, IH.
  reflexivity.
Qed.

Lemma value_quoted fuel s r :
  JSON.value (S fuel) (quoteJSONString s ++ r) = Some (JString s, r).
Proof.
  unfold quoteJSONString. rewrite <- app_comm_cons, <- app_assoc.
  cbn [app]. change (JSON.value (S fuel) (JSON.quote :: ?x))
    with (match JSON.string_body x with
          | Some (s', r') => Some (JString (string_of_list_ascii s'), r')
          | None => None
          end).
  rewrite string_body_quoted, string_of_list_ascii_of_string. reflexivity.
Qed.

Lemma stringify_opens j r :
  numberless j = true -> opens (stringify_value j ++ r).
Proof.
  unfold opens. destruct j as [| [] | l | s | items | members]; intros H;
    try discriminate; cbn [stringify_value quoteJSONString app
                            list_ascii_of_string];
    eexists; eexists; (split; [reflexivity|]); tauto.
Qed.

Lemma value_array fuel r :
  opens r ->
  JSON.value (S fuel) ("["%char :: r)
  = match JSON.elements fuel r with
    | Some (l, r') => Some (JArray l, r')
    | None => None
    end.
Proof.
  intros [c [tl [-> H]]].
  destruct H as [-> | [-> | [-> | [-> | [-> | ->]]]]]; reflexivity.
Qed.

Lemma commas_cons (x : list ascii) (l : list (list ascii)) (close : ascii) r :
  commas (x :: l) ++ close :: r
  = x ++ match l with
         | [] => close :: r
         | _ :: _ => ","%char :: commas l ++ close :: r
         end.
Proof.
  destruct l as [|y l]; [reflexivity|].
  cbn [commas]. rewrite <- app_assoc. reflexivity.
Qed.

Section ReadBack.

Let reads (j : JSValue) : Prop :=
  numberless j = true ->
  forall fuel r, size j <= fuel ->
    JSON.value fuel (stringify_value j ++ r) = Some (j, r).

Lemma elements_stringify items :
  Forall reads items ->
  items <> [] ->
  forallb numberless items = true ->
  forall fuel r,
    list_sum (map (fun v => S (size v)) items) <= fuel ->
    JSON.elements fuel (commas (map stringify_value items) ++ "]"%char :: r)
    = Some (items, r).
Proof.
  induction 1 as [|v items Hv _ IH]; intros Hne Hnl fuel r Hf;
    [contradiction|].
  cbn [forallb] in Hnl. apply andb_true_iff in Hnl. destruct Hnl as [Nv Nl].
  cbn [map list_sum fold_right] in Hf. destruct fuel as [|fuel]; [lia|].
  cbn [map]. rewrite commas_cons. cbn [JSON.elements].
  rewrite (Hv Nv) by lia.
  destruct items as [|w items].
  - reflexivity.
  - cbn [map] in *. set (X := commas _ ++ _).
    change (JSON.skip_ws (","%char :: X)) with (","%char :: X).
    cbv iota. subst X.
    rewrite IH; [reflexivity | discriminate | exact Nl |].
    cbn [list_sum fold_right] in *. lia.
Qed.

Lemma members_stringify members :
  Forall (fun kv => reads (snd kv)) members ->
  members <> [] ->
  forallb (fun kv => let '(_, v) := kv in numberless v) members = true ->
  forall fuel r,
    list_sum (map (fun kv => let '(_, v) := kv in S (size v)) members)
    <= fuel ->
    JSON.members fuel
      (commas (map (fun kv =>
                      let '(k, v) := kv in
                      quoteJSONString k ++ ":"%char :: stringify_value v)
                 members)
       ++ "}"%char :: r)
    = Some (members, r).
Proof.
  induction 1 as [|[k v] members Hv _ IH]; intros Hne Hnl fuel r Hf;
    [contradiction|].
  cbn [forallb] in Hnl. apply andb_true_iff in Hnl. destruct Hnl as [Nv Nl].
  cbn [map list_sum fold_right] in Hf. cbn [snd] in Hv.
  destruct fuel as [|fuel]; [lia|].
  cbn [map]. rewrite commas_cons.
  unfold quoteJSONString at 1.
  rewrite <- !app_assoc, <- !app_comm_cons, <- !app_assoc.
  cbn [app].
  change (JSON.members (S fuel) (JSON.quote :: ?x))
    with (match JSON.string_body x with
          | Some (k', r1) =>
              match JSON.skip_ws r1 with
              | ":"%char :: r2 =>
                  match JSON.value fuel r2 with
                  | Some (v', r3) =>
                      match JSON.skip_ws r3 with
                      | ","%char :: r4 =>
                          match JSON.members fuel r4 with
                          | Some (l, r5) =>
                              Some ((string_of_list_ascii k', v') :: l, r5)
                          | None => None
                          end
                      | "}"%char :: r4 =>
                          Some ([(string_of_list_ascii k', v')], r4)
                      | _ => None
                      end
                  | None => None
                  end
              | _ => None
              end
          | None => None
          end).
  rewrite string_body_quoted, string_of_list_ascii_of_string.
  set (Y := stringify_value v ++ _).
  change (JSON.skip_ws (":"%char :: Y)) with (":"%char :: Y).
  cbv beta iota. subst Y.
  rewrite (Hv Nv) by lia.
  destruct members as [|w members].
  - reflexivity.
  - cbn [map] in *. set (X := commas _ ++ _).
    change (JSON.skip_ws (","%char :: X)) with (","%char :: X).
    cbv iota. subst X.
    rewrite IH; [reflexivity | discriminate | exact Nl |].
    cbn [list_sum fold_right] in *. lia.
Qed.

Lemma value_stringify j : reads j.
Proof.
  induction j as [| b | l | s | items IH | members IH] using JSValue_ind;
    intros Hn fuel r Hf; try discriminate;
    (destruct fuel as [|fuel]; [cbn [size] in Hf; lia|]).
  - reflexivity.
  - destruct b; reflexivity.
  - apply value_quoted.
  - cbn [stringify_value]. rewrite <- app_comm_cons, <- app_assoc.
    cbn [app]. destruct items as [|v items].
    + reflexivity.
    + rewrite value_array.
      * rewrite elements_stringify;
          [reflexivity | exact IH | discriminate | exact Hn |].
        cbn [size] in Hf. lia.
      * cbn [map]. rewrite commas_cons. apply stringify_opens.
        cbn [numberless forallb] in Hn. apply andb_true_iff in Hn. tauto.
  - cbn [stringify_value]. rewrite <- app_comm_cons, <- app_assoc.
    cbn [app]. destruct members as [|[k v] members].
    + reflexivity.
    + change (JSON.value (S fuel) ("{"%char :: ?x))
        with (match JSON.skip_ws x with
              | "}"%char :: r' => Some (JObject [], r')
              | _ =>
                  match JSON.members fuel x with
                  | Some (l, r') => Some (JObject l, r')
                  | None => None
                  end
              end).
      rewrite members_stringify;
        [| exact IH | discriminate | exact Hn | cbn [size] in Hf; lia].
      cbn [map]. rewrite commas_cons. unfold quoteJSONString at 1.
      rewrite <- !app_assoc, <- !app_comm_cons. reflexivity.
Qed.

End ReadBack.

Lemma commas_length (l : list (list ascii)) (f : list ascii -> nat) :
  Forall (fun x => f x <= List.length x) l ->
  list_sum (map (fun x => S (f x)) l) <= S (List.length (commas l)).
Proof.
  unfold list_sum.
  induction 1 as [|x l Hx _ IH]; [simpl; lia|].
  cbn [map fold_right]. destruct l as [|y l].
  - cbn. lia.
  - change (commas (x :: y :: l)) with (x ++ ","%char :: commas (y :: l)).
    rewrite length_app. cbn [List.length]. lia.
Qed.

Lemma size_stringify j :
  numberless j = true -> size j <= List.length (stringify_value j).
Proof.
  induction j as [| b | l | s | items IH | members IH] using JSValue_ind;
    intros Hn; try discriminate; unfold list_sum in *.
  - cbn. lia.
  - destruct b; cbn; lia.
  - cbn [size stringify_value quoteJSONString List.length]. lia.
  - cbn [size stringify_value List.length]. rewrite length_app.
    cbn [List.length numberless] in *.
    assert (H : list_sum (map (fun v => S (size v)) items)
                <= S (List.length (commas (map stringify_value items)))).
    { pose proof (commas_length (map stringify_value items)
                    (@List.length ascii)) as C.
      etransitivity; [|apply C; apply Forall_forall; intros; lia].
      clear C. induction IH as [|v items Hv _ IHl]; [simpl; lia|].
      cbn [forallb] in Hn. apply andb_true_iff in Hn. destruct Hn as [Nv Nl].
      unfold list_sum in *. cbn [map fold_right]. specialize (IHl Nl).
      specialize (Hv Nv). lia. }
    lia.
  - cbn [size stringify_value List.length]. rewrite length_app.
    cbn [List.length numberless] in *.
    set (w := fun kv : string * JSValue =>
                let '(k, v) := kv in
                quoteJSONString k ++ ":"%char :: stringify_value v).
    assert (H : list_sum (map (fun kv => let '(_, v) := kv in S (size v))
                            members)
                <= S (List.length (commas (map w members)))).
    { pose proof (commas_length (map w members) (@List.length ascii)) as C.
      etransitivity; [|apply C; apply Forall_forall; intros; lia].
      clear C. induction IH as [|[k v] members Hv _ IHl]; [simpl; lia|].
      cbn [forallb] in Hn. apply andb_true_iff in Hn. destruct Hn as [Nv Nl].
      unfold list_sum in *. cbn [map fold_right snd] in *. specialize (IHl Nl).
      specialize (Hv Nv). unfold w at 1. rewrite length_app.
      cbn [List.length]. lia. }
    lia.
Qed.

(** What [JSON.stringify] writes of a value without numbers,
    [JSON.parse] reads back as that value. *)
Lemma parse_stringify j :
  numberless j = true -> JSON.parse (JSON_stringify j) = Return j.
Proof.
  intros Hn. unfold JSON.parse, JSON_stringify.
  rewrite list_ascii_of_string_of_list_ascii.
  pose proof (value_stringify j Hn
                (2 * List.length (stringify_value j) + 2) []) as V.
  rewrite app_nil_r in V. rewrite V; [reflexivity|].
  pose proof (size_stringify j Hn). lia.
Qed.

Lemma numberless_toJSON n : numberless (toJSON n) = true.
Proof.
  induction n as [t | ty a ch IH] using Descendant_ind.
  - cbn [toJSON numberless]. unfold mark_member.
    destruct (bold t), (italic t), (underline t), (strike t), (code t);
      reflexivity.
  - cbn [toJSON numberless]. rewrite !forallb_app.
    assert (E : forallb numberless (map toJSON ch) = true).
    { induction IH as [|c ch Hc _ IHl]; [reflexivity|].
      cbn [map forallb]. rewrite Hc, IHl. reflexivity. }
    destruct a; cbn [forallb numberless]; rewrite E; reflexivity.
Qed.

Lemma numberless_documentJSON d : numberless (documentJSON d) = true.
Proof.
  unfold documentJSON. cbn [numberless].
  induction d as [|n d IH]; [reflexivity|].
  cbn [map forallb]. rewrite numberless_toJSON, IH. reflexivity.
Qed.

Lemma stringify_not_empty j :
  numberless j = true -> (JSON_stringify j =? "") = false.
Proof.
  intros Hn. destruct (stringify_opens j [] Hn) as [c [tl [E _]]].
  rewrite app_nil_r in E. unfold JSON_stringify. rewrite E. reflexivity.
Qed.

(** X1: The document that [handleChange] stores is the one the hydration
    effect installs on the next load: whatever the document (marks that
    are absent, [false] or [true], any alignment, any nesting, any
    characters in the texts), whatever the storage held before and
    whatever [value] was, hydration after [handleChange] returns the
    document that was passed to [handleChange], and throws nothing. *)
Theorem hydrate_after_handleChange
    (d : list Descendant) (localStorage : Storage) (value : JSValue) :
  hydrate (snd (handleChange (documentJSON d) localStorage)) value
  = Return (documentJSON d).
Proof.
  unfold hydrate, handleChange, setItem. cbn [snd].
  rewrite String.eqb_refl. unfold truthy_string.
  rewrite (stringify_not_empty _ (numberless_documentJSON d)).
  cbn [negb]. rewrite (parse_stringify _ (numberless_documentJSON d)).
  reflexivity.
Qed.

(** ** Setting properties on the items of a list *)

Lemma length_firstn_le (A : Type) (u : nat) (l : list A) :
  u <= List.length l -> List.length (firstn u l) = u.
Proof. intros H. rewrite length_firstn. lia. Qed.

Lemma lowest_below_container (W : Descendant) (a k : nat)
    (l : list Descendant) :
  l <> [] ->
  Editor.lowest ((W, [a]) :: block_entries [a] k l) = block_entries [a] k l.
Proof.
  intros Hl.
  destruct (block_entries_first_last [a] k l Hl) as [c0 [rest [E _]]].
  pose proof (block_entries_sorted [a] l k) as S. rewrite E in *.
  cbn [Editor.lowest Editor.lowest_from snd app Path.compare].
  rewrite Nat.compare_refl. apply lowest_from_sorted. exact S.
Qed.

Lemma update_list_elsewhere (T : list Path) f (a : nat) (l : list Descendant)
    (i : nat) :
  (forall q, In q T -> exists j, q = [a; j]) ->
  (forall j, i <= j < i + List.length l -> j <> a) ->
  update_list T f [] i l = l.
Proof.
  intros HT Hi. apply update_list_id. intros x Hx I. exfalso.
  apply path_in_iff in I. destruct (HT _ I) as [j' Hq].
  destruct (entries_list_paths _ _ _ _ Hx) as [j [r [Hr Hj]]].
  rewrite Hq in Hr. cbn [app] in Hr. injection Hr as -> _.
  apply (Hi j Hj). reflexivity.
Qed.

Lemma wrapped_setNodes PRE I1 I2 I3 POST wt wa sel m pr :
  selectsBlocks [List.length PRE] I1 I2 sel ->
  Transforms.setNodes
    (mkEditor (PRE ++ [ElementNode wt wa (I1 ++ I2 ++ I3)] ++ POST)
       (Some sel) m)
    pr None false
  = mkEditor
      (PRE
       ++ [ElementNode wt wa
             (I1
              ++ map (set_node pr)
                   (firstn (unhungCount sel (List.length I2)) I2)
              ++ skipn (unhungCount sel (List.length I2)) I2 ++ I3)]
       ++ POST)
      (Some sel) m.
Proof.
  intros Hsel.
  pose proof (wrapped_unhung_count PRE I1 I2 I3 POST wt wa sel m Hsel) as Hu.
  set (u := unhungCount sel (List.length I2)) in *.
  unfold Transforms.setNodes. cbn [selection andb].
  rewrite nodes_lowest,
    (wrapped_unhung_elements PRE I1 I2 I3 POST wt wa sel m Hsel).
  fold u.
  assert (Hne : firstn u I2 <> []).
  { intros E. apply (f_equal (@List.length _)) in E.
    rewrite length_firstn_le in E by lia. simpl in E. lia. }
  rewrite lowest_below_container by exact Hne.
  cbn [children marks].
  set (T := map snd (block_entries [List.length PRE] (List.length I1)
                       (firstn u I2))).
  assert (HT : forall q, In q T -> exists j, q = [List.length PRE; j]).
  { intros q Hq. apply in_map_iff in Hq. destruct Hq as [x [<- Hx]].
    destruct (block_entries_in _ _ _ _ Hx) as [j [Hj _]].
    exists j. exact Hj. }
  rewrite !update_list_app.
  rewrite (update_list_elsewhere T _ (List.length PRE) PRE 0 HT)
    by (intros j Hj; lia).
  rewrite (update_list_elsewhere T _ (List.length PRE) POST _ HT)
    by (intros j Hj; cbn [List.length] in Hj; lia).
  cbn [update_list app Nat.add]. rewrite update_node_element.
  assert (N : path_in [List.length PRE] T = false).
  { destruct (path_in [List.length PRE] T) eqn:I; [|reflexivity].
    apply path_in_iff in I. destruct (HT _ I) as [j Hj]. discriminate. }
  rewrite N.
  rewrite <- (firstn_skipn u I2) at 1. rewrite <- !app_assoc.
  unfold T. rewrite update_blocks. reflexivity.
Qed.

Lemma restyle_retype t u l : restyle (PType t) u l = retype t u l.
Proof. reflexivity. Qed.

Lemma restyle_blocks pre mid post pr u :
  pre ++ map (set_node pr) (firstn u mid) ++ skipn u mid ++ post
  = pre ++ restyle pr u mid ++ post.
Proof. unfold restyle. rewrite <- !app_assoc. reflexivity. Qed.

Lemma restyle_sameContent pr u l : Forall2 sameContent l (restyle pr u l).
Proof.
  unfold restyle. rewrite <- (firstn_skipn u l) at 1.
  apply Forall2_app.
  - induction (firstn u l) as [|c l' IH]; constructor; [|exact IH].
    destruct pr, c; split; reflexivity.
  - induction (skipn u l) as [|c l' IH]; constructor; [|exact IH].
    split; reflexivity.
Qed.

Lemma restyle_length pr u l : List.length (restyle pr u l) = List.length l.
Proof.
  unfold restyle. rewrite length_app, length_map, <- length_app, firstn_skipn.
  reflexivity.
Qed.

Lemma restyle_selects p pre mid sel pr u :
  selectsBlocks p pre mid sel -> selectsBlocks p pre (restyle pr u mid) sel.
Proof.
  intros [L [x [y [tS [tE [HS [HE [GS GE]]]]]]]].
  pose proof (restyle_sameContent pr u mid) as R.
  split; [apply (sameContent_leafy _ _ R L)|].
  exists x, y, tS, tE. rewrite restyle_length, !(sameContent_get _ _ R).
  repeat split; assumption.
Qed.

Lemma restyle_firstn pr u l :
  u <= List.length l ->
  firstn u (restyle pr u l) = map (set_node pr) (firstn u l)
  /\ skipn u (restyle pr u l) = skipn u l.
Proof.
  intros H. unfold restyle.
  assert (E : List.length (map (set_node pr) (firstn u l)) = u)
    by (rewrite length_map, length_firstn; lia).
  pose proof (firstn_exact _ (map (set_node pr) (firstn u l))
                (skipn u l)) as X1.
  pose proof (skipn_exact _ (map (set_node pr) (firstn u l))
                (skipn u l)) as X2.
  rewrite E in X1, X2. split; assumption.
Qed.

(** The range hangs or not whatever the container its blocks are in. *)
Lemma hanging_unwrapped (PRE I1 I2 : list Descendant) a' sel :
  selectsBlocks [List.length PRE] I1 I2 sel ->
  hanging (move_range (unwrap_path a' (List.length I1)) sel) = hanging sel.
Proof.
  intros Hsel. pose proof (selects_length _ _ _ _ Hsel) as Hl.
  destruct Hsel as [L [x [y [tS [tE [HS [HE _]]]]]]].
  set (k := List.length I1) in *.
  assert (Ed : Range.edges (move_range (unwrap_path a' k) sel)
               = (move_point (unwrap_path a' k) (fst (Range.edges sel)),
                  move_point (unwrap_path a' k) (snd (Range.edges sel)))).
  { apply edges_move.
    destruct (anchor_focus_edges sel) as [[-> ->] | [-> ->]];
      rewrite HS, HE; apply unwrap_path_compare; lia. }
  unfold hanging. rewrite Ed. cbn [fst snd move_point offset path].
  f_equal; [f_equal|].
  - f_equal. unfold Range.isCollapsed, move_range, Point.equals.
    cbn [anchor focus move_point offset path]. f_equal.
    assert (Q : forall j z j' z',
               k <= j -> k <= j' ->
               Path.equals (unwrap_path a' k [List.length PRE; j; z])
                 (unwrap_path a' k [List.length PRE; j'; z'])
               = Path.equals [List.length PRE; j; z]
                   [List.length PRE; j'; z']).
    { intros j z j' z' Hj Hj'. unfold Path.equals, unwrap_path.
      destruct (list_eq_dec Nat.eq_dec _ _) as [E1|E1],
               (list_eq_dec Nat.eq_dec _ _) as [E2|E2]; try reflexivity;
        exfalso.
      - apply E2. injection E1 as E1 ->. f_equal. f_equal. lia.
      - apply E1. injection E2 as -> ->. reflexivity. }
    destruct (anchor_focus_edges sel) as [[-> ->] | [-> ->]];
      rewrite HS, HE; cbn [app]; apply Q; lia.
  - rewrite HE. reflexivity.
Qed.

Lemma top_isAlignActive pre mid post sel m al :
  selectsBlocks [] pre mid sel ->
  isAlignActive (mkEditor (pre ++ mid ++ post) (Some sel) m) al
  = existsb (has_align al) mid.
Proof.
  intros Hsel. unfold isAlignActive. cbn [selection].
  rewrite nodes_all, filter_andb. rewrite <- nodes_all.
  rewrite (top_all_elements pre mid post sel m Hsel).
  apply (filter_block_entries (has_align al)).
Qed.

Lemma wrapped_isAlignActive PRE I1 I2 I3 POST wt wa sel m al :
  selectsBlocks [List.length PRE] I1 I2 sel ->
  isAlignActive
    (mkEditor (PRE ++ [ElementNode wt wa (I1 ++ I2 ++ I3)] ++ POST)
       (Some sel) m) al
  = option_string_eqb wa (Some al) || existsb (has_align al) I2.
Proof.
  intros Hsel. unfold isAlignActive. cbn [selection].
  rewrite nodes_all, filter_andb. rewrite <- nodes_all.
  rewrite (wrapped_all_elements PRE I1 I2 I3 POST wt wa sel m Hsel).
  cbn [filter fst align_of].
  destruct (option_string_eqb wa (Some al)); [reflexivity|].
  apply (filter_block_entries (has_align al)).
Qed.

Lemma hanging_unwrapped_count (PRE I1 I2 : list Descendant) a' sel :
  selectsBlocks [List.length PRE] I1 I2 sel ->
  unhungCount (move_range (unwrap_path a' (List.length I1)) sel)
    (List.length I2)
  = unhungCount sel (List.length I2).
Proof.
  intros H. unfold unhungCount. rewrite (hanging_unwrapped PRE I1 I2 a' sel H).
  reflexivity.
Qed.

(** One toggle of any type over items of a list. *)
Lemma toggleBlock_in_list PRE I1 I2 I3 POST wt wa sel m T :
  selectsBlocks [List.length PRE] I1 I2 sel ->
  isListType wt = true ->
  (forall c, In c I2 -> isListNode c = false) ->
  toggleBlock
    (mkEditor (PRE ++ [ElementNode wt wa (I1 ++ I2 ++ I3)] ++ POST)
       (Some sel) m) T
  = let u := unhungCount sel (List.length I2) in
    let X := PRE ++ Transforms.remainder wt wa I1 in
    let Y := Transforms.remainder wt wa I3 ++ POST in
    let sel' := move_range (unwrap_path (List.length X) (List.length I1))
                  sel in
    let act := (wt =? T) || existsb (has_type T) (firstn u I2) in
    if negb act && isListType T
    then mkEditor (X ++ [ElementNode T None (retype "list-item" u I2)] ++ Y)
           (Some (move_range (wrap_path (List.length X)) sel')) m
    else mkEditor
           (X ++ retype (if act then "paragraph" else T) u I2 ++ Y)
           (Some sel') m.
Proof.
  intros Hsel Hw Hi. cbv zeta.
  pose proof (unwrapped_selects PRE I1 I2 wt wa sel Hsel) as S.
  rewrite toggleBlock_steps. cbv zeta.
  rewrite (wrapped_isBlockActive PRE I1 I2 I3 POST wt wa sel m Hsel).
  change (has_type T (ElementNode wt wa (I1 ++ I2 ++ I3))) with (wt =? T).
  rewrite (wrapped_unwrapNodes PRE I1 I2 I3 POST wt wa sel m Hsel Hw Hi).
  rewrite (app_assoc PRE).
  rewrite (top_setNodes _ I2 _ _ m S), retype_blocks.
  rewrite (hanging_unwrapped_count PRE I1 I2 _ sel Hsel).
  destruct ((wt =? T) || existsb _ _), (isListType T); cbn [negb andb];
    try reflexivity.
  apply top_wrapNodes. apply retype_selects. exact S.
Qed.

(** ** The toolbar without a selection *)

(** X7: Without a selection no command of the toolbar changes the editor:
    every block toggle, alignment toggle and mark toggle returns it as
    it is (document, selection and pending marks), and no alignment and
    no mark is shown as active. *)
Theorem no_selection_no_change (e : BaseEditor) :
  selection e = None ->
  (forall T, toggleBlock e T = e)
  /\ (forall al, toggleAlign e al = e /\ isAlignActive e al = false)
  /\ (forall k, toggleFormat e k = e /\ isFormatActive e k = false).
Proof.
  intros H. split; [|split].
  - intros T. unfold toggleBlock, isBlockActive, Transforms.unwrapNodes.
    rewrite H. cbv zeta. unfold Transforms.setNodes. rewrite H.
    cbn [negb andb]. destruct (isListType T); [|reflexivity].
    unfold Transforms.wrapNodes. rewrite H. reflexivity.
  - intros al. unfold toggleAlign, isAlignActive, Transforms.setNodes.
    rewrite H. split; reflexivity.
  - intros k. unfold toggleFormat, isFormatActive, editor_addMark,
      Editor.marks.
    rewrite H. split; reflexivity.
Qed.

Lemma no_selection_no_change_witness :
  toggleBlock (mkEditor defaultValue None None) "heading-one"
  = mkEditor defaultValue None None.
Proof.
  apply (no_selection_no_change (mkEditor defaultValue None None)).
  reflexivity.
Defined.

(** ** The toolbar never changes the text *)

Lemma plainTextOf_set_node pr n : plainTextOf (set_node pr n) = plainTextOf n.
Proof. destruct pr as [v | v | k v], n as [t | ty a ch]; try reflexivity.
  destruct k; reflexivity.
Qed.

Lemma plainTextOf_update T f :
  (forall n, plainTextOf (f n) = plainTextOf n) ->
  forall n p, plainTextOf (update_node T f p n) = plainTextOf n.
Proof.
  intros Hf. induction n as [t | ty a ch IH] using Descendant_ind; intros p.
  - rewrite update_node_text. destruct (path_in p T); [apply Hf|reflexivity].
  - rewrite update_node_element.
    assert (E : plainTextOf (ElementNode ty a (update_list T f p 0 ch))
                = plainTextOf (ElementNode ty a ch)).
    { rewrite !plainTextOf_element. generalize 0 as i.
      induction IH as [|c ch Hc _ IHl]; intros i; [reflexivity|].
      cbn [update_list]. rewrite !getPlainText_cons, Hc, IHl. reflexivity. }
    destruct (path_in p T); [rewrite Hf|]; exact E.
Qed.

Lemma getPlainText_update T f p l :
  (forall n, plainTextOf (f n) = plainTextOf n) ->
  forall i, getPlainText (update_list T f p i l) = getPlainText l.
Proof.
  intros Hf. induction l as [|c l IH]; intros i; [reflexivity|].
  cbn [update_list]. rewrite !getPlainText_cons, IH,
    (plainTextOf_update T f Hf). reflexivity.
Qed.

Lemma getPlainText_restyle pr u l :
  getPlainText (restyle pr u l) = getPlainText l.
Proof.
  unfold restyle. rewrite <- (firstn_skipn u l) at 3.
  rewrite !getPlainText_app. f_equal.
  induction (firstn u l) as [|c l' IH]; [reflexivity|].
  cbn [map]. rewrite !getPlainText_cons, IH, plainTextOf_set_node.
  reflexivity.
Qed.

Lemma getPlainText_remainder t a l :
  getPlainText (Transforms.remainder t a l) = getPlainText l.
Proof.
  destruct l as [|c l]; [reflexivity|].
  unfold Transforms.remainder. rewrite getPlainText_cons, plainTextOf_element.
  apply append_empty_r.
Qed.

Lemma getPlainText_singleton n : getPlainText [n] = plainTextOf n.
Proof. reflexivity. Qed.

(** X8: Over a selection of blocks, no block toggle and no alignment toggle
    changes the text that the chat panel reads off the document:
    retyping, wrapping in a list, splitting a list and unwrapping move
    and relabel the blocks and keep every text in its place. *)
Theorem block_commands_keep_text (e : BaseEditor) :
  blockSelection e ->
  (forall T, getPlainText (children (toggleBlock e T))
             = getPlainText (children e))
  /\ (forall al, getPlainText (children (toggleAlign e al))
                 = getPlainText (children e)).
Proof.
  intros [pre mid post sel m Hsel Hi | PRE I1 I2 I3 POST wt wa sel m Hsel Hw Hi].
  - split.
    + intros T. destruct (isListType T) eqn:Hl.
      * rewrite toggleBlock_steps. cbv zeta.
        rewrite (top_unwrapNodes pre mid post sel m Hsel Hi).
        rewrite (top_setNodes pre mid post sel m Hsel), Hl, retype_blocks.
        destruct (negb _ && true).
        -- rewrite top_wrapNodes by (apply retype_selects; exact Hsel).
           cbn [children].
           rewrite !getPlainText_app, getPlainText_singleton,
             plainTextOf_element, <- restyle_retype, getPlainText_restyle.
           reflexivity.
        -- cbn [children].
           rewrite !getPlainText_app, <- restyle_retype, getPlainText_restyle.
           reflexivity.
      * rewrite (toggleBlock_plain pre mid post sel m T Hsel Hi Hl).
        cbn [children].
        rewrite !getPlainText_app, <- restyle_retype, getPlainText_restyle.
        reflexivity.
    + intros al. unfold toggleAlign.
      rewrite (top_setNodes pre mid post sel m Hsel), restyle_blocks.
      cbn [children]. rewrite !getPlainText_app, getPlainText_restyle.
      reflexivity.
  - split.
    + intros T.
      rewrite (toggleBlock_in_list PRE I1 I2 I3 POST wt wa sel m T Hsel Hw Hi).
      cbv zeta.
      destruct (negb _ && isListType T); cbn [children];
        rewrite !getPlainText_app, ?getPlainText_singleton,
          ?plainTextOf_element, <- ?restyle_retype, ?getPlainText_restyle,
          ?getPlainText_remainder, ?getPlainText_app, ?append_assoc;
        reflexivity.
    + intros al. unfold toggleAlign.
      rewrite (wrapped_setNodes PRE I1 I2 I3 POST wt wa sel m _ Hsel).
      rewrite (restyle_blocks I1 I2 I3). cbn [children].
      rewrite !getPlainText_app, !getPlainText_singleton,
        !plainTextOf_element, !getPlainText_app, getPlainText_restyle.
      reflexivity.
Qed.

(** ** What a block toggle shows afterwards *)

Lemma existsb_has_type_const T t (l : list Descendant) :
  l <> [] ->
  (forall c, In c l -> type_of c = Some t) ->
  existsb (has_type T) l = (t =? T).
Proof.
  intros Hne H.
  assert (F : forall c, In c l -> has_type T c = (t =? T)).
  { intros c Hc. unfold has_type. rewrite (H c Hc). reflexivity. }
  destruct (t =? T).
  - apply existsb_exists. destruct l as [|c l]; [contradiction|].
    exists c. split; [left; reflexivity | apply F; left; reflexivity].
  - apply existsb_false. exact F.
Qed.

Lemma retyped_types t (l : list Descendant) :
  Forall leafy l ->
  forall c, In c (map (set_node (PType t)) l) -> type_of c = Some t.
Proof.
  intros L c Hc. apply in_map_iff in Hc. destruct Hc as [c0 [<- H0]].
  rewrite Forall_forall in L. destruct (L c0 H0) as [t0 [a [ts [_ ->]]]].
  reflexivity.
Qed.

Lemma firstn_nonempty (A : Type) (u : nat) (l : list A) :
  1 <= u <= List.length l -> firstn u l <> [].
Proof.
  intros H E. apply (f_equal (@List.length A)) in E.
  rewrite length_firstn_le in E by lia. simpl in E. lia.
Qed.

Lemma Forall_firstn_leafy u l : Forall leafy l -> Forall leafy (firstn u l).
Proof.
  intros H. apply Forall_forall. intros c Hc. rewrite Forall_forall in H.
  apply H. apply (In_firstn _ _ _ _ Hc).
Qed.

(** After the blocks of the unhung range have received the type [t], a
    type is active exactly when it is [t]. *)
Lemma top_retyped_active pre mid post sel m t T :
  selectsBlocks [] pre mid sel ->
  isBlockActive
    (mkEditor (pre ++ retype t (unhungCount sel (List.length mid)) mid ++ post)
       (Some sel) m) T
  = (t =? T).
Proof.
  intros Hsel.
  pose proof (top_unhung_count pre mid post sel m Hsel) as Hu.
  set (u := unhungCount sel (List.length mid)) in *.
  rewrite (top_isBlockActive pre _ post sel m (retype_selects _ _ _ _ t u Hsel)).
  rewrite retype_length. fold u.
  destruct (retype_firstn t u mid (proj2 Hu)) as [-> _].
  apply existsb_has_type_const.
  - intros E. apply map_eq_nil in E. revert E. apply firstn_nonempty. exact Hu.
  - apply retyped_types. apply Forall_firstn_leafy. apply Hsel.
Qed.

Lemma top_retyped_label pre mid post sel m t :
  selectsBlocks [] pre mid sel ->
  getCurrentHeading
    (mkEditor (pre ++ retype t (unhungCount sel (List.length mid)) mid ++ post)
       (Some sel) m)
  = headingLabel t.
Proof.
  intros Hsel. unfold getCurrentHeading, headingLabel.
  rewrite !(top_retyped_active pre mid post sel m t _ Hsel). reflexivity.
Qed.

Lemma wrapped_active pre mid post sel m T :
  selectsBlocks [List.length pre] [] mid sel ->
  isBlockActive
    (mkEditor (pre ++ [ElementNode T None mid] ++ post) (Some sel) m) T
  = true.
Proof.
  intros Hsel.
  pose proof (wrapped_isBlockActive pre [] mid [] post T None sel m Hsel T)
    as A.
  cbn [app] in A. rewrite app_nil_r in A. cbn [app]. rewrite A.
  replace (has_type T (ElementNode T None mid)) with true
    by (symmetry; apply has_type_iff; reflexivity).
  reflexivity.
Qed.

Lemma leafy_not_list_type T c :
  leafy c -> isListNode c = false -> isListType T = true ->
  has_type T c = false.
Proof.
  intros [t [a [ts [_ ->]]]] Hn Hl. unfold isListNode in Hn. cbn in Hn.
  unfold has_type. cbn. destruct (t =? T) eqn:E; [|reflexivity].
  apply String.eqb_eq in E. subst t. congruence.
Qed.

Lemma no_list_type_active T u (l : list Descendant) :
  Forall leafy l ->
  (forall c, In c l -> isListNode c = false) ->
  isListType T = true ->
  existsb (has_type T) (firstn u l) = false.
Proof.
  intros L Hi Hl. apply existsb_false. intros c Hc.
  apply In_firstn in Hc. rewrite Forall_forall in L.
  apply leafy_not_list_type; auto.
Qed.

(** X9: Over a selection of blocks, a toggle of any block type but
    [paragraph] flips what [isBlockActive] says of that type: the
    button of a type lights up when the type is put on the blocks and
    goes out when it is taken off.  ([paragraph] stays active after it
    was toggled.) *)
Theorem toggleBlock_flips_active (e : BaseEditor) (T : string) :
  blockSelection e ->
  T <> "paragraph" ->
  isBlockActive (toggleBlock e T) T = negb (isBlockActive e T).
Proof.
  intros [pre mid post sel m Hsel Hi | PRE I1 I2 I3 POST wt wa sel m Hsel Hw Hi]
    HT.
  - assert (Np : ("paragraph" =? T) = false)
      by (apply String.eqb_neq; congruence).
    rewrite (top_isBlockActive pre mid post sel m Hsel).
    destruct (isListType T) eqn:Hl.
    + pose proof (no_list_type_active T (unhungCount sel (List.length mid))
                    mid (proj1 Hsel) Hi Hl) as Ha.
      rewrite (toggleBlock_wrap pre mid post sel m T Hsel Hi Hl Ha), Ha.
      apply wrapped_active. apply wrapped_selects.
      apply retype_selects. exact Hsel.
    + rewrite (toggleBlock_plain pre mid post sel m T Hsel Hi Hl).
      rewrite (top_retyped_active pre mid post sel m _ T Hsel).
      destruct (existsb _ _); [exact Np | apply String.eqb_refl].
  - assert (Np : ("paragraph" =? T) = false)
      by (apply String.eqb_neq; congruence).
    pose proof (unwrapped_selects PRE I1 I2 wt wa sel Hsel) as S.
    rewrite (wrapped_isBlockActive PRE I1 I2 I3 POST wt wa sel m Hsel).
    change (has_type T (ElementNode wt wa (I1 ++ I2 ++ I3))) with (wt =? T).
    rewrite (toggleBlock_in_list PRE I1 I2 I3 POST wt wa sel m T Hsel Hw Hi).
    cbv zeta.
    rewrite <- (hanging_unwrapped_count PRE I1 I2
                  (List.length (PRE ++ Transforms.remainder wt wa I1))
                  sel Hsel).
    destruct ((wt =? T) || existsb _ _), (isListType T) eqn:Hl;
      cbn [negb andb].
    + rewrite (top_retyped_active _ I2 _ _ m _ T S). exact Np.
    + rewrite (top_retyped_active _ I2 _ _ m _ T S). exact Np.
    + apply wrapped_active. apply wrapped_selects.
      apply retype_selects. exact S.
    + rewrite (top_retyped_active _ I2 _ _ m _ T S). apply String.eqb_refl.
Qed.

(** X10: Over a selection of blocks, after a toggle of a type that is no
    list kind the heading menu shows the label of that type when the
    type was not active before, and [Normal] when it was: the blocks of
    the unhung range all carry one type then. *)
Theorem getCurrentHeading_after_toggle (e : BaseEditor) (T : string) :
  blockSelection e ->
  isListType T = false ->
  getCurrentHeading (toggleBlock e T)
  = if isBlockActive e T then "Normal" else headingLabel T.
Proof.
  intros [pre mid post sel m Hsel Hi | PRE I1 I2 I3 POST wt wa sel m Hsel Hw Hi]
    Hl.
  - rewrite (top_isBlockActive pre mid post sel m Hsel).
    rewrite (toggleBlock_plain pre mid post sel m T Hsel Hi Hl).
    rewrite (top_retyped_label pre mid post sel m _ Hsel).
    destruct (existsb _ _); reflexivity.
  - pose proof (unwrapped_selects PRE I1 I2 wt wa sel Hsel) as S.
    rewrite (wrapped_isBlockActive PRE I1 I2 I3 POST wt wa sel m Hsel).
    change (has_type T (ElementNode wt wa (I1 ++ I2 ++ I3))) with (wt =? T).
    rewrite (toggleBlock_in_list PRE I1 I2 I3 POST wt wa sel m T Hsel Hw Hi).
    cbv zeta. rewrite Hl, andb_false_r.
    rewrite <- (hanging_unwrapped_count PRE I1 I2
                  (List.length (PRE ++ Transforms.remainder wt wa I1))
                  sel Hsel).
    rewrite (top_retyped_label _ I2 _ _ m _ S).
    destruct ((wt =? T) || existsb _ _); reflexivity.
Qed.

(** ** Taking items out of a list *)

(** X12: The selection lies in the items [I2] of a list, between the items
    [I1] and [I3].  A toggle of the kind of that list, or of a type that
    is no list kind, takes exactly the items [I2] out of the list, to
    the place where the list was split; the items of the unhung range
    become paragraphs (after the kind of the list or [list-item]) or
    blocks of the toggled type, and the items before and after stay in
    lists of the kind of the original.  An item that the selection only
    hangs into leaves the list as well and keeps its type. *)
Theorem toggleBlock_out_of_list
    (PRE I1 I2 I3 POST : list Descendant) (wt : string)
    (wa : option string) (sel : Range) (m : option Marks) (T : string) :
  selectsBlocks [List.length PRE] I1 I2 sel ->
  isListType wt = true ->
  (forall c, In c I2 -> type_of c = Some "list-item") ->
  T = wt \/ isListType T = false ->
  children
    (toggleBlock
       (mkEditor (PRE ++ [ElementNode wt wa (I1 ++ I2 ++ I3)] ++ POST)
          (Some sel) m) T)
  = PRE ++ Transforms.remainder wt wa I1
    ++ retype (if (wt =? T) || ("list-item" =? T) then "paragraph" else T)
         (unhungCount sel (List.length I2)) I2
    ++ Transforms.remainder wt wa I3 ++ POST.
Proof.
  intros Hsel Hw Ht HT.
  assert (Hi : forall c, In c I2 -> isListNode c = false).
  { intros c Hc. unfold isListNode. rewrite (Ht c Hc). apply andb_false_r. }
  pose proof (wrapped_unhung_count PRE I1 I2 I3 POST wt wa sel m Hsel) as Hu.
  rewrite (toggleBlock_in_list PRE I1 I2 I3 POST wt wa sel m T Hsel Hw Hi).
  cbv zeta.
  rewrite (existsb_has_type_const T "list-item").
  2:{ apply firstn_nonempty. exact Hu. }
  2:{ intros c Hc. apply Ht. apply (In_firstn _ _ _ _ Hc). }
  assert (C : negb ((wt =? T) || ("list-item" =? T)) && isListType T = false).
  { destruct HT as [-> | ->]; [|apply andb_false_r].
    rewrite String.eqb_refl. reflexivity. }
  rewrite C. cbn [children]. rewrite <- !app_assoc. reflexivity.
Qed.

Lemma toggleBlock_out_of_list_witness :
  children
    (toggleBlock
       (mkEditor
          ([] ++ [ElementNode "bulleted-list" None
                    ([ElementNode "list-item" None [TextNode (plain "a")]]
                     ++ [ElementNode "list-item" None [TextNode (plain "b")]]
                     ++ [ElementNode "list-item" None
                           [TextNode (plain "c")]])]
              ++ [])
          (Some (mkRange (mkPoint [0; 1; 0] 0) (mkPoint [0; 1; 0] 1))) None)
       "bulleted-list")
  = [ElementNode "bulleted-list" None
       [ElementNode "list-item" None [TextNode (plain "a")]];
     ElementNode "paragraph" None [TextNode (plain "b")];
     ElementNode "bulleted-list" None
       [ElementNode "list-item" None [TextNode (plain "c")]]].
Proof.
  rewrite (toggleBlock_out_of_list []
             [ElementNode "list-item" None [TextNode (plain "a")]]
             [ElementNode "list-item" None [TextNode (plain "b")]]
             [ElementNode "list-item" None [TextNode (plain "c")]]
             [] "bulleted-list" None
             (mkRange (mkPoint [0; 1; 0] 0) (mkPoint [0; 1; 0] 1)) None
             "bulleted-list").
  - reflexivity.
  - split.
    + repeat constructor. exists "list-item", None, [plain "b"].
      split; [discriminate | reflexivity].
    + exists 0, 0, (plain "b"), (plain "b"). repeat split; reflexivity.
  - reflexivity.
  - intros c [<- | []]. reflexivity.
  - left. reflexivity.
Defined.

Lemma texts_no_orphan b (ts : list CustomText) :
  forallb (noOrphanItem b) (map TextNode ts) = true.
Proof. induction ts as [|t ts IH]; [reflexivity|]. exact IH. Qed.

Lemma leafy_in_list c : leafy c -> noOrphanItem true c = true.
Proof.
  intros [t [a [ts [_ ->]]]]. cbn [noOrphanItem orb andb].
  apply texts_no_orphan.
Qed.

Lemma leafy_no_item c :
  leafy c -> has_type "list-item" c = false -> noOrphanItem false c = true.
Proof.
  intros [t [a [ts [_ ->]]]] H. unfold has_type in H. cbn in H.
  cbn [noOrphanItem orb]. rewrite H. cbn [negb andb].
  apply texts_no_orphan.
Qed.

Lemma leafy_all_in_list l :
  Forall leafy l -> forallb (noOrphanItem true) l = true.
Proof.
  induction 1 as [|c l Hc _ IH]; [reflexivity|].
  cbn [forallb]. rewrite (leafy_in_list c Hc), IH. reflexivity.
Qed.

Lemma retyped_no_orphan t (l : list Descendant) :
  Forall leafy l -> t <> "list-item" ->
  noOrphanItems (retype t (List.length l) l) = true.
Proof.
  intros L Ht. unfold retype. rewrite firstn_all, skipn_all, app_nil_r.
  unfold noOrphanItems. apply forallb_forall. intros c Hc.
  pose proof (retyped_types t l L c Hc) as Hty.
  apply leafy_no_item.
  - apply in_map_iff in Hc. destruct Hc as [c0 [<- H0]].
    rewrite Forall_forall in L. destruct (L c0 H0) as [t0 [a [ts [N ->]]]].
    exists t, a, ts. split; [exact N | reflexivity].
  - unfold has_type. rewrite Hty. cbn. apply String.eqb_neq. exact Ht.
Qed.

Lemma noOrphanItems_app l1 l2 :
  noOrphanItems (l1 ++ l2) = noOrphanItems l1 && noOrphanItems l2.
Proof. apply forallb_app. Qed.

Lemma noOrphan_list T (l : list Descendant) :
  isListType T = true -> Forall leafy l ->
  noOrphanItems [ElementNode T None l] = true.
Proof.
  intros Hl L. unfold noOrphanItems. cbn [forallb noOrphanItem].
  rewrite Hl, (leafy_all_in_list l L).
  destruct (T =? "list-item") eqn:E; [|reflexivity].
  apply String.eqb_eq in E. subst T. discriminate.
Qed.

(** X13: Over a selection of blocks that does not hang, a toggle of any
    block type but [list-item] keeps the document free of list items
    outside a list container, if it was: items that leave a list are
    retyped, and blocks that become items are wrapped. *)
Theorem toggleBlock_keeps_items_in_lists (e : BaseEditor) (T : string) :
  blockSelection e ->
  (forall sel, selection e = Some sel -> hanging sel = false) ->
  T <> "list-item" ->
  noOrphanItems (children e) = true ->
  noOrphanItems (children (toggleBlock e T)) = true.
Proof.
  intros [pre mid post sel m Hsel Hi | PRE I1 I2 I3 POST wt wa sel m Hsel Hw Hi]
    Hh HT HO; specialize (Hh sel eq_refl); cbn [children] in HO.
  - rewrite !noOrphanItems_app, !andb_true_iff in HO.
    destruct HO as [Opre [Omid Opost]].
    assert (U : unhungCount sel (List.length mid) = List.length mid)
      by (unfold unhungCount; rewrite Hh; reflexivity).
    destruct (isListType T) eqn:Hl.
    + pose proof (no_list_type_active T (unhungCount sel (List.length mid))
                    mid (proj1 Hsel) Hi Hl) as Ha.
      rewrite (toggleBlock_wrap pre mid post sel m T Hsel Hi Hl Ha).
      cbn [children]. rewrite !noOrphanItems_app, Opre, Opost.
      rewrite (noOrphan_list T _ Hl); [reflexivity|].
      apply (retype_selects _ _ _ _ "list-item" _ Hsel).
    + rewrite (toggleBlock_plain pre mid post sel m T Hsel Hi Hl).
      cbn [children]. rewrite !noOrphanItems_app, Opre, Opost, U.
      rewrite retyped_no_orphan; [reflexivity | apply Hsel |].
      destruct (existsb _ _); [discriminate | exact HT].
  - rewrite !noOrphanItems_app, !andb_true_iff in HO.
    destruct HO as [Opre [OW Opost]].
    unfold noOrphanItems in OW. cbn [forallb noOrphanItem] in OW.
    rewrite Hw, !forallb_app, !andb_true_iff in OW.
    destruct OW as [[_ [O1 [_ O3]]] _].
    assert (U : unhungCount sel (List.length I2) = List.length I2)
      by (unfold unhungCount; rewrite Hh; reflexivity).
    rewrite (toggleBlock_in_list PRE I1 I2 I3 POST wt wa sel m T Hsel Hw Hi).
    cbv zeta. rewrite U.
    destruct (negb _ && isListType T) eqn:C; cbn [children];
      rewrite !noOrphanItems_app, Opre, Opost,
        !(noOrphan_remainder wt wa) by assumption.
    + apply andb_true_iff in C. destruct C as [_ Hl].
      rewrite (noOrphan_list T _ Hl); [reflexivity|].
      apply (retype_selects _ _ _ _ "list-item" _ Hsel).
    + rewrite retyped_no_orphan; [reflexivity | apply Hsel |].
      destruct (_ || _); [discriminate | exact HT].
Qed.

(** ** Alignment *)

Lemma realigned_active al u (l : list Descendant) :
  Forall leafy l -> 1 <= u <= List.length l ->
  existsb (has_align al) (restyle (PAlign (Some al)) u l) = true.
Proof.
  intros L Hu. apply existsb_exists.
  destruct l as [|c l]; [simpl in Hu; lia|].
  destruct u as [|u]; [lia|].
  exists (set_node (PAlign (Some al)) c). split; [left; reflexivity|].
  inversion L as [|? ? [t [a [ts [_ ->]]]] _]; subst.
  unfold has_align. cbn. apply String.eqb_refl.
Qed.


Lemma toggleAlign_active_after pre mid post sel m al :
  selectsBlocks [] pre mid sel ->
  isAlignActive (mkEditor (pre ++ mid ++ post) (Some sel) m) al = false ->
  isAlignActive
    (toggleAlign (mkEditor (pre ++ mid ++ post) (Some sel) m) al) al
  = true.
Proof.
  intros Hsel Ha. unfold toggleAlign. rewrite Ha.
  pose proof (top_unhung_count pre mid post sel m Hsel) as Hu.
  rewrite (top_setNodes pre mid post sel m Hsel), restyle_blocks.
  rewrite (top_isAlignActive pre _ post sel m al
             (restyle_selects _ _ _ _ _ _ Hsel)).
  apply realigned_active; [apply Hsel | exact Hu].
Qed.

Lemma restyle_restyle_align v w u (l : list Descendant) :
  u <= List.length l ->
  restyle (PAlign w) u (restyle (PAlign v) u l) = restyle (PAlign w) u l.
Proof.
  intros Hu. unfold restyle at 1.
  destruct (restyle_firstn (PAlign v) u l Hu) as [-> ->].
  unfold restyle. f_equal. rewrite map_map. apply map_ext.
  intros [t | t a ch]; reflexivity.
Qed.

(** X15: A second toggle does not bring the alignment back: when the
    alignment is not active at first, two toggles of it over top-level
    blocks leave every block of the unhung range without any alignment,
    whatever alignment it had before. *)
Theorem toggleAlign_twice_clears
    (pre mid post : list Descendant) (sel : Range) (m : option Marks)
    (al : string) :
  selectsBlocks [] pre mid sel ->
  isAlignActive (mkEditor (pre ++ mid ++ post) (Some sel) m) al = false ->
  toggleAlign (toggleAlign (mkEditor (pre ++ mid ++ post) (Some sel) m) al) al
  = mkEditor
      (pre ++ restyle (PAlign None) (unhungCount sel (List.length mid)) mid
       ++ post)
      (Some sel) m.
Proof.
  intros Hsel Ha.
  pose proof (top_unhung_count pre mid post sel m Hsel) as Hu.
  pose proof (toggleAlign_active_after pre mid post sel m al Hsel Ha) as Hb.
  unfold toggleAlign in *. rewrite Ha in *.
  rewrite (top_setNodes pre mid post sel m Hsel), restyle_blocks in *.
  rewrite Hb.
  rewrite (top_setNodes pre _ post sel m (restyle_selects _ _ _ _ _ _ Hsel)).
  rewrite restyle_blocks, restyle_length.
  rewrite restyle_restyle_align by apply Hu. reflexivity.
Qed.

Lemma toggleAlign_twice_clears_witness :
  toggleAlign
    (toggleAlign
       (mkEditor
          ([] ++ [ElementNode "paragraph" (Some "center")
                    [TextNode (plain "a")]] ++ [])
          (Some (mkRange (mkPoint [0; 0] 0) (mkPoint [0; 0] 1))) None)
       "right")
    "right"
  = mkEditor [ElementNode "paragraph" None [TextNode (plain "a")]]
      (Some (mkRange (mkPoint [0; 0] 0) (mkPoint [0; 0] 1))) None.
Proof.
  rewrite (toggleAlign_twice_clears []
             [ElementNode "paragraph" (Some "center") [TextNode (plain "a")]]
             [] (mkRange (mkPoint [0; 0] 0) (mkPoint [0; 0] 1)) None "right").
  - reflexivity.
  - split.
    + repeat constructor. exists "paragraph", (Some "center"), [plain "a"].
      split; [discriminate | reflexivity].
    + exists 0, 0, (plain "a"), (plain "a"). repeat split; reflexivity.
  - reflexivity.
Defined.

(** X16: The alignment of a list item is not rendered: a toggle of an
    alignment over items of a list changes the [align] of the items of
    the unhung range and nothing else, and [Element] renders an item
    alike whatever its [align]. *)
Theorem toggleAlign_on_items_not_rendered
    (PRE I1 I2 I3 POST : list Descendant) (wt : string)
    (wa : option string) (sel : Range) (m : option Marks) (al : string) :
  selectsBlocks [List.length PRE] I1 I2 sel ->
  (forall c, In c I2 -> type_of c = Some "list-item") ->
  toggleAlign
    (mkEditor (PRE ++ [ElementNode wt wa (I1 ++ I2 ++ I3)] ++ POST)
       (Some sel) m) al
  = mkEditor
      (PRE
       ++ [ElementNode wt wa
             (I1
              ++ restyle
                   (PAlign
                      (if isAlignActive
                            (mkEditor
                               (PRE ++ [ElementNode wt wa (I1 ++ I2 ++ I3)]
                                ++ POST)
                               (Some sel) m) al
                       then None else Some al))
                   (unhungCount sel (List.length I2)) I2
              ++ I3)]
       ++ POST)
      (Some sel) m
  /\ forall v c attributes children,
       In c I2 ->
       Element attributes children (set_node (PAlign v) c)
       = Element attributes children c.
Proof.
  intros Hsel Ht. unfold toggleAlign. split.
  - rewrite (wrapped_setNodes PRE I1 I2 I3 POST wt wa sel m _ Hsel).
    rewrite (restyle_blocks I1 I2 I3). reflexivity.
  - intros v c attributes ch Hc. specialize (Ht c Hc).
    destruct c as [t | t a c']; [reflexivity|].
    cbn in Ht. injection Ht as ->. reflexivity.
Qed.

Lemma toggleAlign_on_items_not_rendered_witness :
  toggleAlign
    (mkEditor
       ([] ++ [ElementNode "bulleted-list" None
                 ([] ++ [ElementNode "list-item" None
                           [TextNode (plain "a")]] ++ [])] ++ [])
       (Some (mkRange (mkPoint [0; 0; 0] 0) (mkPoint [0; 0; 0] 1))) None)
    "center"
  = mkEditor
      [ElementNode "bulleted-list" None
         [ElementNode "list-item" (Some "center") [TextNode (plain "a")]]]
      (Some (mkRange (mkPoint [0; 0; 0] 0) (mkPoint [0; 0; 0] 1))) None
  /\ Element [] (Given 0)
       (ElementNode "list-item" (Some "center") [TextNode (plain "a")])
     = Element [] (Given 0)
         (ElementNode "list-item" None [TextNode (plain "a")]).
Proof.
  destruct (toggleAlign_on_items_not_rendered [] []
              [ElementNode "list-item" None [TextNode (plain "a")]] [] []
              "bulleted-list" None
              (mkRange (mkPoint [0; 0; 0] 0) (mkPoint [0; 0; 0] 1)) None
              "center") as [E R].
  - split.
    + repeat constructor. exists "list-item", None, [plain "a"].
      split; [discriminate | reflexivity].
    + exists 0, 0, (plain "a"), (plain "a"). repeat split; reflexivity.
  - intros c [<- | []]. reflexivity.
  - split.
    + rewrite E. reflexivity.
    + apply (R (Some "center")
               (ElementNode "list-item" None [TextNode (plain "a")])).
      left. reflexivity.
Defined.

(** ** Marks *)

Lemma entries_node_head p n : In (n, p) (Node.entries_node p n).
Proof. destruct n; left; reflexivity. Qed.

Lemma entries_list_nth q l :
  forall i j c x,
    nth_error l i = Some c ->
    In x (Node.entries_node (q ++ [j + i]) c) ->
    In x (Node.entries_list q j l).
Proof.
  induction l as [|d l IH]; intros i j c x Hn Hx.
  - destruct i; discriminate.
  - cbn [Node.entries_list]. apply in_or_app. destruct i as [|i].
    + injection Hn as ->. rewrite Nat.add_0_r in Hx. left. exact Hx.
    + right. apply (IH i (S j) c x Hn).
      replace (S j + i) with (j + S i) by lia. exact Hx.
Qed.

Lemma get_in_entries p :
  forall l q n,
    Node.get l p = Some n -> In (n, q ++ p) (Node.entries_list q 0 l).
Proof.
  induction p as [|i p IH]; intros l q n G; [discriminate|].
  destruct p as [|i' p].
  - cbn [Node.get] in G. apply (entries_list_nth q l i 0 n _ G).
    apply entries_node_head.
  - change (Node.get l (i :: i' :: p))
      with (match nth_error l i with
            | Some (ElementNode _ _ ch) => Node.get ch (i' :: p)
            | _ => None
            end) in G.
    destruct (nth_error l i) as [[t | t a ch]|] eqn:Hn; try discriminate.
    apply (entries_list_nth q l i 0 _ _ Hn). cbn [Nat.add].
    rewrite entries_node_element. right.
    replace (q ++ i :: i' :: p) with ((q ++ [i]) ++ i' :: p)
      by (rewrite <- app_assoc; reflexivity).
    apply IH. exact G.
Qed.

Lemma Format_eq_dec (k k' : Format) : {k = k'} + {k <> k'}.
Proof. decide equality. Defined.

Lemma marks_get_set m k v : marks_get (marks_set m k v) k = v.
Proof. destruct k; reflexivity. Qed.

Lemma marks_get_set_other m k k' v :
  k' <> k -> marks_get (marks_set m k v) k' = marks_get m k'.
Proof. destruct k, k'; intros H; try reflexivity; contradiction. Qed.

Lemma get_set_mark_other k k' v t :
  k' <> k -> get_mark k' (set_mark k v t) = get_mark k' t.
Proof. destruct k, k'; intros H; try reflexivity; contradiction. Qed.

Lemma isFormatActive_pending ch sel m k :
  isFormatActive (mkEditor ch (Some sel) (Some m)) k
  = truthy_bool (marks_get m k).
Proof. reflexivity. Qed.

(** X17: At a collapsed selection a toggle of a mark flips what
    [isFormatActive] says of that mark and of no other, through the
    pending marks of the editor. *)
Theorem toggleFormat_flips_active (e : BaseEditor) (sel : Range) (k : Format) :
  selection e = Some sel ->
  Range.isCollapsed sel = true ->
  isFormatActive (toggleFormat e k) k = negb (isFormatActive e k)
  /\ forall k', k' <> k ->
       isFormatActive (toggleFormat e k) k' = isFormatActive e k'.
Proof.
  intros Hsel C.
  assert (E : toggleFormat e k
              = mkEditor (children e) (Some sel)
                  (Some (marks_set
                           match Editor.marks e with
                           | Some m => m
                           | None => Editor.no_marks
                           end k (Some (negb (isFormatActive e k)))))).
  { unfold toggleFormat, editor_addMark, Range.isExpanded.
    rewrite Hsel, C. reflexivity. }
  rewrite E. split.
  - rewrite isFormatActive_pending, marks_get_set.
    destruct (isFormatActive e k); reflexivity.
  - intros k' Hk.
    rewrite isFormatActive_pending, (marks_get_set_other _ _ _ _ Hk).
    unfold isFormatActive. destruct (Editor.marks e); [reflexivity|].
    destruct k'; reflexivity.
Qed.

Lemma toggleFormat_flips_active_witness :
  isFormatActive
    (toggleFormat
       (mkEditor [ElementNode "paragraph" None [TextNode (plain "a")]]
          (Some (mkRange (mkPoint [0; 0] 1) (mkPoint [0; 0] 1))) None)
       fmt_bold)
    fmt_bold
  = true.
Proof.
  apply (toggleFormat_flips_active
           (mkEditor [ElementNode "paragraph" None [TextNode (plain "a")]]
              (Some (mkRange (mkPoint [0; 0] 1) (mkPoint [0; 0] 1))) None)
           (mkRange (mkPoint [0; 0] 1) (mkPoint [0; 0] 1)) fmt_bold).
  - reflexivity.
  - reflexivity.
Defined.

Lemma plainTextOf_letters k n :
  String.concat "" (map plainTextOf (letters k n)) = plainTextOf n.
Proof.
  induction n as [t | ty a ch IH] using Descendant_ind.
  - cbn [letters plainTextOf]. rewrite map_map.
    replace (text t) with (string_of_list_ascii (list_ascii_of_string (text t)))
      at 2 by apply string_of_list_ascii_of_string.
    induction (list_ascii_of_string (text t)) as [|c l IHl]; [reflexivity|].
    cbn [map]. rewrite join_cons, IHl.
    destruct k; reflexivity.
  - cbn [letters map]. rewrite join_cons. cbn [map String.concat].
    rewrite append_empty_r. cbn [plainTextOf].
    induction IH as [|c ch Hc _ IHl]; [reflexivity|].
    cbn [flat_map map]. rewrite map_app, join_app, Hc, IHl.
    rewrite join_cons. reflexivity.
Qed.

Lemma getPlainText_explode k l :
  getPlainText (explode_doc k l) = getPlainText l.
Proof.
  unfold explode_doc. induction l as [|n l IH]; [reflexivity|].
  cbn [flat_map]. rewrite getPlainText_app, IH, getPlainText_cons.
  f_equal. apply plainTextOf_letters.
Qed.

(** X18: A toggle of a mark never changes the text of the document,
    whatever the selection: in a document of the editor (elements at
    the top level, below each element texts only or elements only) the
    plain text after the toggle is the plain text before it, also when
    [Editor.addMark] splits or merges leaves. *)
Theorem toggleFormat_keeps_text (e : BaseEditor) (k : Format) :
  wellFormed (children e) = true ->
  getPlainText (children (toggleFormat e k)) = getPlainText (children e).
Proof.
  intros _.
  rewrite <- (getPlainText_explode k (children (toggleFormat e k))).
  rewrite explode_toggleFormat. apply getPlainText_explode.
Qed.

Lemma toggleFormat_keeps_text_witness :
  getPlainText
    (children
       (toggleFormat
          (mkEditor
             [ElementNode "paragraph" None
                [TextNode (plain "abc");
                 TextNode (mkText "def" (Some true) None None None None)]]
             (Some (mkRange (mkPoint [0; 0] 1) (mkPoint [0; 0] 3))) None)
          fmt_bold))
  = "abcdef".
Proof.
  rewrite (toggleFormat_keeps_text
             (mkEditor
                [ElementNode "paragraph" None
                   [TextNode (plain "abc");
                    TextNode (mkText "def" (Some true) None None None None)]]
                (Some (mkRange (mkPoint [0; 0] 1) (mkPoint [0; 0] 3))) None)
             fmt_bold).
  - reflexivity.
  - reflexivity.
Defined.



(** X11: The selection lies in top-level blocks, none of them a list
    container.  A toggle of a list kind puts exactly the selected
    blocks, those the selection only hangs into included, into one new
    container of that kind, at the place where they were; the blocks of
    the unhung range become list items, and the selection follows them
    into the container. *)
Theorem toggleBlock_into_list
    (pre mid post : list Descendant) (sel : Range) (m : option Marks)
    (T : string) :
  selectsBlocks [] pre mid sel ->
  (forall c, In c mid -> isListNode c = false) ->
  isListType T = true ->
  toggleBlock (mkEditor (pre ++ mid ++ post) (Some sel) m) T
  = mkEditor
      (pre
       ++ [ElementNode T None
             (retype "list-item" (unhungCount sel (List.length mid)) mid)]
       ++ post)
      (Some (move_range (wrap_path (List.length pre)) sel)) m.
Proof.
  intros Hsel Hi Hl. apply toggleBlock_wrap; try assumption.
  apply no_list_type_active; [apply Hsel | exact Hi | exact Hl].
Qed.

Lemma exampleBlocks_blockSelection : blockSelection exampleBlocks.
Proof.
  apply topLevelBlocks.
  - split.
    + repeat constructor.
      * exists "paragraph", None, [plain "b"]. split; [discriminate|].
        reflexivity.
      * exists "paragraph", (Some "center"), [plain "c"].
        split; [discriminate|]. reflexivity.
    + exists 0, 0, (plain "b"), (plain "c"). repeat split; reflexivity.
  - intros c [<- | [<- | []]]; reflexivity.
Qed.

Lemma exampleItems_blockSelection : blockSelection exampleItems.
Proof.
  apply listItems.
  - split.
    + repeat constructor. exists "list-item", None, [plain "b"].
      split; [discriminate | reflexivity].
    + exists 0, 0, (plain "b"), (plain "b"). repeat split; reflexivity.
  - reflexivity.
  - intros c [<- | []]. reflexivity.
Qed.

Lemma toggleBlock_into_list_witness :
  children
    (toggleBlock
       (mkEditor
          ([] ++ [ElementNode "paragraph" None [TextNode (plain "a")];
                  ElementNode "paragraph" None [TextNode (plain "b")]]
              ++ [])
          (Some (mkRange (mkPoint [0; 0] 0) (mkPoint [1; 0] 0))) None)
       "numbered-list")
  = [ElementNode "numbered-list" None
       [ElementNode "list-item" None [TextNode (plain "a")];
        ElementNode "paragraph" None [TextNode (plain "b")]]].
Proof.
  rewrite (toggleBlock_into_list []
             [ElementNode "paragraph" None [TextNode (plain "a")];
              ElementNode "paragraph" None [TextNode (plain "b")]]
             [] (mkRange (mkPoint [0; 0] 0) (mkPoint [1; 0] 0)) None
             "numbered-list").
  - reflexivity.
  - split.
    + repeat constructor.
      * exists "paragraph", None, [plain "a"]. split; [discriminate|].
        reflexivity.
      * exists "paragraph", None, [plain "b"]. split; [discriminate|].
        reflexivity.
    + exists 0, 0, (plain "a"), (plain "b"). repeat split; reflexivity.
  - intros c [<- | [<- | []]]; reflexivity.
  - reflexivity.
Defined.

Lemma block_commands_keep_text_witness :
  getPlainText (children (toggleBlock exampleItems "heading-one")) = "pabc"
  /\ getPlainText (children (toggleAlign exampleBlocks "right")) = "abcd".
Proof.
  split.
  - rewrite (proj1 (block_commands_keep_text exampleItems
                      exampleItems_blockSelection) "heading-one").
    reflexivity.
  - rewrite (proj2 (block_commands_keep_text exampleBlocks
                      exampleBlocks_blockSelection) "right").
    reflexivity.
Defined.

Lemma toggleBlock_flips_active_witness :
  isBlockActive (toggleBlock exampleBlocks "heading-two") "heading-two"
  = true
  /\ isBlockActive (toggleBlock exampleItems "bulleted-list") "bulleted-list"
     = false.
Proof.
  split.
  - rewrite (toggleBlock_flips_active exampleBlocks "heading-two"
               exampleBlocks_blockSelection); [reflexivity | discriminate].
  - rewrite (toggleBlock_flips_active exampleItems "bulleted-list"
               exampleItems_blockSelection); [reflexivity | discriminate].
Defined.

Lemma getCurrentHeading_after_toggle_witness :
  getCurrentHeading (toggleBlock exampleBlocks "heading-two") = "H2"
  /\ getCurrentHeading (toggleBlock exampleBlocks "paragraph") = "Normal".
Proof.
  split.
  - rewrite (getCurrentHeading_after_toggle exampleBlocks "heading-two"
               exampleBlocks_blockSelection); reflexivity.
  - rewrite (getCurrentHeading_after_toggle exampleBlocks "paragraph"
               exampleBlocks_blockSelection); reflexivity.
Defined.

Lemma toggleBlock_keeps_items_in_lists_witness :
  noOrphanItems (children (toggleBlock exampleItems "bulleted-list")) = true.
Proof.
  apply (toggleBlock_keeps_items_in_lists exampleItems "bulleted-list"
           exampleItems_blockSelection).
  - intros sel H. injection H as <-. reflexivity.
  - discriminate.
  - reflexivity.
Defined.

